(** * Von Mises stress of a tube beam element: [VonMisesTube]

    A shallow embedding of
    [openaerostruct/structures/vonmises_tube.py].

    The component stores its arrays as numpy arrays of one scalar type
    ([data_type]).  The embedding is generic in that scalar type (class
    [Scalar]) and is instantiated three times:

    - [R], exact real arithmetic;
    - [xreal] = [option R], exact real arithmetic in which a division by
      zero does not raise but yields a non-finite value ([None]) that every
      later operation propagates, as numpy arithmetic does with [nan];
    - [R * V], a value paired with its tangent in a vector space [V], used
      for the derivative routines.

    Rounding is not modelled: a finite scalar is a real number. *)

From Stdlib Require Import Reals Lra Psatz String.
From stdpp Require Import base option list.

Set Default Proof Using "Type".

(** ** Scalars *)

Class Scalar (A : Type) : Type := {
  szero : A;
  sone : A;
  sadd : A -> A -> A;
  ssub : A -> A -> A;
  smul : A -> A -> A;
  sdiv : A -> A -> A;
  ssqrt : A -> A
}.

(** [x**2] *)
Definition ssq `{Scalar A} (x : A) : A := smul x x.

(** ** Arrays of fixed shape *)

(** A row [nodes[i, :]] of shape (3,). *)
Record Vec3 (A : Type) : Type := mkVec3 { vx : A; vy : A; vz : A }.
Arguments mkVec3 {A} _ _ _.
Arguments vx {A} _.
Arguments vy {A} _.
Arguments vz {A} _.

(** A row [disp[i, :]] of shape (6,). *)
Record Vec6 (A : Type) : Type :=
  mkVec6 { c0 : A; c1 : A; c2 : A; c3 : A; c4 : A; c5 : A }.
Arguments mkVec6 {A} _ _ _ _ _ _.
Arguments c0 {A} _.
Arguments c1 {A} _.
Arguments c2 {A} _.
Arguments c3 {A} _.
Arguments c4 {A} _.
Arguments c5 {A} _.

(** The scratch frame [self.T] of shape (3, 3), stored by rows. *)
Record Mat3 (A : Type) : Type :=
  mkMat3 { row0 : Vec3 A; row1 : Vec3 A; row2 : Vec3 A }.
Arguments mkMat3 {A} _ _ _.
Arguments row0 {A} _.
Arguments row1 {A} _.
Arguments row2 {A} _.

(** ** numpy operations used by [compute] *)
Module Np.
Section Ops.
Context {A : Type} `{Scalar A}.

(** [a - b] on arrays of shape (3,) *)
Definition sub (a b : Vec3 A) : Vec3 A :=
  mkVec3 (ssub (vx a) (vx b)) (ssub (vy a) (vy b)) (ssub (vz a) (vz b)).

(** [a / s], an array of shape (3,) divided by a scalar *)
Definition div (a : Vec3 A) (s : A) : Vec3 A :=
  mkVec3 (sdiv (vx a) s) (sdiv (vy a) s) (sdiv (vz a) s).

(** [np.sum(a)] *)
Definition sum (a : Vec3 A) : A := sadd (sadd (vx a) (vy a)) (vz a).

(** [a**2], elementwise *)
Definition sq (a : Vec3 A) : Vec3 A :=
  mkVec3 (ssq (vx a)) (ssq (vy a)) (ssq (vz a)).

(** [np.cross(a, b)] *)
Definition cross (a b : Vec3 A) : Vec3 A :=
  mkVec3 (ssub (smul (vy a) (vz b)) (smul (vz a) (vy b)))
         (ssub (smul (vz a) (vx b)) (smul (vx a) (vz b)))
         (ssub (smul (vx a) (vy b)) (smul (vy a) (vx b))).

(** the inner product of two arrays of shape (3,) *)
Definition inner (a b : Vec3 A) : A :=
  sadd (sadd (smul (vx a) (vx b)) (smul (vy a) (vy b))) (smul (vz a) (vz b)).

(** [T.dot(v)], matrix times vector *)
Definition dot (T : Mat3 A) (v : Vec3 A) : Vec3 A :=
  mkVec3 (inner (row0 T) v) (inner (row1 T) v) (inner (row2 T) v).

(** [d[:3]] and [d[3:]] *)
Definition first3 (d : Vec6 A) : Vec3 A := mkVec3 (c0 d) (c1 d) (c2 d).
Definition last3 (d : Vec6 A) : Vec3 A := mkVec3 (c3 d) (c4 d) (c5 d).

(** [T[i, :] = v]; an index outside the three rows raises *)
Definition set_row (T : Mat3 A) (i : nat) (v : Vec3 A) : option (Mat3 A) :=
  match i with
  | 0 => Some (mkMat3 v (row1 T) (row2 T))
  | 1 => Some (mkMat3 (row0 T) v (row2 T))
  | 2 => Some (mkMat3 (row0 T) (row1 T) v)
  | _ => None
  end.

(** [a[i, j] = v] on an array of shape (n, 2); an index out of range
    raises *)
Definition set_item2 (a : list (A * A)) (i j : nat) (v : A)
  : option (list (A * A)) :=
  p ← a !! i;
  match j with
  | 0 => Some (<[i := (v, p.2)]> a)
  | 1 => Some (<[i := (p.1, v)]> a)
  | _ => None
  end.
End Ops.
End Np.

(** ** [openaerostruct.structures.utils] *)
Module Utils.
Section Utils.
Context {A : Type} `{Scalar A}.

(** Modelled from the spec: [norm] of [openaerostruct/structures/utils.py],
    the Euclidean norm [|v|] of section 4.1, as the square root of the sum
    of squares. *)
Definition norm (vec : Vec3 A) : A := ssqrt (Np.sum (Np.sq vec)).

(** Modelled from the spec: [unit] of [openaerostruct/structures/utils.py],
    [unit(v) = v / |v|] of section 4.1. *)
Definition unit (vec : Vec3 A) : Vec3 A := Np.div vec (norm vec).
End Utils.
End Utils.

(** ** The component and its arrays *)

(** What [compute] reads and writes: the three input arrays, the scratch
    frame [self.T], which lives as long as the component, and the output
    array. *)
Record Store (A : Type) : Type := mkStore {
  nodes : list (Vec3 A);
  radius : list A;
  disp : list (Vec6 A);
  T : Mat3 A;
  vonmises : list (A * A)
}.
Arguments mkStore {A} _ _ _ _ _.
Arguments nodes {A} _.
Arguments radius {A} _.
Arguments disp {A} _.
Arguments T {A} _.
Arguments vonmises {A} _.

Definition set_T {A} (st : Store A) (t : Mat3 A) : Store A :=
  mkStore (nodes st) (radius st) (disp st) t (vonmises st).

Definition set_vonmises {A} (st : Store A) (vm : list (A * A)) : Store A :=
  mkStore (nodes st) (radius st) (disp st) (T st) vm.

(** [for i in range(n)] over a body that may raise *)
Fixpoint for_range {S : Type} (body : nat -> S -> option S)
    (start count : nat) (s : S) : option S :=
  match count with
  | 0 => Some s
  | Datatypes.S count' =>
      s' ← body start s; for_range body (Datatypes.S start) count' s'
  end.

Section VonMisesTube.
Context {A : Type} `{Scalar A}.

(** [self.x_gl = np.array([1, 0, 0])] *)
Definition x_gl : Vec3 A := mkVec3 sone szero szero.

(** The compiled routine [OAS_API.oas_api.calc_vonmises]. *)
Variable calc_vonmises :
  list (Vec3 A) -> list A -> list (Vec6 A) -> A -> A -> Vec3 A -> list (A * A).

(** One iteration of the loop of [compute], for element [ielem]. *)
Definition loop_body (E G : A) (ielem : nat) (st : Store A)
  : option (Store A) :=
  P0 ← nodes st !! ielem;
  P1 ← nodes st !! (ielem + 1);
  let L := Utils.norm (Np.sub P1 P0) in
  let x_loc := Utils.unit (Np.sub P1 P0) in
  let y_loc := Utils.unit (Np.cross x_loc x_gl) in
  let z_loc := Utils.unit (Np.cross x_loc y_loc) in
  t ← Np.set_row (T st) 0 x_loc;
  let st := set_T st t in
  t ← Np.set_row (T st) 1 y_loc;
  let st := set_T st t in
  t ← Np.set_row (T st) 2 z_loc;
  let st := set_T st t in
  d0 ← disp st !! ielem;
  let u0 := Np.dot (T st) (Np.first3 d0) in
  let r0 := Np.dot (T st) (Np.last3 d0) in
  d1 ← disp st !! (ielem + 1);
  let u1 := Np.dot (T st) (Np.first3 d1) in
  let r1 := Np.dot (T st) (Np.last3 d1) in
  let tmp := ssqrt (sadd (ssq (ssub (vy r1) (vy r0)))
                         (ssq (ssub (vz r1) (vz r0)))) in
  rad ← radius st !! ielem;
  let sxx0 := sadd (sdiv (smul E (ssub (vx u1) (vx u0))) L)
                   (smul (sdiv (smul E rad) L) tmp) in
  let sxx1 := sadd (sdiv (smul E (ssub (vx u0) (vx u1))) L)
                   (smul (sdiv (smul E rad) L) tmp) in
  let sxt := sdiv (smul (smul G rad) (ssub (vx r1) (vx r0))) L in
  vm ← Np.set_item2 (vonmises st) ielem 0 (ssqrt (sadd (ssq sxx0) (ssq sxt)));
  let st := set_vonmises st vm in
  vm ← Np.set_item2 (vonmises st) ielem 1 (ssqrt (sadd (ssq sxx1) (ssq sxt)));
  Some (set_vonmises st vm).

(** [VonMisesTube.compute]; [ny], [E] and [G] are the attributes set by
    [initialize_variables], [fortran_flag] the module-level flag. *)
Definition compute (fortran_flag : bool) (ny : nat) (E G : A)
    (st : Store A) : option (Store A) :=
  if fortran_flag then
    Some (set_vonmises st
            (calc_vonmises (nodes st) (radius st) (disp st) E G x_gl))
  else
    for_range (loop_body E G) 0 (ny - 1) st.
End VonMisesTube.


(** ** The loop body as a function of one element's data *)
Section Element.
Context {A : Type} `{Scalar A}.

(** The three rows written to [T] for the element from [P0] to [P1], for a
    reference axis [xg]. *)
Definition frame_axis (xg P0 P1 : Vec3 A) : Mat3 A :=
  let x_loc := Utils.unit (Np.sub P1 P0) in
  let y_loc := Utils.unit (Np.cross x_loc xg) in
  let z_loc := Utils.unit (Np.cross x_loc y_loc) in
  mkMat3 x_loc y_loc z_loc.

Definition frame_of (P0 P1 : Vec3 A) : Mat3 A := frame_axis x_gl P0 P1.

(** The stress pair from the length and the local displacements [u0], [u1]
    and rotations [r0], [r1] of the two ends. *)
Definition stress_local (E G L rad : A) (u0 r0 u1 r1 : Vec3 A) : A * A :=
  let tmp := ssqrt (sadd (ssq (ssub (vy r1) (vy r0)))
                         (ssq (ssub (vz r1) (vz r0)))) in
  let sxx0 := sadd (sdiv (smul E (ssub (vx u1) (vx u0))) L)
                   (smul (sdiv (smul E rad) L) tmp) in
  let sxx1 := sadd (sdiv (smul E (ssub (vx u0) (vx u1))) L)
                   (smul (sdiv (smul E rad) L) tmp) in
  let sxt := sdiv (smul (smul G rad) (ssub (vx r1) (vx r0))) L in
  (ssqrt (sadd (ssq sxx0) (ssq sxt)), ssqrt (sadd (ssq sxx1) (ssq sxt))).

(** The pair written to [vonmises[ielem, :]], for a reference axis [xg]. *)
Definition stress_axis (xg : Vec3 A) (E G : A) (P0 P1 : Vec3 A) (rad : A)
    (d0 d1 : Vec6 A) : A * A :=
  let Tm := frame_axis xg P0 P1 in
  stress_local E G (Utils.norm (Np.sub P1 P0)) rad
    (Np.dot Tm (Np.first3 d0)) (Np.dot Tm (Np.last3 d0))
    (Np.dot Tm (Np.first3 d1)) (Np.dot Tm (Np.last3 d1)).

Definition stress_of (E G : A) (P0 P1 : Vec3 A) (rad : A) (d0 d1 : Vec6 A)
  : A * A :=
  stress_axis x_gl E G P0 P1 rad d0 d1.

(** The shapes declared by [initialize_variables] for [ny] nodes. *)
Definition well_shaped (ny : nat) (st : Store A) : Prop :=
  length (nodes st) = ny /\ length (radius st) = ny - 1 /\
  length (disp st) = ny /\ length (vonmises st) = ny - 1.

(** Element [i] of a store: its two nodes, its radius and the
    displacements of its two nodes. *)
Definition element_at (st : Store A) (i : nat)
    (P0 P1 : Vec3 A) (rad : A) (d0 d1 : Vec6 A) : Prop :=
  nodes st !! i = Some P0 /\ nodes st !! (i + 1) = Some P1 /\
  radius st !! i = Some rad /\
  disp st !! i = Some d0 /\ disp st !! (i + 1) = Some d1.
End Element.

(** ** Scalar instances *)

(** Exact real arithmetic. *)
#[export] Instance R_scalar : Scalar R := {|
  szero := 0%R; sone := 1%R;
  sadd := Rplus; ssub := Rminus; smul := Rmult; sdiv := Rdiv; ssqrt := sqrt
|}.

(** A finite real, or [None] for a value that is not one: the result of a
    division by zero, of the square root of a negative number, or of any
    operation on such a result. *)
Abbreviation xreal := (option R).

Definition xlift2 (f : R -> R -> R) (a b : xreal) : xreal :=
  match a, b with
  | Some x, Some y => Some (f x y)
  | _, _ => None
  end.

Definition xdiv (a b : xreal) : xreal :=
  match a, b with
  | Some x, Some y => if Req_dec_T y 0 then None else Some (x / y)%R
  | _, _ => None
  end.

Definition xsqrt (a : xreal) : xreal :=
  match a with
  | Some x => if Rlt_dec x 0 then None else Some (sqrt x)
  | None => None
  end.

#[export] Instance xreal_scalar : Scalar xreal := {|
  szero := Some 0%R; sone := Some 1%R;
  sadd := xlift2 Rplus; ssub := xlift2 Rminus; smul := xlift2 Rmult;
  sdiv := xdiv; ssqrt := xsqrt
|}.

(** Real arrays seen as arrays of finite scalars. *)
Definition fin3 (v : Vec3 R) : Vec3 xreal :=
  mkVec3 (Some (vx v)) (Some (vy v)) (Some (vz v)).

Definition fin6 (d : Vec6 R) : Vec6 xreal :=
  mkVec6 (Some (c0 d)) (Some (c1 d)) (Some (c2 d))
         (Some (c3 d)) (Some (c4 d)) (Some (c5 d)).

Definition fin_mat (m : Mat3 R) : Mat3 xreal :=
  mkMat3 (fin3 (row0 m)) (fin3 (row1 m)) (fin3 (row2 m)).

Definition fin2 (p : R * R) : xreal * xreal := (Some p.1, Some p.2).

(** The store whose input arrays hold the given real values. *)
Definition fin_store (nodesR : list (Vec3 R)) (radiusR : list R)
    (dispR : list (Vec6 R)) (T0 : Mat3 xreal) (vm0 : list (xreal * xreal))
  : Store xreal :=
  mkStore (fin3 <$> nodesR) (Some <$> radiusR) (fin6 <$> dispR) T0 vm0.

(** ** Geometry of an element *)

Definition zero3 : Vec3 R := mkVec3 0%R 0%R 0%R.

(** The axis [d = P1 - P0] is parallel to [x_gl]: their cross product
    vanishes.  A zero axis is parallel to everything. *)
Definition parallel_x_gl (d : Vec3 R) : Prop := Np.cross d x_gl = zero3.

(** Well-posed geometry: distinct end points, axis not parallel to
    [x_gl]. *)
Definition well_posed (P0 P1 : Vec3 R) : Prop :=
  P0 <> P1 /\ ~ parallel_x_gl (Np.sub P1 P0).

(** Degenerate geometry: zero length, or axis parallel to [x_gl]. *)
Definition degenerate (P0 P1 : Vec3 R) : Prop :=
  P0 = P1 \/ parallel_x_gl (Np.sub P1 P0).

(** ** The formulas of the specification, over the reals *)
Module Spec.
Section Formulas.
Local Open Scope R_scope.
Variables (E G : R) (P0 P1 : Vec3 R) (r : R) (d0 d1 : Vec6 R).

Definition norm3 (v : Vec3 R) : R := sqrt (vx v * vx v + vy v * vy v + vz v * vz v).
Definition unit3 (v : Vec3 R) : Vec3 R :=
  mkVec3 (vx v / norm3 v) (vy v / norm3 v) (vz v / norm3 v).
Definition diff3 (a b : Vec3 R) : Vec3 R :=
  mkVec3 (vx a - vx b) (vy a - vy b) (vz a - vz b).
Definition cross3 (a b : Vec3 R) : Vec3 R :=
  mkVec3 (vy a * vz b - vz a * vy b)
         (vz a * vx b - vx a * vz b)
         (vx a * vy b - vy a * vx b).
Definition dot3 (a b : Vec3 R) : R := vx a * vx b + vy a * vy b + vz a * vz b.

(** 4.1: the frame and the length *)
Definition L : R := norm3 (diff3 P1 P0).
Definition x_loc : Vec3 R := unit3 (diff3 P1 P0).
Definition y_loc : Vec3 R := unit3 (cross3 x_loc (mkVec3 1 0 0)).
Definition z_loc : Vec3 R := unit3 (cross3 x_loc y_loc).

(** 4.2 step 1: the end displacements and rotations in the local frame *)
Definition u0x : R := dot3 x_loc (Np.first3 d0).
Definition u1x : R := dot3 x_loc (Np.first3 d1).
Definition r0x : R := dot3 x_loc (Np.last3 d0).
Definition r0y : R := dot3 y_loc (Np.last3 d0).
Definition r0z : R := dot3 z_loc (Np.last3 d0).
Definition r1x : R := dot3 x_loc (Np.last3 d1).
Definition r1y : R := dot3 y_loc (Np.last3 d1).
Definition r1z : R := dot3 z_loc (Np.last3 d1).

(** 4.2 steps 2 to 6 *)
Definition bend : R := sqrt ((r1y - r0y) ^ 2 + (r1z - r0z) ^ 2).
Definition sigma0 : R := E * (u1x - u0x) / L + E * r / L * bend.
Definition sigma1 : R := E * (u0x - u1x) / L + E * r / L * bend.
Definition shear : R := G * r * (r1x - r0x) / L.
Definition vonmises0 : R := sqrt (sigma0 ^ 2 + shear ^ 2).
Definition vonmises1 : R := sqrt (sigma1 ^ 2 + shear ^ 2).
End Formulas.
End Spec.

(** ** The derivative arrays *)

(** A numpy complex scalar. *)
Record complex : Type := mkComplex { real : R; imag : R }.

(** [a.real] on the rows of the arrays *)
Definition real3 (v : Vec3 complex) : Vec3 R :=
  mkVec3 (real (vx v)) (real (vy v)) (real (vz v)).

Definition real6 (d : Vec6 complex) : Vec6 R :=
  mkVec6 (real (c0 d)) (real (c1 d)) (real (c2 d))
         (real (c3 d)) (real (c4 d)) (real (c5 d)).

Definition real2 (p : complex * complex) : R * R := (real p.1, real p.2).

(** The dictionaries [inputs] and [outputs]. *)
Record Inputs : Type := mkInputs {
  in_nodes : list (Vec3 complex);
  in_radius : list complex;
  in_disp : list (Vec6 complex)
}.

Record Outputs : Type := mkOutputs { out_vonmises : list (complex * complex) }.

(** The dictionaries [d_inputs] (keys [nodes], [radius], [disp]) and
    [d_outputs] (key [vonmises]): seeds in one mode, accumulators in the
    other. *)
Record Derivs : Type := mkDerivs {
  d_nodes : list (Vec3 R);
  d_radius : list R;
  d_disp : list (Vec6 R);
  d_vonmises : list (R * R)
}.

Section RealRows.
Local Open Scope R_scope.

Definition add2 (p q : R * R) : R * R := (p.1 + q.1, p.2 + q.2).

Definition add3 (a b : Vec3 R) : Vec3 R :=
  mkVec3 (vx a + vx b) (vy a + vy b) (vz a + vz b).

Definition add6 (a b : Vec6 R) : Vec6 R :=
  mkVec6 (c0 a + c0 b) (c1 a + c1 b) (c2 a + c2 b)
         (c3 a + c3 b) (c4 a + c4 b) (c5 a + c5 b).

Definition scale2 (k : R) (p : R * R) : R * R := (k * p.1, k * p.2).

Definition scale3 (k : R) (v : Vec3 R) : Vec3 R :=
  mkVec3 (k * vx v) (k * vy v) (k * vz v).

Definition scale6 (k : R) (d : Vec6 R) : Vec6 R :=
  mkVec6 (k * c0 d) (k * c1 d) (k * c2 d) (k * c3 d) (k * c4 d) (k * c5 d).

End RealRows.

(** [a += b] on arrays with rows added by [f]; operands of different
    lengths raise.  (numpy would stretch an axis of length one; the compiled
    routines return arrays of the shapes of their arguments.) *)
Definition iadd {X : Type} (f : X -> X -> X) (a b : list X) : option (list X) :=
  if decide (length a = length b) then Some (zip_with f a b) else None.

Section JacVec.
(** The compiled routines [OAS_API.oas_api.calc_vonmises_d] and
    [calc_vonmises_b]. *)
Variable calc_vonmises_d :
  list (Vec3 R) -> list (Vec3 R) -> list R -> list R ->
  list (Vec6 R) -> list (Vec6 R) -> R -> R -> Vec3 R ->
  list (R * R) * list (R * R).
Variable calc_vonmises_b :
  list (Vec3 R) -> list R -> list (Vec6 R) -> R -> R -> Vec3 R ->
  list (R * R) -> list (R * R) ->
  list (Vec3 R) * list R * list (Vec6 R).

(** [VonMisesTube.compute_jacvec_product] *)
Definition compute_jacvec_product (E G : R) (inputs : Inputs)
    (outputs : Outputs) (mode : string) (d : Derivs) : option Derivs :=
  let radius := real <$> in_radius inputs in
  let disp := real6 <$> in_disp inputs in
  let nodes := real3 <$> in_nodes inputs in
  let vonmises := real2 <$> out_vonmises outputs in
  d ← (if String.eqb mode "fwd" then
         let vonmisesd :=
           (calc_vonmises_d nodes (d_nodes d) radius (d_radius d)
              disp (d_disp d) E G x_gl).2 in
         vm ← iadd add2 (d_vonmises d) vonmisesd;
         Some (mkDerivs (d_nodes d) (d_radius d) (d_disp d) vm)
       else Some d);
  if String.eqb mode "rev" then
    let b := calc_vonmises_b nodes radius disp E G x_gl
               vonmises (d_vonmises d) in
    n ← iadd add3 (d_nodes d) b.1.1;
    r ← iadd Rplus (d_radius d) b.1.2;
    q ← iadd add6 (d_disp d) b.2;
    Some (mkDerivs n r q (d_vonmises d))
  else Some d.
End JacVec.

(** ** The derivative routines, modelled *)

(** Tangents live in a vector space over the reals. *)
Class VSpace (V : Type) : Type := {
  vzero : V;
  vadd : V -> V -> V;
  vscale : R -> V -> V
}.

(** A value with its tangent, and the differentiation rules: sum, product
    and quotient rule, and the chain rule through the square root. *)
#[export] Instance tangent_scalar {V : Type} `{VSpace V} : Scalar (R * V) := {|
  szero := (0%R, vzero);
  sone := (1%R, vzero);
  sadd a b := ((a.1 + b.1)%R, vadd a.2 b.2);
  ssub a b := ((a.1 - b.1)%R, vadd a.2 (vscale (-1) b.2));
  smul a b := ((a.1 * b.1)%R, vadd (vscale b.1 a.2) (vscale a.1 b.2));
  sdiv a b := ((a.1 / b.1)%R,
               vscale (/ (b.1 * b.1))
                 (vadd (vscale b.1 a.2) (vscale (- a.1) b.2)));
  ssqrt a := (sqrt a.1, vscale (/ (2 * sqrt a.1)) a.2)
|}.

(** A tangent along one direction is a number. *)
#[export] Instance R_vspace : VSpace R := {|
  vzero := 0%R; vadd := Rplus; vscale := Rmult
|}.

(** The data of one element: its two nodes, its radius and the
    displacements of its two nodes. *)
Record Elem (X : Type) : Type := mkElem {
  eP0 : Vec3 X; eP1 : Vec3 X; erad : X; ed0 : Vec6 X; ed1 : Vec6 X
}.
Arguments mkElem {X} _ _ _ _ _.
Arguments eP0 {X} _.
Arguments eP1 {X} _.
Arguments erad {X} _.
Arguments ed0 {X} _.
Arguments ed1 {X} _.

Section Gradients.
Local Open Scope R_scope.

Definition zero6 : Vec6 R := mkVec6 0 0 0 0 0 0.

(** A gradient with respect to the data of one element has one component
    for each of them. *)
#[export] Instance grad_vspace : VSpace (Elem R) := {|
  vzero := mkElem zero3 zero3 0 zero6 zero6;
  vadd g h := mkElem (add3 (eP0 g) (eP0 h)) (add3 (eP1 g) (eP1 h))
                     (erad g + erad h)
                     (add6 (ed0 g) (ed0 h)) (add6 (ed1 g) (ed1 h));
  vscale k g := mkElem (scale3 k (eP0 g)) (scale3 k (eP1 g)) (k * erad g)
                       (scale6 k (ed0 g)) (scale6 k (ed1 g))
|}.

Definition inner2 (p q : R * R) : R := (p.1 * q.1 + p.2 * q.2).

Definition inner6 (a b : Vec6 R) : R :=
  (c0 a * c0 b + c1 a * c1 b + c2 a * c2 b +
   c3 a * c3 b + c4 a * c4 b + c5 a * c5 b).

(** The inner product of a seed with a gradient. *)
Definition ginner (s g : Elem R) : R :=
  (Np.inner (eP0 s) (eP0 g) + Np.inner (eP1 s) (eP1 g) + erad s * erad g +
   inner6 (ed0 s) (ed0 g) + inner6 (ed1 s) (ed1 g)).

End Gradients.

Section Tangents.
Context {V : Type} `{VSpace V}.

(** A constant: its tangent vanishes. *)
Definition const (c : R) : R * V := (c, vzero).

Definition const3 (v : Vec3 R) : Vec3 (R * V) :=
  mkVec3 (const (vx v)) (const (vy v)) (const (vz v)).

(** Values paired with tangents, row by row. *)
Definition with_tangent3 (v : Vec3 R) (t : Vec3 V) : Vec3 (R * V) :=
  mkVec3 (vx v, vx t) (vy v, vy t) (vz v, vz t).

Definition with_tangent6 (d : Vec6 R) (t : Vec6 V) : Vec6 (R * V) :=
  mkVec6 (c0 d, c0 t) (c1 d, c1 t) (c2 d, c2 t)
         (c3 d, c3 t) (c4 d, c4 t) (c5 d, c5 t).

(** The stress pair of element [e] and its tangent, the data of the element
    carrying the tangents [t]: the formulas of [compute] evaluated with the
    differentiation rules. *)
Definition elem_stress_t (xg : Vec3 R) (E G : R) (e : Elem R) (t : Elem V)
  : (R * V) * (R * V) :=
  stress_axis (const3 xg) (const E) (const G)
    (with_tangent3 (eP0 e) (eP0 t)) (with_tangent3 (eP1 e) (eP1 t))
    (erad e, erad t)
    (with_tangent6 (ed0 e) (ed0 t)) (with_tangent6 (ed1 e) (ed1 t)).
End Tangents.

(** The elements of a beam, in order: element [i] has nodes [i] and
    [i + 1]. *)
Fixpoint elements {X : Type} (nodes : list (Vec3 X)) (radius : list X)
    (disp : list (Vec6 X)) : list (Elem X) :=
  match nodes, radius, disp with
  | P0 :: ns, r :: rs, d0 :: ds =>
      match ns, ds with
      | P1 :: _, d1 :: _ => mkElem P0 P1 r d0 d1 :: elements ns rs ds
      | _, _ => []
      end
  | _, _, _ => []
  end.

Section Basis.
Local Open Scope R_scope.

(** The unit gradients: the derivative of each datum of an element with
    respect to the data of the element. *)
Definition grad_P0 (v : Vec3 R) : Elem R := mkElem v zero3 0 zero6 zero6.
Definition grad_P1 (v : Vec3 R) : Elem R := mkElem zero3 v 0 zero6 zero6.
Definition grad_rad : Elem R := mkElem zero3 zero3 1 zero6 zero6.
Definition grad_d0 (d : Vec6 R) : Elem R := mkElem zero3 zero3 0 d zero6.
Definition grad_d1 (d : Vec6 R) : Elem R := mkElem zero3 zero3 0 zero6 d.

Definition basis3 (f : Vec3 R -> Elem R) : Vec3 (Elem R) :=
  mkVec3 (f (mkVec3 1 0 0)) (f (mkVec3 0 1 0)) (f (mkVec3 0 0 1)).

Definition basis6 (f : Vec6 R -> Elem R) : Vec6 (Elem R) :=
  mkVec6 (f (mkVec6 1 0 0 0 0 0)) (f (mkVec6 0 1 0 0 0 0))
         (f (mkVec6 0 0 1 0 0 0)) (f (mkVec6 0 0 0 1 0 0))
         (f (mkVec6 0 0 0 0 1 0)) (f (mkVec6 0 0 0 0 0 1)).

Definition basis : Elem (Elem R) :=
  mkElem (basis3 grad_P0) (basis3 grad_P1) grad_rad
         (basis6 grad_d0) (basis6 grad_d1).

End Basis.

(** The vector-Jacobian product of one element: the seed [sb] on its stress
    pair times the gradients of the two stresses. *)
Definition elem_b (xg : Vec3 R) (E G : R) (e : Elem R) (sb : R * R) : Elem R :=
  let g := elem_stress_t xg E G e basis in
  vadd (vscale sb.1 g.1.2) (vscale sb.2 g.2.2).

(** The adjoints of the elements added into the adjoints of the nodes they
    share: node [i] ends element [i - 1] and starts element [i]. *)
Fixpoint scatter_nodes (carry : Vec3 R) (eb : list (Elem R)) : list (Vec3 R) :=
  match eb with
  | [] => [carry]
  | b :: bs => add3 carry (eP0 b) :: scatter_nodes (eP1 b) bs
  end.

Fixpoint scatter_disp (carry : Vec6 R) (eb : list (Elem R)) : list (Vec6 R) :=
  match eb with
  | [] => [carry]
  | b :: bs => add6 carry (ed0 b) :: scatter_disp (ed1 b) bs
  end.

(** Modelled from the spec: [OAS_API.oas_api.calc_vonmises_d], the
    forward-mode derivative of section 4.3: the stresses and their
    directional derivative along the tangents [nodesd], [radiusd], [dispd],
    by the differentiation rules applied to the formulas of sections 4.1 and
    4.2. *)
Definition calc_vonmises_d_model (nodes nodesd : list (Vec3 R))
    (radius radiusd : list R) (disp dispd : list (Vec6 R)) (E G : R)
    (xg : Vec3 R) : list (R * R) * list (R * R) :=
  let r := zip_with (elem_stress_t xg E G)
             (elements nodes radius disp) (elements nodesd radiusd dispd) in
  ((fun p => (p.1.1, p.2.1)) <$> r, (fun p => (p.1.2, p.2.2)) <$> r).

(** Modelled from the spec: [OAS_API.oas_api.calc_vonmises_b], the
    reverse-mode derivative of section 4.4: for each input array, the
    vector-Jacobian product of the same formulas with the seed [vonmisesb]
    on the stresses. *)
Definition calc_vonmises_b_model (nodes : list (Vec3 R)) (radius : list R)
    (disp : list (Vec6 R)) (E G : R) (xg : Vec3 R)
    (vonmises vonmisesb : list (R * R))
  : list (Vec3 R) * list R * list (Vec6 R) :=
  let eb := zip_with (elem_b xg E G) (elements nodes radius disp) vonmisesb in
  (match nodes with [] => [] | _ :: _ => scatter_nodes zero3 eb end,
   erad <$> eb,
   match disp with [] => [] | _ :: _ => scatter_disp zero6 eb end).

(** The dot product of two arrays of the same shape. *)
Definition dot_list {X : Type} (ip : X -> X -> R) (a b : list X) : R :=
  foldr Rplus 0%R (zip_with ip a b).

Section Scenario.
Local Open Scope R_scope.

(** ** The axial-stretch scenario *)

(** The displacement of a node moved by [c] along the axis of the element,
    without rotation. *)
Definition axial_disp (c : R) (P0 P1 : Vec3 R) : Vec6 R :=
  let x := Utils.unit (Np.sub P1 P0) in
  mkVec6 (c * vx x) (c * vy x) (c * vz x) 0 0 0.

Definition scen_P0 : Vec3 R := mkVec3 0 0 0.
Definition scen_P1 : Vec3 R := mkVec3 1 0 1.
Definition scen_E : R := 70e9.
Definition scen_G : R := 25e9.
Definition scen_radius : R := 0.1.
(** Node 1 moved by 0.01 along the axis [(1, 0, 1) / sqrt 2]. *)
Definition scen_d1 : Vec6 R := mkVec6 (0.01 / sqrt 2) 0 (0.01 / sqrt 2) 0 0 0.

End Scenario.

(** ** Auxiliary definitions *)

(** The sum of the squares of the components. *)
Definition sumsq (v : Vec3 R) : R :=
  (vx v * vx v + vy v * vy v + vz v * vz v)%R.

(** A row of non-finite entries. *)
Definition nan3 : Vec3 xreal := mkVec3 None None None.

(** Real input arrays and an output buffer of the shapes declared for [ny]
    nodes. *)
Definition real_shapes (ny : nat) (nodesR : list (Vec3 R)) (radiusR : list R)
    (dispR : list (Vec6 R)) (vm0 : list (xreal * xreal)) : Prop :=
  length nodesR = ny /\ length radiusR = ny - 1 /\
  length dispR = ny /\ length vm0 = ny - 1.

(** Element [i] of real input arrays. *)
Definition real_element (nodesR : list (Vec3 R)) (radiusR : list R)
    (dispR : list (Vec6 R)) (i : nat)
    (P0 P1 : Vec3 R) (rad : R) (d0 d1 : Vec6 R) : Prop :=
  nodesR !! i = Some P0 /\ nodesR !! (i + 1) = Some P1 /\
  radiusR !! i = Some rad /\
  dispR !! i = Some d0 /\ dispR !! (i + 1) = Some d1.

Section Contributions.
Variable calc_vonmises_d :
  list (Vec3 R) -> list (Vec3 R) -> list R -> list R ->
  list (Vec6 R) -> list (Vec6 R) -> R -> R -> Vec3 R ->
  list (R * R) * list (R * R).
Variable calc_vonmises_b :
  list (Vec3 R) -> list R -> list (Vec6 R) -> R -> R -> Vec3 R ->
  list (R * R) -> list (R * R) ->
  list (Vec3 R) * list R * list (Vec6 R).

(** What one call in mode [fwd] adds to [d_outputs['vonmises']]. *)
Definition fwd_contribution (E G : R) (inputs : Inputs) (d : Derivs)
  : list (R * R) :=
  (calc_vonmises_d (real3 <$> in_nodes inputs) (d_nodes d)
     (real <$> in_radius inputs) (d_radius d)
     (real6 <$> in_disp inputs) (d_disp d) E G x_gl).2.

(** What one call in mode [rev] adds to [d_inputs]. *)
Definition rev_contribution (E G : R) (inputs : Inputs) (outputs : Outputs)
    (d : Derivs) : list (Vec3 R) * list R * list (Vec6 R) :=
  calc_vonmises_b (real3 <$> in_nodes inputs) (real <$> in_radius inputs)
    (real6 <$> in_disp inputs) E G x_gl
    (real2 <$> out_vonmises outputs) (d_vonmises d).
End Contributions.

(** A map between two scalar types applied to the rows of the arrays. *)
Definition map3 {A B : Type} (h : A -> B) (v : Vec3 A) : Vec3 B :=
  mkVec3 (h (vx v)) (h (vy v)) (h (vz v)).

Definition map6 {A B : Type} (h : A -> B) (d : Vec6 A) : Vec6 B :=
  mkVec6 (h (c0 d)) (h (c1 d)) (h (c2 d)) (h (c3 d)) (h (c4 d)) (h (c5 d)).

Definition map_mat {A B : Type} (h : A -> B) (m : Mat3 A) : Mat3 B :=
  mkMat3 (map3 h (row0 m)) (map3 h (row1 m)) (map3 h (row2 m)).

Definition map2 {A B : Type} (h : A -> B) (p : A * A) : B * B := (h p.1, h p.2).

(** A map that commutes with the operations of two scalar types. *)
Record scalar_hom {A B : Type} `{Scalar A} `{Scalar B} (h : A -> B) : Prop := {
  hom_zero : h szero = szero;
  hom_one : h sone = sone;
  hom_add : forall a b, h (sadd a b) = sadd (h a) (h b);
  hom_sub : forall a b, h (ssub a b) = ssub (h a) (h b);
  hom_mul : forall a b, h (smul a b) = smul (h a) (h b);
  hom_div : forall a b, h (sdiv a b) = sdiv (h a) (h b);
  hom_sqrt : forall a, h (ssqrt a) = ssqrt (h a)
}.

(** A linear map between two spaces of tangents. *)
Record linear {V W : Type} `{VSpace V} `{VSpace W} (f : V -> W) : Prop := {
  lin_zero : f vzero = vzero;
  lin_add : forall a b, f (vadd a b) = vadd (f a) (f b);
  lin_scale : forall k a, f (vscale k a) = vscale k (f a)
}.

(** A map on tangents applied to a value with its tangent. *)
Definition map_tangent {V W : Type} (f : V -> W) (a : R * V) : R * W :=
  (a.1, f a.2).

(** ** Sample data *)
Section Samples.
Local Open Scope R_scope.

(** A beam of three nodes with two well-posed elements. *)
Definition beam_nodes : list (Vec3 R) :=
  [mkVec3 0 0 0; mkVec3 1 0 1; mkVec3 2 1 1].
Definition beam_radius : list R := [0.1; 0.2].
Definition beam_disp : list (Vec6 R) :=
  [mkVec6 0 0 0 0 0 0; mkVec6 0.01 0 0.02 0 0.001 0; mkVec6 0 0.03 0 0.002 0 0].

(** A beam whose first element lies along [x_gl] and whose second element
    has zero length. *)
Definition flat_nodes : list (Vec3 R) :=
  [mkVec3 0 0 0; mkVec3 2 0 0; mkVec3 2 0 0].

(** A scratch frame and an output buffer with stale content. *)
Definition stale_T : Mat3 xreal :=
  mkMat3 (mkVec3 (Some 7) None (Some 1)) nan3 (mkVec3 (Some 0) (Some 3) None).
Definition stale_vonmises : list (xreal * xreal) :=
  [(Some 5, None); (None, Some 9)].

(** A compiled routine that is never called on the pure-Python path. *)
Definition no_backend :
  list (Vec3 xreal) -> list xreal -> list (Vec6 xreal) -> xreal -> xreal ->
  Vec3 xreal -> list (xreal * xreal) :=
  fun _ _ _ _ _ _ => [].

(** Seeds and accumulators for the derivative operation. *)
Definition beam_derivs : Derivs :=
  mkDerivs [mkVec3 1 0 0; mkVec3 0 2 0; mkVec3 0 0 3] [1; 4]
           [mkVec6 1 0 0 0 0 0; mkVec6 0 1 0 0 0 1; mkVec6 0 0 1 1 0 0]
           [(1, 2); (3, 5)].

(** The same beam as complex arrays, with zero and with non-zero imaginary
    parts. *)
Definition cplx (im : R) (x : R) : complex := mkComplex x im.

Definition beam_inputs (im : R) : Inputs :=
  mkInputs (map3 (cplx im) <$> beam_nodes) (cplx im <$> beam_radius)
           (map6 (cplx im) <$> beam_disp).

Definition beam_outputs (im : R) : Outputs :=
  mkOutputs [(cplx im 10, cplx im 20); (cplx im 30, cplx im 40)].
End Samples.

(** ** Shapes and initial values *)
Section Shapes.
Context {A : Type} `{Scalar A}.

(** Arrays at least as long as [compute] needs for [ny] nodes. *)
Definition big_enough (ny : nat) (st : Store A) : Prop :=
  ny <= length (nodes st) /\ ny - 1 <= length (radius st) /\
  ny <= length (disp st) /\ ny - 1 <= length (vonmises st).

(** [np.zeros((3, 3))] *)
Definition zeros33 : Mat3 A :=
  mkMat3 (mkVec3 szero szero szero) (mkVec3 szero szero szero)
         (mkVec3 szero szero szero).

(** The arrays as [initialize_variables] declares them for [ny] nodes, all
    zero, with the scratch frame [self.T].  For [ny = 0] the shape [ny - 1]
    is negative and [np.zeros] raises. *)
Definition initialize_variables (ny : nat) : option (Store A) :=
  if decide (ny = 0) then None
  else Some (mkStore (replicate ny (mkVec3 szero szero szero))
                     (replicate (ny - 1) szero)
                     (replicate ny (mkVec6 szero szero szero szero szero szero))
                     zeros33
                     (replicate (ny - 1) (szero, szero))).
End Shapes.

(** The data of an element mapped datum by datum. *)
Definition map_elem {X Y : Type} (f : Vec3 X -> Vec3 Y) (g : X -> Y)
    (h : Vec6 X -> Vec6 Y) (e : Elem X) : Elem Y :=
  mkElem (f (eP0 e)) (f (eP1 e)) (g (erad e)) (h (ed0 e)) (h (ed1 e)).

(** The stress pair of an element of real data, as [compute] evaluates
    it. *)
Definition elem_stress (E G : R) (e : Elem R) : xreal * xreal :=
  stress_of (Some E) (Some G) (fin3 (eP0 e)) (fin3 (eP1 e)) (Some (erad e))
    (fin6 (ed0 e)) (fin6 (ed1 e)).

(** A stress pair multiplied by [k]. *)
Definition xscale2 (k : R) (p : xreal * xreal) : xreal * xreal :=
  (smul (Some k) p.1, smul (Some k) p.2).

(** [n] calls of the derivative operation in a row. *)
Fixpoint iterate_calls (call : Derivs -> option Derivs) (n : nat) (d : Derivs)
  : option Derivs :=
  match n with
  | 0 => Some d
  | S n' => d' ← call d; iterate_calls call n' d'
  end.

(** A local vector seen from the element traversed the other way: the local
    x and y axes point the other way, the local z axis is the same. *)
Definition flip3 (v : Vec3 R) : Vec3 R :=
  mkVec3 (-1 * vx v)%R (-1 * vy v)%R (vz v).

(** ** More sample data *)
Section MoreSamples.
Local Open Scope R_scope.

(** An output buffer longer than the beam needs. *)
Definition long_vonmises : list (xreal * xreal) :=
  [(Some 5, None); (None, Some 9); (Some 1, Some 2)].

(** The beam with its second element of radius zero. *)
Definition thin_radius : list R := [0.1; 0].

(** Compiled routines that return constant arrays of the shapes of the
    beam. *)
Definition const_backend_d :
  list (Vec3 R) -> list (Vec3 R) -> list R -> list R ->
  list (Vec6 R) -> list (Vec6 R) -> R -> R -> Vec3 R ->
  list (R * R) * list (R * R) :=
  fun _ _ _ _ _ _ _ _ _ => ([(0, 0); (0, 0)], [(1, 1); (2, 2)]).

Definition const_backend_b :
  list (Vec3 R) -> list R -> list (Vec6 R) -> R -> R -> Vec3 R ->
  list (R * R) -> list (R * R) ->
  list (Vec3 R) * list R * list (Vec6 R) :=
  fun _ _ _ _ _ _ _ _ =>
    ([mkVec3 1 1 1; mkVec3 1 1 1; mkVec3 1 1 1], [1; 1],
     [mkVec6 1 1 1 1 1 1; mkVec6 1 1 1 1 1 1; mkVec6 1 1 1 1 1 1]).
End MoreSamples.

(** * Properties *)

(** ** The loop, for any scalar type *)
Section LoopFacts.
Context {A : Type} `{Scalar A}.
Implicit Types (st : Store A) (vm : list (A * A)).

Lemma loop_body_spec (E G : A) (i : nat) st P0 P1 rad d0 d1 :
  element_at st i P0 P1 rad d0 d1 ->
  i < length (vonmises st) ->
  loop_body E G i st
  = Some (mkStore (nodes st) (radius st) (disp st) (frame_of P0 P1)
            (<[i := stress_of E G P0 P1 rad d0 d1]> (vonmises st))).
Proof.
  intros (HP0 & HP1 & Hr & Hd0 & Hd1) Hi.
  unfold loop_body. rewrite HP0, HP1. simpl.
  rewrite Hd0, Hd1, Hr. simpl.
  unfold Np.set_item2.
  destruct (lookup_lt_is_Some_2 (vonmises st) i Hi) as [p Hp].
  rewrite Hp. simpl.
  rewrite list_lookup_insert_eq by exact Hi. simpl.
  rewrite list_insert_insert_eq. reflexivity.
Qed.

Lemma element_at_exists (ny : nat) st (i : nat) :
  well_shaped ny st -> i < ny - 1 ->
  exists P0 P1 rad d0 d1, element_at st i P0 P1 rad d0 d1.
Proof.
  intros (Hn & Hr & Hd & _) Hi.
  destruct (lookup_lt_is_Some_2 (nodes st) i) as [P0 HP0]; [lia|].
  destruct (lookup_lt_is_Some_2 (nodes st) (i + 1)) as [P1 HP1]; [lia|].
  destruct (lookup_lt_is_Some_2 (radius st) i) as [rad Hrad]; [lia|].
  destruct (lookup_lt_is_Some_2 (disp st) i) as [d0 Hd0]; [lia|].
  destruct (lookup_lt_is_Some_2 (disp st) (i + 1)) as [d1 Hd1]; [lia|].
  by exists P0, P1, rad, d0, d1.
Qed.

Lemma for_range_spec (E G : A) (ny count : nat) :
  forall (start : nat) st,
    well_shaped ny st -> start + count = ny - 1 ->
    exists st',
      for_range (loop_body E G) start count st = Some st' /\
      nodes st' = nodes st /\ radius st' = radius st /\ disp st' = disp st /\
      length (vonmises st') = length (vonmises st) /\
      (forall i, i < start -> vonmises st' !! i = vonmises st !! i) /\
      (forall i P0 P1 rad d0 d1,
          start <= i -> element_at st i P0 P1 rad d0 d1 ->
          vonmises st' !! i = Some (stress_of E G P0 P1 rad d0 d1)).
Proof.
  induction count as [|count IH]; intros start st Hsh Hsum.
  - exists st. simpl. repeat split; try done.
    intros i P0 P1 rad d0 d1 Hle (_ & HP1 & _).
    apply lookup_lt_Some in HP1. destruct Hsh as (Hn & _). lia.
  - destruct (element_at_exists ny st start Hsh) as (P0 & P1 & rad & d0 & d1 & Hel);
      [lia|].
    assert (Hlt : start < length (vonmises st)).
    { destruct Hsh as (_ & _ & _ & Hv). lia. }
    simpl. rewrite (loop_body_spec E G start st P0 P1 rad d0 d1 Hel Hlt). simpl.
    set (st1 := mkStore _ _ _ _ _).
    assert (Hsh1 : well_shaped ny st1).
    { destruct Hsh as (? & ? & ? & ?). unfold well_shaped, st1; simpl.
      rewrite length_insert. done. }
    destruct (IH (S start) st1 Hsh1) as (st' & Hrun & Hn & Hr & Hd & Hlen & Hlow & Hhigh);
      [lia|].
    exists st'. split; [exact Hrun|].
    split; [by rewrite Hn|]. split; [by rewrite Hr|]. split; [by rewrite Hd|].
    split; [rewrite Hlen; unfold st1; simpl; by rewrite length_insert|].
    split.
    + intros i Hi. rewrite Hlow by lia. unfold st1; simpl.
      apply list_lookup_insert_ne. lia.
    + intros i Q0 Q1 rd e0 e1 Hle Hel'.
      destruct (decide (i = start)) as [->|Hne].
      * rewrite Hlow by lia. unfold st1; simpl.
        rewrite list_lookup_insert_eq by exact Hlt.
        destruct Hel as (a1 & a2 & a3 & a4 & a5).
        destruct Hel' as (b1 & b2 & b3 & b4 & b5).
        congruence.
      * apply Hhigh; [lia|]. exact Hel'.
Qed.

(** The pure-Python path of [compute] on arrays of the declared shapes:
    it returns, leaves the input arrays as they were and writes to row [i]
    of the output the stress pair of element [i], whatever [T] and
    [vonmises] held before. *)
Lemma compute_python cv (ny : nat) (E G : A) st :
  well_shaped ny st ->
  exists st',
    compute cv false ny E G st = Some st' /\
    nodes st' = nodes st /\ radius st' = radius st /\ disp st' = disp st /\
    length (vonmises st') = ny - 1 /\
    (forall i P0 P1 rad d0 d1,
        element_at st i P0 P1 rad d0 d1 ->
        vonmises st' !! i = Some (stress_of E G P0 P1 rad d0 d1)).
Proof.
  intros Hsh. unfold compute.
  destruct (for_range_spec E G ny (ny - 1) 0 st Hsh) as
    (st' & Hrun & Hn & Hr & Hd & Hlen & _ & Hhigh); [lia|].
  exists st'. repeat split; try done.
  - rewrite Hlen. by destruct Hsh as (_ & _ & _ & ?).
  - intros i P0 P1 rad d0 d1 Hel. apply Hhigh; [lia|exact Hel].
Qed.
End LoopFacts.
(** ** Real vectors *)
Section RealFacts.
Local Open Scope R_scope.

Lemma norm_R (v : Vec3 R) : Utils.norm v = sqrt (sumsq v).
Proof. reflexivity. Qed.

Lemma sumsq_nonneg v : 0 <= sumsq v.
Proof. unfold sumsq. nra. Qed.

Lemma norm_sq v : Utils.norm v * Utils.norm v = sumsq v.
Proof. rewrite norm_R. apply sqrt_def, sumsq_nonneg. Qed.

Lemma norm_nonneg v : 0 <= Utils.norm v.
Proof. rewrite norm_R. apply sqrt_pos. Qed.

Lemma norm_neq_0 v : v <> zero3 -> Utils.norm v <> 0.
Proof.
  intros Hv Hn. apply Hv.
  rewrite norm_R in Hn. apply sqrt_eq_0 in Hn; [|apply sumsq_nonneg].
  unfold sumsq in Hn. destruct v as [a b c]; simpl in *.
  assert (a = 0) by nra. assert (b = 0) by nra. assert (c = 0) by nra.
  subst. reflexivity.
Qed.

Lemma inner_div_r (a b : Vec3 R) (s : R) :
  Np.inner a (Np.div b s) = Np.inner a b / s.
Proof. unfold Np.inner, Np.div; simpl. unfold Rdiv. ring. Qed.

Lemma inner_div_l (a b : Vec3 R) (s : R) :
  Np.inner (Np.div a s) b = Np.inner a b / s.
Proof. unfold Np.inner, Np.div; simpl. unfold Rdiv. ring. Qed.

Lemma inner_self (v : Vec3 R) : Np.inner v v = sumsq v.
Proof. reflexivity. Qed.

Lemma inner_unit v : Utils.norm v <> 0 -> Np.inner (Utils.unit v) (Utils.unit v) = 1.
Proof.
  intros Hn. unfold Utils.unit. rewrite inner_div_r, inner_div_l, inner_self.
  rewrite <- norm_sq. field. exact Hn.
Qed.

Lemma norm_unit v : Utils.norm v <> 0 -> Utils.norm (Utils.unit v) = 1.
Proof.
  intros Hn. rewrite norm_R, <- inner_self, inner_unit by exact Hn. apply sqrt_1.
Qed.

Lemma inner_cross_l (a b : Vec3 R) : Np.inner a (Np.cross a b) = 0.
Proof. unfold Np.inner, Np.cross; simpl. ring. Qed.

Lemma inner_cross_r (a b : Vec3 R) : Np.inner b (Np.cross a b) = 0.
Proof. unfold Np.inner, Np.cross; simpl. ring. Qed.

Lemma lagrange (a b : Vec3 R) :
  sumsq (Np.cross a b) = sumsq a * sumsq b - Np.inner a b * Np.inner a b.
Proof. unfold sumsq, Np.inner, Np.cross; simpl. ring. Qed.

Lemma sub_eq_zero (P0 P1 : Vec3 R) : Np.sub P1 P0 = zero3 -> P0 = P1.
Proof.
  destruct P0, P1; unfold Np.sub, zero3; simpl. intros [= ? ? ?].
  f_equal; lra.
Qed.

Lemma not_parallel_yz (d : Vec3 R) :
  ~ parallel_x_gl d -> vy d <> 0 \/ vz d <> 0.
Proof.
  intros Hp. destruct (Req_dec_T (vy d) 0) as [Hy|Hy]; [|by left].
  destruct (Req_dec_T (vz d) 0) as [Hz|Hz]; [|by right].
  exfalso. apply Hp. unfold parallel_x_gl, Np.cross, zero3; simpl.
  rewrite Hy, Hz. f_equal; ring.
Qed.

Lemma sumsq_cross_x_gl (v : Vec3 R) :
  sumsq (Np.cross v x_gl) = vy v * vy v + vz v * vz v.
Proof. unfold sumsq, Np.cross; simpl. ring. Qed.

Lemma sumsq_cross_div (v : Vec3 R) (s : R) :
  sumsq (Np.cross (Np.div v s) x_gl)
  = vy v * / s * (vy v * / s) + vz v * / s * (vz v * / s).
Proof. unfold sumsq, Np.cross, Np.div; simpl. unfold Rdiv. ring. Qed.

Section WellPosed.
Variables P0 P1 : Vec3 R.
Hypothesis Hwp : well_posed P0 P1.

Let d := Np.sub P1 P0.
Let x := Utils.unit d.
Let y := Utils.unit (Np.cross x x_gl).
Let z := Utils.unit (Np.cross x y).

Lemma wp_length : Utils.norm d <> 0.
Proof using Hwp.
  apply norm_neq_0. intros Hz. destruct Hwp as [Hne _].
  apply Hne. by apply sub_eq_zero.
Qed.

Lemma wp_cross : Utils.norm (Np.cross x x_gl) <> 0.
Proof using Hwp.
  pose proof wp_length as HL.
  destruct Hwp as [_ Hnp]. apply not_parallel_yz in Hnp. fold d in Hnp.
  rewrite norm_R. intros H0. apply sqrt_eq_0 in H0; [|apply sumsq_nonneg].
  unfold x, Utils.unit in H0. rewrite sumsq_cross_div in H0.
  set (L := Utils.norm d) in *.
  assert (Hi : / L <> 0) by (apply Rinv_neq_0_compat; exact HL).
  assert (Hy : vy d * / L = 0) by nra.
  assert (Hz : vz d * / L = 0) by nra.
  apply Rmult_integral in Hy, Hz. tauto.
Qed.

Lemma wp_x_unit : Np.inner x x = 1.
Proof using Hwp. apply inner_unit, wp_length. Qed.

Lemma wp_y_unit : Np.inner y y = 1.
Proof using Hwp. apply inner_unit, wp_cross. Qed.

Lemma wp_xy : Np.inner x y = 0.
Proof using Hwp.
  unfold y, Utils.unit. rewrite inner_div_r, inner_cross_l. unfold Rdiv. ring.
Qed.

Lemma wp_cross2 : Utils.norm (Np.cross x y) = 1.
Proof using Hwp.
  rewrite norm_R, lagrange, <- !inner_self, wp_x_unit, wp_y_unit, wp_xy.
  replace (1 * 1 - 0 * 0) with 1 by ring. apply sqrt_1.
Qed.

Lemma wp_z_unit : Np.inner z z = 1.
Proof using Hwp. apply inner_unit. rewrite wp_cross2. lra. Qed.

Lemma wp_xz : Np.inner x z = 0.
Proof using Hwp.
  unfold z, Utils.unit. rewrite inner_div_r, inner_cross_l. unfold Rdiv. ring.
Qed.

Lemma wp_yz : Np.inner y z = 0.
Proof using Hwp.
  unfold z, Utils.unit. rewrite inner_div_r, inner_cross_r. unfold Rdiv. ring.
Qed.
End WellPosed.

Lemma xsqrt_fin (a : R) : 0 <= a -> ssqrt (Some a) = Some (sqrt a).
Proof. intros Ha. simpl. unfold xsqrt. destruct (Rlt_dec a 0); [lra|done]. Qed.

Lemma xsqrt_sumsq2 (a b : R) :
  ssqrt (Some (a * a + b * b)) = Some (sqrt (a * a + b * b)).
Proof. apply xsqrt_fin. nra. Qed.

Lemma xdiv_fin (a b : R) : b <> 0 -> sdiv (Some a) (Some b) = Some (a / b).
Proof. intros Hb. simpl. unfold xdiv. destruct (Req_dec_T b 0); done. Qed.

Lemma xdiv_by_zero (a : xreal) : sdiv a (Some 0) = None.
Proof. destruct a; simpl; [|done]. unfold xdiv. destruct (Req_dec_T 0 0); done. Qed.

Lemma xlift2_None_r f (a : xreal) : xlift2 f a None = None.
Proof. by destruct a. Qed.

Lemma norm_fin (v : Vec3 R) : Utils.norm (fin3 v) = Some (Utils.norm v).
Proof.
  unfold Utils.norm at 1. unfold Np.sum, Np.sq, ssq, fin3. cbn [vx vy vz].
  change (ssqrt (Some (sumsq v)) = Some (Utils.norm v)).
  rewrite xsqrt_fin by apply sumsq_nonneg. reflexivity.
Qed.

Lemma unit_fin (v : Vec3 R) :
  Utils.norm v <> 0 -> Utils.unit (fin3 v) = fin3 (Utils.unit v).
Proof.
  intros Hn. unfold Utils.unit at 1. rewrite norm_fin.
  unfold Np.div, fin3. cbn [vx vy vz]. rewrite !xdiv_fin by exact Hn. reflexivity.
Qed.

Lemma unit_fin_zero (v : Vec3 R) :
  Utils.norm v = 0 -> Utils.unit (fin3 v) = nan3.
Proof.
  intros Hn. unfold Utils.unit. rewrite norm_fin, Hn.
  unfold Np.div. rewrite !xdiv_by_zero. reflexivity.
Qed.

Lemma unit_nan3 : Utils.unit nan3 = nan3.
Proof. reflexivity. Qed.

Lemma sub_fin (a b : Vec3 R) : Np.sub (fin3 a) (fin3 b) = fin3 (Np.sub a b).
Proof. reflexivity. Qed.

Lemma cross_fin (a b : Vec3 R) : Np.cross (fin3 a) (fin3 b) = fin3 (Np.cross a b).
Proof. reflexivity. Qed.

Lemma cross_fin_x_gl (a : Vec3 R) :
  Np.cross (fin3 a) x_gl = fin3 (Np.cross a x_gl).
Proof. reflexivity. Qed.

Lemma dot_fin (m : Mat3 R) (v : Vec3 R) :
  Np.dot (fin_mat m) (fin3 v) = fin3 (Np.dot m v).
Proof. reflexivity. Qed.

Lemma first3_fin d : Np.first3 (fin6 d) = fin3 (Np.first3 d).
Proof. reflexivity. Qed.

Lemma last3_fin d : Np.last3 (fin6 d) = fin3 (Np.last3 d).
Proof. reflexivity. Qed.

Lemma frame_of_fin (P0 P1 : Vec3 R) :
  well_posed P0 P1 ->
  frame_of (fin3 P0) (fin3 P1) = fin_mat (frame_of P0 P1).
Proof.
  intros Hwp. unfold frame_of, frame_axis.
  rewrite sub_fin, (unit_fin _ (wp_length P0 P1 Hwp)).
  rewrite cross_fin_x_gl, (unit_fin _ (wp_cross P0 P1 Hwp)).
  rewrite cross_fin, unit_fin; [reflexivity|].
  rewrite (wp_cross2 P0 P1 Hwp). lra.
Qed.

Lemma xadd_fin (a b : R) : sadd (Some a) (Some b) = Some (a + b).
Proof. reflexivity. Qed.
Lemma xsub_fin (a b : R) : ssub (Some a) (Some b) = Some (a - b).
Proof. reflexivity. Qed.
Lemma xmul_fin (a b : R) : smul (Some a) (Some b) = Some (a * b).
Proof. reflexivity. Qed.
Lemma xsq_fin (a : R) : ssq (Some a) = Some (a * a).
Proof. reflexivity. Qed.

Lemma stress_local_fin (E G L rad : R) (u0 r0 u1 r1 : Vec3 R) :
  L <> 0 ->
  stress_local (Some E) (Some G) (Some L) (Some rad)
    (fin3 u0) (fin3 r0) (fin3 u1) (fin3 r1)
  = fin2 (stress_local E G L rad u0 r0 u1 r1).
Proof.
  intros HL. unfold stress_local, fin2, fin3. cbn [vx vy vz fst snd].
  rewrite !xsub_fin, !xmul_fin, !xsq_fin, !xadd_fin, xsqrt_sumsq2.
  rewrite !(xdiv_fin _ L HL), !xmul_fin, !xadd_fin, !xsq_fin, !xadd_fin.
  rewrite !xsqrt_sumsq2.
  reflexivity.
Qed.

Lemma stress_of_fin (E G : R) (P0 P1 : Vec3 R) (rad : R) (d0 d1 : Vec6 R) :
  well_posed P0 P1 ->
  stress_of (Some E) (Some G) (fin3 P0) (fin3 P1) (Some rad) (fin6 d0) (fin6 d1)
  = fin2 (stress_of E G P0 P1 rad d0 d1).
Proof.
  intros Hwp. unfold stress_of, stress_axis.
  fold (frame_of (fin3 P0) (fin3 P1)).
  rewrite (frame_of_fin _ _ Hwp), sub_fin, norm_fin, !first3_fin, !last3_fin, !dot_fin.
  apply stress_local_fin, (wp_length _ _ Hwp).
Qed.

Lemma pow2_mul (a : R) : a ^ 2 = a * a.
Proof. simpl. ring. Qed.

Lemma spec_norm3 v : Spec.norm3 v = Utils.norm v.
Proof. reflexivity. Qed.
Lemma spec_unit3 v : Spec.unit3 v = Utils.unit v.
Proof. reflexivity. Qed.
Lemma spec_diff3 a b : Spec.diff3 a b = Np.sub a b.
Proof. reflexivity. Qed.
Lemma spec_cross3 a b : Spec.cross3 a b = Np.cross a b.
Proof. reflexivity. Qed.
Lemma spec_dot3 a b : Spec.dot3 a b = Np.inner a b.
Proof. reflexivity. Qed.
Lemma spec_L P0 P1 : Spec.L P0 P1 = Utils.norm (Np.sub P1 P0).
Proof. reflexivity. Qed.
Lemma spec_x_loc P0 P1 : Spec.x_loc P0 P1 = row0 (frame_of P0 P1).
Proof. reflexivity. Qed.
Lemma spec_y_loc P0 P1 : Spec.y_loc P0 P1 = row1 (frame_of P0 P1).
Proof.
  unfold Spec.y_loc. rewrite spec_x_loc, spec_cross3, spec_unit3. reflexivity.
Qed.
Lemma spec_z_loc P0 P1 : Spec.z_loc P0 P1 = row2 (frame_of P0 P1).
Proof.
  unfold Spec.z_loc. rewrite spec_y_loc, spec_x_loc, spec_cross3, spec_unit3.
  reflexivity.
Qed.

Lemma stress_of_spec (E G : R) (P0 P1 : Vec3 R) (rad : R) (d0 d1 : Vec6 R) :
  stress_of E G P0 P1 rad d0 d1
  = (Spec.vonmises0 E G P0 P1 rad d0 d1, Spec.vonmises1 E G P0 P1 rad d0 d1).
Proof.
  unfold Spec.vonmises0, Spec.vonmises1, Spec.sigma0, Spec.sigma1, Spec.shear,
    Spec.bend. rewrite !pow2_mul.
  unfold Spec.u0x, Spec.u1x, Spec.r0x, Spec.r0y, Spec.r0z, Spec.r1x, Spec.r1y,
    Spec.r1z.
  rewrite !spec_dot3, spec_L, spec_x_loc, spec_y_loc, spec_z_loc.
  unfold stress_of, stress_axis, stress_local. fold (frame_of P0 P1).
  generalize (frame_of P0 P1) as Tm. intros Tm.
  generalize (Utils.norm (Np.sub P1 P0)) as L. intros L.
  reflexivity.
Qed.

Lemma parallel_yz (d : Vec3 R) : parallel_x_gl d -> vy d = 0 /\ vz d = 0.
Proof.
  unfold parallel_x_gl, Np.cross, zero3; simpl. intros [= _ Hz Hy]. lra.
Qed.

Lemma norm_zero3 : Utils.norm zero3 = 0.
Proof.
  rewrite norm_R. unfold sumsq, zero3; simpl.
  replace (0 * 0 + 0 * 0 + 0 * 0) with 0 by ring. apply sqrt_0.
Qed.

Lemma sub_diag (P : Vec3 R) : Np.sub P P = zero3.
Proof. unfold Np.sub, zero3; simpl. f_equal; ring. Qed.

Lemma cross_nan3_l (b : Vec3 xreal) : Np.cross nan3 b = nan3.
Proof. reflexivity. Qed.

Lemma cross_nan3_r (a : Vec3 xreal) : Np.cross a nan3 = nan3.
Proof.
  unfold Np.cross, nan3. cbn [vx vy vz]. simpl. by rewrite !xlift2_None_r.
Qed.

Lemma frame_degenerate (P0 P1 : Vec3 R) :
  degenerate P0 P1 ->
  row1 (frame_of (fin3 P0) (fin3 P1)) = nan3 /\
  row2 (frame_of (fin3 P0) (fin3 P1)) = nan3.
Proof.
  intros Hdeg. unfold frame_of, frame_axis. cbn [row1 row2]. rewrite sub_fin.
  set (d := Np.sub P1 P0).
  assert (Hy : Utils.unit (Np.cross (Utils.unit (fin3 d)) x_gl) = nan3).
  { destruct (Req_dec_T (Utils.norm d) 0) as [HL|HL].
    - rewrite (unit_fin_zero _ HL). reflexivity.
    - assert (Hpar : parallel_x_gl d).
      { destruct Hdeg as [->|Hp]; [|exact Hp].
        exfalso. apply HL. unfold d. rewrite sub_diag. apply norm_zero3. }
      apply parallel_yz in Hpar as [Hdy Hdz].
      rewrite (unit_fin _ HL), cross_fin_x_gl. apply unit_fin_zero.
      rewrite norm_R. unfold Utils.unit. rewrite sumsq_cross_div, Hdy, Hdz.
      replace (0 * / Utils.norm d * (0 * / Utils.norm d) +
               0 * / Utils.norm d * (0 * / Utils.norm d)) with 0 by ring.
      apply sqrt_0. }
  rewrite Hy, cross_nan3_r. split; reflexivity.
Qed.

Lemma stress_local_nan (E G L rad : xreal) (u0 r0 u1 r1 : Vec3 xreal) :
  vy r1 = None ->
  stress_local E G L rad u0 r0 u1 r1 = (None, None).
Proof.
  intros Hr. unfold stress_local. rewrite Hr. simpl.
  rewrite !xlift2_None_r. simpl. reflexivity.
Qed.

Lemma stress_of_degenerate (E G : xreal) (P0 P1 : Vec3 R) (rad : xreal)
    (d0 d1 : Vec6 xreal) :
  degenerate P0 P1 ->
  stress_of E G (fin3 P0) (fin3 P1) rad d0 d1 = (None, None).
Proof.
  intros Hdeg. unfold stress_of, stress_axis.
  fold (frame_of (fin3 P0) (fin3 P1)).
  apply stress_local_nan. unfold Np.dot. cbn [vy].
  destruct (frame_degenerate P0 P1 Hdeg) as [-> _]. reflexivity.
Qed.

Lemma dot_zero3 (Tm : Mat3 R) : Np.dot Tm zero3 = zero3.
Proof. unfold Np.dot, Np.inner, zero3; simpl. f_equal; ring. Qed.

Lemma sqrt_0_sq (a b : R) : a = 0 -> b = 0 -> sqrt (a * a + b * b) = 0.
Proof. intros -> ->. replace (0 * 0 + 0 * 0) with 0 by ring. apply sqrt_0. Qed.

Lemma stress_local_zero (E G L rad : R) :
  stress_local E G L rad zero3 zero3 zero3 zero3 = (0, 0).
Proof.
  unfold stress_local, zero3, ssq. cbn [vx vy vz]. simpl.
  rewrite (sqrt_0_sq (0 - 0) (0 - 0)) by ring.
  f_equal; apply sqrt_0_sq; unfold Rdiv; ring.
Qed.

Lemma stress_of_zero (E G : R) (P0 P1 : Vec3 R) (rad : R) :
  stress_of E G P0 P1 rad zero6 zero6 = (0, 0).
Proof.
  unfold stress_of, stress_axis.
  change (Np.first3 zero6) with zero3. change (Np.last3 zero6) with zero3.
  rewrite dot_zero3. apply stress_local_zero.
Qed.

Lemma inner_scale_r (a b : Vec3 R) (c : R) :
  Np.inner a (scale3 c b) = c * Np.inner a b.
Proof. unfold Np.inner, scale3; simpl. ring. Qed.

Lemma sqrt_sq_0 (a b : R) : 0 <= a -> b = 0 -> sqrt (a * a + b * b) = a.
Proof.
  intros Ha ->. replace (a * a + 0 * 0) with (a * a) by ring.
  by apply sqrt_square.
Qed.

Lemma sqrt_sq_0_neg (a b : R) : 0 <= a -> b = 0 -> sqrt (- a * - a + b * b) = a.
Proof.
  intros Ha ->. replace (- a * - a + 0 * 0) with (a * a) by ring.
  by apply sqrt_square.
Qed.

Lemma stress_local_axial (E G L rad c : R) (u1 : Vec3 R) :
  0 <= E * c / L -> vx u1 = c ->
  stress_local E G L rad zero3 zero3 u1 zero3 = (E * c / L, E * c / L).
Proof.
  intros Hpos Hc. unfold stress_local, zero3, ssq. cbn [vx vy vz]. simpl.
  rewrite Hc. rewrite (sqrt_0_sq (0 - 0) (0 - 0)) by ring.
  f_equal.
  - replace (E * (c - 0) / L + E * rad / L * 0) with (E * c / L)
      by (unfold Rdiv; ring).
    apply sqrt_sq_0; [exact Hpos|unfold Rdiv; ring].
  - replace (E * (0 - c) / L + E * rad / L * 0) with (- (E * c / L))
      by (unfold Rdiv; ring).
    apply sqrt_sq_0_neg; [exact Hpos|unfold Rdiv; ring].
Qed.

Lemma stress_of_axial (E G : R) (P0 P1 : Vec3 R) (rad c : R) :
  well_posed P0 P1 -> 0 <= E -> 0 <= c ->
  stress_of E G P0 P1 rad zero6 (axial_disp c P0 P1)
  = (E * c / Utils.norm (Np.sub P1 P0), E * c / Utils.norm (Np.sub P1 P0)).
Proof.
  intros Hwp HE Hc. unfold stress_of, stress_axis.
  change (Np.first3 zero6) with zero3. change (Np.last3 zero6) with zero3.
  change (Np.last3 (axial_disp c P0 P1)) with zero3.
  rewrite !dot_zero3.
  apply stress_local_axial.
  - pose proof (wp_length P0 P1 Hwp) as HL.
    pose proof (norm_nonneg (Np.sub P1 P0)) as HL0.
    apply Rmult_le_pos; [nra|]. left. apply Rinv_0_lt_compat. lra.
  - change (Np.first3 (axial_disp c P0 P1))
      with (scale3 c (Utils.unit (Np.sub P1 P0))).
    unfold Np.dot. cbn [vx]. unfold frame_axis. cbn [row0].
    rewrite inner_scale_r, (wp_x_unit P0 P1 Hwp). ring.
Qed.

Lemma scen_well_posed : well_posed scen_P0 scen_P1.
Proof.
  split.
  - intros [= H1]. lra.
  - unfold parallel_x_gl, Np.cross, Np.sub, zero3, scen_P0, scen_P1; simpl.
    intros [= _ H2 _]. lra.
Qed.

Lemma scen_length : Utils.norm (Np.sub scen_P1 scen_P0) = sqrt 2.
Proof.
  rewrite norm_R. f_equal. unfold sumsq, Np.sub, scen_P0, scen_P1; simpl. ring.
Qed.

Lemma scen_axial : scen_d1 = axial_disp 0.01 scen_P0 scen_P1.
Proof.
  unfold axial_disp, Utils.unit. rewrite scen_length.
  unfold scen_d1, Np.div, Np.sub, scen_P1, scen_P0; simpl.
  pose proof sqrt2_neq_0.
  f_equal; field; assumption.
Qed.

Lemma scen_stress :
  stress_of scen_E scen_G scen_P0 scen_P1 scen_radius zero6 scen_d1
  = (scen_E * 0.01 / sqrt 2, scen_E * 0.01 / sqrt 2).
Proof.
  rewrite scen_axial, stress_of_axial.
  - by rewrite scen_length.
  - exact scen_well_posed.
  - unfold scen_E. lra.
  - lra.
Qed.

(** Had the 0.01 been put in the global entry [disp[1, 0]] instead, the local
    axial displacement would be [0.01 / sqrt 2]. *)
Lemma scen_global_entry :
  Spec.u1x scen_P0 scen_P1 (mkVec6 0.01 0 0 0 0 0) = 0.01 / sqrt 2.
Proof.
  unfold Spec.u1x, Spec.x_loc. rewrite spec_dot3, spec_unit3, spec_diff3.
  unfold Utils.unit. rewrite scen_length.
  unfold Np.inner, Np.div, Np.sub, Np.first3, scen_P0, scen_P1; simpl.
  pose proof sqrt2_neq_0. field. assumption.
Qed.

End RealFacts.
(** ** The stress evaluation on real inputs *)
Section Evaluate.
Local Open Scope R_scope.
Implicit Types (nodesR : list (Vec3 R)) (radiusR : list R)
  (dispR : list (Vec6 R)) (Tini : Mat3 xreal) (buf : list (xreal * xreal)).

Lemma well_shaped_fin (ny : nat) nodesR radiusR dispR Tini buf :
  real_shapes ny nodesR radiusR dispR buf ->
  well_shaped ny (fin_store nodesR radiusR dispR Tini buf).
Proof.
  intros (Hn & Hr & Hd & Hv). unfold well_shaped, fin_store; simpl.
  by rewrite !length_fmap.
Qed.

Lemma element_at_fin nodesR radiusR dispR Tini buf (i : nat) P0 P1 rad d0 d1 :
  real_element nodesR radiusR dispR i P0 P1 rad d0 d1 ->
  element_at (fin_store nodesR radiusR dispR Tini buf) i
    (fin3 P0) (fin3 P1) (Some rad) (fin6 d0) (fin6 d1).
Proof.
  intros (HP0 & HP1 & Hr & Hd0 & Hd1). unfold element_at, fin_store; simpl.
  rewrite !list_lookup_fmap, HP0, HP1, Hr, Hd0, Hd1. done.
Qed.

Lemma frame_of_spec (P0 P1 : Vec3 R) :
  frame_of P0 P1
  = mkMat3 (Spec.x_loc P0 P1) (Spec.y_loc P0 P1) (Spec.z_loc P0 P1).
Proof. by rewrite spec_x_loc, spec_y_loc, spec_z_loc. Qed.

(** C1. For an element with well-posed geometry, [compute] returns and
    writes to its row of [vonmises] the two stresses of the closed-form
    formulas of the specification: [sqrt (sigma0^2 + shear^2)] and
    [sqrt (sigma1^2 + shear^2)], the shear term carrying no factor 3. *)
Theorem compute_closed_form cv (ny : nat) (E G : R) nodesR radiusR dispR Tini buf
    (i : nat) (P0 P1 : Vec3 R) (rad : R) (d0 d1 : Vec6 R) :
  real_shapes ny nodesR radiusR dispR buf ->
  real_element nodesR radiusR dispR i P0 P1 rad d0 d1 ->
  well_posed P0 P1 ->
  exists st',
    compute cv false ny (Some E) (Some G)
      (fin_store nodesR radiusR dispR Tini buf) = Some st' /\
    vonmises st' !! i
    = Some (Some (Spec.vonmises0 E G P0 P1 rad d0 d1),
            Some (Spec.vonmises1 E G P0 P1 rad d0 d1)).
Proof.
  intros Hsh Hel Hwp.
  destruct (compute_python cv ny (Some E) (Some G) _
              (well_shaped_fin ny _ _ _ Tini _ Hsh))
    as (st' & Hrun & _ & _ & _ & _ & Hrow).
  exists st'. split; [exact Hrun|].
  rewrite (Hrow i _ _ _ _ _ (element_at_fin _ _ _ Tini buf i _ _ _ _ _ Hel)).
  rewrite (stress_of_fin E G P0 P1 rad d0 d1 Hwp), stress_of_spec.
  reflexivity.
Qed.

(** C2. For an element with well-posed geometry, the iteration of the loop
    leaves in [T] the frame of the specification, whose rows have norm one
    and are pairwise orthogonal. *)
Theorem frame_orthonormal (E G : R) nodesR radiusR dispR Tini buf
    (i : nat) (P0 P1 : Vec3 R) (rad : R) (d0 d1 : Vec6 R) :
  real_element nodesR radiusR dispR i P0 P1 rad d0 d1 ->
  (i < length buf)%nat ->
  well_posed P0 P1 ->
  exists st',
    loop_body (Some E) (Some G) i (fin_store nodesR radiusR dispR Tini buf)
    = Some st' /\
    T st' = fin_mat (mkMat3 (Spec.x_loc P0 P1) (Spec.y_loc P0 P1)
                            (Spec.z_loc P0 P1)) /\
    Utils.norm (Spec.x_loc P0 P1) = 1 /\
    Utils.norm (Spec.y_loc P0 P1) = 1 /\
    Utils.norm (Spec.z_loc P0 P1) = 1 /\
    Np.inner (Spec.x_loc P0 P1) (Spec.y_loc P0 P1) = 0 /\
    Np.inner (Spec.x_loc P0 P1) (Spec.z_loc P0 P1) = 0 /\
    Np.inner (Spec.y_loc P0 P1) (Spec.z_loc P0 P1) = 0.
Proof.
  intros Hel Hi Hwp.
  rewrite (loop_body_spec (Some E) (Some G) i _ _ _ _ _ _
             (element_at_fin _ _ _ Tini buf i _ _ _ _ _ Hel) Hi).
  eexists. split; [reflexivity|]. cbn [T].
  rewrite (frame_of_fin P0 P1 Hwp), frame_of_spec.
  split; [reflexivity|].
  rewrite spec_x_loc, spec_y_loc, spec_z_loc.
  unfold frame_of, frame_axis. cbn [row0 row1 row2].
  repeat split.
  - apply norm_unit, (wp_length P0 P1 Hwp).
  - apply norm_unit, (wp_cross P0 P1 Hwp).
  - apply norm_unit. rewrite (wp_cross2 P0 P1 Hwp). lra.
  - apply (wp_xy P0 P1 Hwp).
  - apply (wp_xz P0 P1 Hwp).
  - apply (wp_yz P0 P1 Hwp).
Qed.

(** C3. On a geometry all of whose elements are well posed, displacements
    that are all zero give stresses that are all zero, whatever the
    radii. *)
Theorem zero_disp_zero_stress cv (ny : nat) (E G : R) nodesR radiusR Tini buf :
  real_shapes ny nodesR radiusR (replicate ny zero6) buf ->
  (forall (i : nat) P0 P1,
      nodesR !! i = Some P0 -> nodesR !! (i + 1)%nat = Some P1 ->
      well_posed P0 P1) ->
  exists st',
    compute cv false ny (Some E) (Some G)
      (fin_store nodesR radiusR (replicate ny zero6) Tini buf) = Some st' /\
    vonmises st' = replicate (ny - 1) (Some 0, Some 0).
Proof.
  intros Hsh Hgeo.
  pose proof (well_shaped_fin ny _ _ _ Tini _ Hsh) as Hws.
  destruct (compute_python cv ny (Some E) (Some G) _ Hws)
    as (st' & Hrun & _ & _ & _ & Hlen & Hrow).
  exists st'. split; [exact Hrun|].
  apply list_eq. intros i.
  destruct (decide (i < ny - 1)%nat) as [Hi|Hi].
  - destruct (element_at_exists ny _ i Hws Hi) as (Q0 & Q1 & q & e0 & e1 & Hel).
    rewrite (Hrow i _ _ _ _ _ Hel), lookup_replicate_2 by exact Hi.
    destruct Hel as (HQ0 & HQ1 & Hq & He0 & He1).
    unfold fin_store in HQ0, HQ1, Hq, He0, He1.
    cbn [nodes radius disp] in HQ0, HQ1, Hq, He0, He1.
    rewrite list_lookup_fmap in HQ0. rewrite list_lookup_fmap in HQ1.
    rewrite list_lookup_fmap in Hq. rewrite list_lookup_fmap in He0.
    rewrite list_lookup_fmap in He1.
    destruct (nodesR !! i) as [P0|] eqn:HP0; [|done].
    destruct (nodesR !! (i + 1)%nat) as [P1|] eqn:HP1; [|done].
    destruct (radiusR !! i) as [rad|] eqn:Hrad; [|done].
    rewrite lookup_replicate_2 in He0, He1 by lia.
    cbn [fmap option_fmap option_map] in HQ0, HQ1, Hq, He0, He1.
    injection HQ0 as <-. injection HQ1 as <-. injection Hq as <-.
    injection He0 as <-. injection He1 as <-.
    rewrite (stress_of_fin E G P0 P1 rad _ _ (Hgeo i P0 P1 HP0 HP1)).
    by rewrite stress_of_zero.
  - rewrite (lookup_ge_None_2 (vonmises st')) by lia.
    symmetry. apply lookup_replicate_None. lia.
Qed.

(** C4. Two nodes [(0,0,0)] and [(1,0,1)], radius 0.1, [E = 70e9],
    [G = 25e9], no displacement but node 1 moved along the axis so that its
    local axial displacement [u1x] is 0.01: both stresses are
    [E * 0.01 / sqrt 2]. *)
Theorem axial_stretch_scenario cv Tini (p : xreal * xreal) :
  Spec.u1x scen_P0 scen_P1 scen_d1 = 0.01 /\
  exists st',
    compute cv false 2 (Some scen_E) (Some scen_G)
      (fin_store [scen_P0; scen_P1] [scen_radius] [zero6; scen_d1] Tini [p])
    = Some st' /\
    vonmises st'
    = [(Some (scen_E * 0.01 / sqrt 2), Some (scen_E * 0.01 / sqrt 2))].
Proof.
  split.
  - unfold Spec.u1x. rewrite spec_dot3, spec_x_loc, scen_axial.
    change (Np.first3 (axial_disp 0.01 scen_P0 scen_P1))
      with (scale3 0.01 (Utils.unit (Np.sub scen_P1 scen_P0))).
    unfold frame_of, frame_axis. cbn [row0].
    rewrite inner_scale_r, (wp_x_unit _ _ scen_well_posed). ring.
  - assert (Hsh : real_shapes 2 [scen_P0; scen_P1] [scen_radius]
                    [zero6; scen_d1] [p]) by done.
    pose proof (well_shaped_fin 2 _ _ _ Tini _ Hsh) as Hws.
    destruct (compute_python cv 2 (Some scen_E) (Some scen_G) _ Hws)
      as (st' & Hrun & _ & _ & _ & Hlen & Hrow).
    exists st'. split; [exact Hrun|].
    assert (Hel : real_element [scen_P0; scen_P1] [scen_radius]
                    [zero6; scen_d1] 0 scen_P0 scen_P1 scen_radius
                    zero6 scen_d1) by done.
    specialize (Hrow 0%nat _ _ _ _ _ (element_at_fin _ _ _ Tini [p] 0 _ _ _ _ _ Hel)).
    rewrite (stress_of_fin _ _ _ _ _ _ _ scen_well_posed), scen_stress in Hrow.
    destruct (vonmises st') as [|q [|q' l]]; simpl in Hlen; try discriminate.
    simpl in Hrow. by injection Hrow as ->.
Qed.

(** C8. An element of zero length, or with its axis parallel to [x_gl],
    does not make [compute] raise: it returns, and both stresses of that
    element are non-finite. *)
Theorem degenerate_non_finite cv (ny : nat) (E G : R) nodesR radiusR dispR
    Tini buf (i : nat) (P0 P1 : Vec3 R) (rad : R) (d0 d1 : Vec6 R) :
  real_shapes ny nodesR radiusR dispR buf ->
  real_element nodesR radiusR dispR i P0 P1 rad d0 d1 ->
  degenerate P0 P1 ->
  exists st',
    compute cv false ny (Some E) (Some G)
      (fin_store nodesR radiusR dispR Tini buf) = Some st' /\
    vonmises st' !! i = Some (None, None).
Proof.
  intros Hsh Hel Hdeg.
  destruct (compute_python cv ny (Some E) (Some G) _
              (well_shaped_fin ny _ _ _ Tini _ Hsh))
    as (st' & Hrun & _ & _ & _ & _ & Hrow).
  exists st'. split; [exact Hrun|].
  rewrite (Hrow i _ _ _ _ _ (element_at_fin _ _ _ Tini buf i _ _ _ _ _ Hel)).
  by rewrite stress_of_degenerate.
Qed.
End Evaluate.
(** ** Independence of the elements, determinism *)
Section Independence.
Context {A : Type} `{Scalar A}.
Implicit Types (st : Store A).

(** Two runs on the same input arrays write the same stresses, whatever
    the scratch frame and the output buffer held before. *)
Lemma compute_python_same_inputs cv (ny : nat) (E G : A) st st' ru ru' :
  well_shaped ny st -> well_shaped ny st' ->
  nodes st = nodes st' -> radius st = radius st' -> disp st = disp st' ->
  compute cv false ny E G st = Some ru ->
  compute cv false ny E G st' = Some ru' ->
  vonmises ru = vonmises ru'.
Proof.
  intros Hsh Hsh' Hn Hr Hd Hrun Hrun'.
  destruct (compute_python cv ny E G st Hsh)
    as (r1 & Hr1 & _ & _ & _ & Hlen & Hrow).
  destruct (compute_python cv ny E G st' Hsh')
    as (r2 & Hr2 & _ & _ & _ & Hlen' & Hrow').
  rewrite Hrun in Hr1. rewrite Hrun' in Hr2.
  injection Hr1 as <-. injection Hr2 as <-.
  apply list_eq. intros i.
  destruct (decide (i < ny - 1)) as [Hi|Hi].
  - destruct (element_at_exists ny st i Hsh Hi) as (P0 & P1 & rad & d0 & d1 & Hel).
    rewrite (Hrow i _ _ _ _ _ Hel).
    symmetry. apply Hrow'. unfold element_at in *.
    by rewrite <- Hn, <- Hr, <- Hd.
  - rewrite !lookup_ge_None_2 by lia. done.
Qed.

(** C5. The stress pair of element [i] computed within the whole beam is the
    pair computed for the element alone, from its two nodes, its radius and
    their two displacements; and the content of the scratch frame [T] before
    the call has no influence on the stresses. *)
Theorem element_independent cv (ny : nat) (E G : A) st (i : nat)
    (P0 P1 : Vec3 A) (rad : A) (d0 d1 : Vec6 A)
    (Talone Tother : Mat3 A) (p : A * A) :
  well_shaped ny st ->
  element_at st i P0 P1 rad d0 d1 ->
  exists st' sta sto,
    compute cv false ny E G st = Some st' /\
    compute cv false 2 E G (mkStore [P0; P1] [rad] [d0; d1] Talone [p])
    = Some sta /\
    vonmises st' !! i = vonmises sta !! 0 /\
    compute cv false ny E G (set_T st Tother) = Some sto /\
    vonmises sto = vonmises st'.
Proof.
  intros Hsh Hel.
  destruct (compute_python cv ny E G st Hsh)
    as (st' & Hrun & _ & _ & _ & _ & Hrow).
  assert (Hsha : well_shaped 2 (mkStore [P0; P1] [rad] [d0; d1] Talone [p]))
    by done.
  destruct (compute_python cv 2 E G _ Hsha)
    as (sta & Hruna & _ & _ & _ & _ & Hrowa).
  assert (Hsho : well_shaped ny (set_T st Tother)) by exact Hsh.
  destruct (compute_python cv ny E G _ Hsho)
    as (sto & Hruno & _ & _ & _ & _ & _).
  exists st', sta, sto.
  split; [exact Hrun|]. split; [exact Hruna|]. split.
  - rewrite (Hrow i _ _ _ _ _ Hel). symmetry. by apply Hrowa.
  - split; [exact Hruno|].
    by apply (compute_python_same_inputs cv ny E G (set_T st Tother) st).
Qed.

(** C9. [compute] is a function of its input arrays: two calls on equal
    [nodes], [radius] and [disp] (and the same [E] and [G]) return equal
    [vonmises] arrays, and a call leaves the three input arrays as they
    were. *)
Theorem compute_deterministic_pure cv (ny : nat) (E G : A) st st' :
  well_shaped ny st -> well_shaped ny st' ->
  nodes st = nodes st' -> radius st = radius st' -> disp st = disp st' ->
  exists ru ru',
    compute cv false ny E G st = Some ru /\
    compute cv false ny E G st' = Some ru' /\
    vonmises ru = vonmises ru' /\
    (nodes ru = nodes st /\ radius ru = radius st /\ disp ru = disp st) /\
    (nodes ru' = nodes st' /\ radius ru' = radius st' /\ disp ru' = disp st').
Proof.
  intros Hsh Hsh' Hn Hr Hd.
  destruct (compute_python cv ny E G st Hsh)
    as (ru & Hrun & Hn1 & Hr1 & Hd1 & _ & _).
  destruct (compute_python cv ny E G st' Hsh')
    as (ru' & Hrun' & Hn2 & Hr2 & Hd2 & _ & _).
  exists ru, ru'. split; [exact Hrun|]. split; [exact Hrun'|].
  split; [|done].
  by apply (compute_python_same_inputs cv ny E G st st').
Qed.
End Independence.
(** ** The derivative operation *)
Section JacVecFacts.
Local Open Scope R_scope.
Variable cd :
  list (Vec3 R) -> list (Vec3 R) -> list R -> list R ->
  list (Vec6 R) -> list (Vec6 R) -> R -> R -> Vec3 R ->
  list (R * R) * list (R * R).
Variable cb :
  list (Vec3 R) -> list R -> list (Vec6 R) -> R -> R -> Vec3 R ->
  list (R * R) -> list (R * R) ->
  list (Vec3 R) * list R * list (Vec6 R).

Lemma zip_with_twice {X : Type} (f : X -> X -> X) (g : X -> X) :
  (forall x y, f (f x y) y = f x (g y)) ->
  forall a c : list X, zip_with f (zip_with f a c) c = zip_with f a (g <$> c).
Proof.
  intros Hfg a. induction a as [|x a IH]; intros [|y c]; simpl; try done.
  by rewrite Hfg, IH.
Qed.

Lemma iadd_same_length {X : Type} (f : X -> X -> X) (a c : list X) :
  length a = length c -> iadd f a c = Some (zip_with f a c).
Proof. intros Hl. unfold iadd. by rewrite decide_True. Qed.

Lemma iadd_twice {X : Type} (f : X -> X -> X) (g : X -> X) (a c : list X) :
  (forall x y, f (f x y) y = f x (g y)) ->
  length a = length c ->
  (a' ← iadd f a c; iadd f a' c) = Some (zip_with f a (g <$> c)).
Proof.
  intros Hfg Hl. rewrite (iadd_same_length f a c Hl). simpl.
  rewrite iadd_same_length.
  - by rewrite (zip_with_twice f g Hfg).
  - rewrite length_zip_with. lia.
Qed.

Lemma add2_twice (p q : R * R) : add2 (add2 p q) q = add2 p (scale2 2 q).
Proof. unfold add2, scale2; simpl. f_equal; ring. Qed.

Lemma add3_twice (a b : Vec3 R) : add3 (add3 a b) b = add3 a (scale3 2 b).
Proof. unfold add3, scale3; simpl. f_equal; ring. Qed.

Lemma add6_twice (a b : Vec6 R) : add6 (add6 a b) b = add6 a (scale6 2 b).
Proof. unfold add6, scale6; simpl. f_equal; ring. Qed.

Lemma Rplus_twice (a b : R) : a + b + b = a + 2 * b.
Proof. ring. Qed.

(** C6. Both modes add into the accumulators: the shapes of the arrays
    agreeing, two calls with the same seed leave the accumulators at their
    former content plus twice what one call adds. *)
Theorem jacvec_accumulates (E G : R) (inputs : Inputs) (outputs : Outputs)
    (d : Derivs) :
  length (d_vonmises d) = length (fwd_contribution cd E G inputs d) ->
  length (d_nodes d) = length (rev_contribution cb E G inputs outputs d).1.1 ->
  length (d_radius d) = length (rev_contribution cb E G inputs outputs d).1.2 ->
  length (d_disp d) = length (rev_contribution cb E G inputs outputs d).2 ->
  (d' ← compute_jacvec_product cd cb E G inputs outputs "fwd" d;
   compute_jacvec_product cd cb E G inputs outputs "fwd" d')
  = Some (mkDerivs (d_nodes d) (d_radius d) (d_disp d)
            (zip_with add2 (d_vonmises d)
               (scale2 2 <$> fwd_contribution cd E G inputs d))) /\
  (d' ← compute_jacvec_product cd cb E G inputs outputs "rev" d;
   compute_jacvec_product cd cb E G inputs outputs "rev" d')
  = Some (mkDerivs
            (zip_with add3 (d_nodes d)
               (scale3 2 <$> (rev_contribution cb E G inputs outputs d).1.1))
            (zip_with Rplus (d_radius d)
               (Rmult 2 <$> (rev_contribution cb E G inputs outputs d).1.2))
            (zip_with add6 (d_disp d)
               (scale6 2 <$> (rev_contribution cb E G inputs outputs d).2))
            (d_vonmises d)).
Proof.
  intros Hl Hn Hr Hq. split.
  - unfold compute_jacvec_product. cbn [String.eqb Ascii.eqb Bool.eqb].
    fold (fwd_contribution cd E G inputs d).
    rewrite (iadd_same_length add2 _ _ Hl).
    cbn [mbind option_bind d_nodes d_radius d_disp d_vonmises].
    fold (fwd_contribution cd E G inputs d).
    rewrite iadd_same_length by (rewrite length_zip_with; lia).
    cbn [mbind option_bind d_nodes d_radius d_disp d_vonmises].
    by rewrite (zip_with_twice add2 (scale2 2) add2_twice).
  - unfold compute_jacvec_product.
    cbn [String.eqb Ascii.eqb Bool.eqb mbind option_bind].
    fold (rev_contribution cb E G inputs outputs d).
    set (b := rev_contribution cb E G inputs outputs d) in *.
    rewrite (iadd_same_length add3 _ _ Hn).
    rewrite (iadd_same_length Rplus _ _ Hr).
    rewrite (iadd_same_length add6 _ _ Hq).
    cbn [mbind option_bind d_nodes d_radius d_disp d_vonmises].
    fold (rev_contribution cb E G inputs outputs d). fold b.
    rewrite !iadd_same_length by (rewrite length_zip_with; lia).
    cbn [mbind option_bind].
    rewrite (zip_with_twice add3 (scale3 2) add3_twice).
    rewrite (zip_with_twice Rplus (Rmult 2) Rplus_twice).
    by rewrite (zip_with_twice add6 (scale6 2) add6_twice).
Qed.

(** C10. The derivative operation reads only the real parts of [nodes],
    [radius], [disp] and [vonmises]: inputs and outputs that agree on their
    real parts give, for the same seeds and accumulators, the same
    contributions and the same result. *)
Theorem jacvec_real_parts (E G : R) (inputs inputs' : Inputs)
    (outputs outputs' : Outputs) (mode : string) (d : Derivs) :
  real3 <$> in_nodes inputs = real3 <$> in_nodes inputs' ->
  real <$> in_radius inputs = real <$> in_radius inputs' ->
  real6 <$> in_disp inputs = real6 <$> in_disp inputs' ->
  real2 <$> out_vonmises outputs = real2 <$> out_vonmises outputs' ->
  fwd_contribution cd E G inputs d = fwd_contribution cd E G inputs' d /\
  rev_contribution cb E G inputs outputs d
  = rev_contribution cb E G inputs' outputs' d /\
  compute_jacvec_product cd cb E G inputs outputs mode d
  = compute_jacvec_product cd cb E G inputs' outputs' mode d.
Proof.
  intros Hn Hr Hd Hv.
  unfold fwd_contribution, rev_contribution, compute_jacvec_product.
  rewrite Hn, Hr, Hd, Hv. done.
Qed.
End JacVecFacts.
(** ** Maps that commute with the scalar operations *)
Section HomFacts.
Context {A B : Type} {HA : Scalar A} {HB : Scalar B}.
Variable h : A -> B.
Hypothesis Hh : scalar_hom h.

Ltac push_hom :=
  repeat first
    [ rewrite (hom_sqrt h Hh) | rewrite (hom_add h Hh) | rewrite (hom_sub h Hh)
    | rewrite (hom_mul h Hh) | rewrite (hom_div h Hh) ].

Lemma hom_x_gl : map3 h x_gl = x_gl.
Proof using Hh.
  unfold map3, x_gl. cbn [vx vy vz]. by rewrite (hom_zero h Hh), (hom_one h Hh).
Qed.

Lemma hom_sub3 (a b : Vec3 A) :
  map3 h (Np.sub a b) = Np.sub (map3 h a) (map3 h b).
Proof using Hh. unfold map3, Np.sub. cbn [vx vy vz]. by push_hom. Qed.

Lemma hom_cross (a b : Vec3 A) :
  map3 h (Np.cross a b) = Np.cross (map3 h a) (map3 h b).
Proof using Hh. unfold map3, Np.cross. cbn [vx vy vz]. by push_hom. Qed.

Lemma hom_norm (v : Vec3 A) : h (Utils.norm v) = Utils.norm (map3 h v).
Proof using Hh.
  unfold Utils.norm, Np.sum, Np.sq, ssq, map3. cbn [vx vy vz]. by push_hom.
Qed.

Lemma hom_unit (v : Vec3 A) : map3 h (Utils.unit v) = Utils.unit (map3 h v).
Proof using Hh.
  unfold Utils.unit, Np.div. rewrite <- hom_norm.
  unfold map3. cbn [vx vy vz]. by push_hom.
Qed.

Lemma hom_dot (m : Mat3 A) (v : Vec3 A) :
  map3 h (Np.dot m v) = Np.dot (map_mat h m) (map3 h v).
Proof using Hh.
  unfold Np.dot, Np.inner, map_mat, map3. cbn [vx vy vz row0 row1 row2].
  by push_hom.
Qed.

Lemma hom_first3 (d : Vec6 A) : map3 h (Np.first3 d) = Np.first3 (map6 h d).
Proof. reflexivity. Qed.

Lemma hom_last3 (d : Vec6 A) : map3 h (Np.last3 d) = Np.last3 (map6 h d).
Proof. reflexivity. Qed.

Lemma hom_frame_axis (xg P0 P1 : Vec3 A) :
  map_mat h (frame_axis xg P0 P1)
  = frame_axis (map3 h xg) (map3 h P0) (map3 h P1).
Proof using Hh.
  unfold frame_axis, map_mat. cbn [row0 row1 row2].
  by rewrite !hom_unit, !hom_cross, !hom_unit, !hom_cross, !hom_unit, !hom_sub3.
Qed.

Lemma hom_stress_local (E G L rad : A) (u0 r0 u1 r1 : Vec3 A) :
  map2 h (stress_local E G L rad u0 r0 u1 r1)
  = stress_local (h E) (h G) (h L) (h rad)
      (map3 h u0) (map3 h r0) (map3 h u1) (map3 h r1).
Proof using Hh.
  unfold stress_local, ssq, map2, map3. cbn [vx vy vz fst snd]. by push_hom.
Qed.

(** The stress pair commutes with the map. *)
Lemma hom_stress_axis (xg : Vec3 A) (E G : A) (P0 P1 : Vec3 A) (rad : A)
    (d0 d1 : Vec6 A) :
  map2 h (stress_axis xg E G P0 P1 rad d0 d1)
  = stress_axis (map3 h xg) (h E) (h G) (map3 h P0) (map3 h P1) (h rad)
      (map6 h d0) (map6 h d1).
Proof using Hh.
  unfold stress_axis.
  by rewrite hom_stress_local, hom_norm, hom_sub3, !hom_dot, hom_frame_axis,
    !hom_first3, !hom_last3.
Qed.
End HomFacts.
(** ** Tangents and gradients *)
Section TangentFacts.
Local Open Scope R_scope.

(** A linear map on tangents commutes with the differentiation rules. *)
Lemma map_tangent_hom {V W : Type} `{VSpace V} `{VSpace W} (f : V -> W) :
  linear f -> scalar_hom (map_tangent f).
Proof.
  intros Hf. split; unfold map_tangent; cbn [szero sone sadd ssub smul sdiv ssqrt
    tangent_scalar fst snd]; intros;
    rewrite ?(lin_add f Hf), ?(lin_scale f Hf), ?(lin_add f Hf),
      ?(lin_scale f Hf), ?(lin_zero f Hf); reflexivity.
Qed.

Lemma inner_add3_r (a b c : Vec3 R) :
  Np.inner a (add3 b c) = Np.inner a b + Np.inner a c.
Proof. unfold Np.inner, add3; simpl. ring. Qed.

Lemma inner6_add6_r (a b c : Vec6 R) :
  inner6 a (add6 b c) = inner6 a b + inner6 a c.
Proof. unfold inner6, add6; simpl. ring. Qed.

Lemma inner6_scale_r (a b : Vec6 R) (k : R) :
  inner6 a (scale6 k b) = k * inner6 a b.
Proof. unfold inner6, scale6; simpl. ring. Qed.

Lemma inner_zero3_r (a : Vec3 R) : Np.inner a zero3 = 0.
Proof. unfold Np.inner, zero3; simpl. ring. Qed.

Lemma inner6_zero6_r (a : Vec6 R) : inner6 a zero6 = 0.
Proof. unfold inner6, zero6; simpl. ring. Qed.

(** The inner product with a seed is linear in the gradient. *)
Lemma ginner_linear (s : Elem R) : linear (ginner s).
Proof.
  split.
  - unfold ginner. cbn [vzero grad_vspace R_vspace eP0 eP1 erad ed0 ed1].
    rewrite !inner_zero3_r, !inner6_zero6_r. ring.
  - intros g g'. unfold ginner.
    cbn [vadd grad_vspace R_vspace eP0 eP1 erad ed0 ed1].
    rewrite !inner_add3_r, !inner6_add6_r. ring.
  - intros k g. unfold ginner.
    cbn [vscale grad_vspace R_vspace eP0 eP1 erad ed0 ed1].
    rewrite !inner_scale_r, !inner6_scale_r. ring.
Qed.

Lemma const_map_tangent {V W : Type} `{VSpace V} `{VSpace W} (f : V -> W)
    (c : R) :
  linear f -> map_tangent f (const c) = const c.
Proof. intros Hf. unfold map_tangent, const; simpl. by rewrite (lin_zero f Hf). Qed.

Lemma const3_map_tangent {V W : Type} `{VSpace V} `{VSpace W} (f : V -> W)
    (v : Vec3 R) :
  linear f -> map3 (map_tangent f) (const3 v) = const3 v.
Proof.
  intros Hf. unfold map3, const3. cbn [vx vy vz].
  by rewrite !(const_map_tangent f _ Hf).
Qed.

(** The seed is recovered from the unit gradients. *)
Lemma basis_P0 (s : Elem R) (v : Vec3 R) :
  map3 (map_tangent (ginner s)) (with_tangent3 v (basis3 grad_P0))
  = with_tangent3 v (eP0 s).
Proof.
  unfold map3, with_tangent3, basis3, map_tangent, ginner, grad_P0.
  cbn [vx vy vz fst snd eP0 eP1 erad ed0 ed1].
  rewrite !inner_zero3_r, !inner6_zero6_r.
  unfold Np.inner; simpl. f_equal; f_equal; ring.
Qed.

Lemma basis_P1 (s : Elem R) (v : Vec3 R) :
  map3 (map_tangent (ginner s)) (with_tangent3 v (basis3 grad_P1))
  = with_tangent3 v (eP1 s).
Proof.
  unfold map3, with_tangent3, basis3, map_tangent, ginner, grad_P1.
  cbn [vx vy vz fst snd eP0 eP1 erad ed0 ed1].
  rewrite !inner_zero3_r, !inner6_zero6_r.
  unfold Np.inner; simpl. f_equal; f_equal; ring.
Qed.

Lemma basis_rad (s : Elem R) (r : R) :
  map_tangent (ginner s) (r, grad_rad) = (r, erad s).
Proof.
  unfold map_tangent, ginner, grad_rad.
  cbn [fst snd eP0 eP1 erad ed0 ed1].
  rewrite !inner_zero3_r, !inner6_zero6_r. f_equal. ring.
Qed.

Lemma basis_d0 (s : Elem R) (d : Vec6 R) :
  map6 (map_tangent (ginner s)) (with_tangent6 d (basis6 grad_d0))
  = with_tangent6 d (ed0 s).
Proof.
  unfold map6, with_tangent6, basis6, map_tangent, ginner, grad_d0.
  cbn [c0 c1 c2 c3 c4 c5 fst snd eP0 eP1 erad ed0 ed1].
  rewrite !inner_zero3_r, !inner6_zero6_r.
  unfold inner6; simpl. f_equal; f_equal; ring.
Qed.

Lemma basis_d1 (s : Elem R) (d : Vec6 R) :
  map6 (map_tangent (ginner s)) (with_tangent6 d (basis6 grad_d1))
  = with_tangent6 d (ed1 s).
Proof.
  unfold map6, with_tangent6, basis6, map_tangent, ginner, grad_d1.
  cbn [c0 c1 c2 c3 c4 c5 fst snd eP0 eP1 erad ed0 ed1].
  rewrite !inner_zero3_r, !inner6_zero6_r.
  unfold inner6; simpl. f_equal; f_equal; ring.
Qed.

(** The directional derivative along a seed is the inner product of the
    seed with the gradient. *)
Lemma elem_stress_t_gradient (xg : Vec3 R) (E G : R) (e s : Elem R) :
  elem_stress_t xg E G e s
  = map2 (map_tangent (ginner s)) (elem_stress_t xg E G e basis).
Proof.
  pose proof (ginner_linear s) as Hlin.
  unfold elem_stress_t.
  rewrite (hom_stress_axis _ (map_tangent_hom _ Hlin)).
  rewrite (const3_map_tangent _ _ Hlin), !(const_map_tangent _ _ Hlin).
  unfold basis at 1 2 3 4 5. cbn [eP0 eP1 erad ed0 ed1].
  by rewrite basis_P0, basis_P1, basis_rad, basis_d0, basis_d1.
Qed.

(** The values carried along with the tangents are those of [compute]. *)
Lemma fst_hom {V : Type} `{VSpace V} : scalar_hom (fst : R * V -> R).
Proof. split; reflexivity. Qed.

Lemma elem_stress_t_value {V : Type} `{VSpace V} (xg : Vec3 R) (E G : R)
    (e : Elem R) (t : Elem V) :
  map2 fst (elem_stress_t xg E G e t)
  = stress_axis xg E G (eP0 e) (eP1 e) (erad e) (ed0 e) (ed1 e).
Proof.
  unfold elem_stress_t. rewrite (hom_stress_axis _ fst_hom).
  destruct e as [[] [] ? [] []], xg. reflexivity.
Qed.

(** One element: the seed on the stresses against the tangent of the
    stresses is the seed on the data against the adjoint. *)
Lemma elem_adjoint (xg : Vec3 R) (E G : R) (e s : Elem R) (sb : R * R) :
  inner2 sb (map2 snd (elem_stress_t xg E G e s))
  = ginner s (elem_b xg E G e sb).
Proof.
  pose proof (ginner_linear s) as Hlin.
  rewrite elem_stress_t_gradient. unfold elem_b.
  rewrite (lin_add _ Hlin), !(lin_scale _ Hlin).
  unfold inner2, map2, map_tangent. cbn [fst snd vadd vscale R_vspace].
  reflexivity.
Qed.
End TangentFacts.
(** ** The derivative routines on whole arrays *)
Section AdjointFacts.
Local Open Scope R_scope.

Lemma elements_cons {X : Type} (P0 P1 : Vec3 X) ns (r : X) rs
    (d0 d1 : Vec6 X) ds :
  elements (P0 :: P1 :: ns) (r :: rs) (d0 :: d1 :: ds)
  = mkElem P0 P1 r d0 d1 :: elements (P1 :: ns) rs (d1 :: ds).
Proof. reflexivity. Qed.

Lemma length_elements {X : Type} (n : nat) :
  forall (nodes : list (Vec3 X)) (radius : list X) (disp : list (Vec6 X)),
    length nodes = S n -> length radius = n -> length disp = S n ->
    length (elements nodes radius disp) = n.
Proof.
  induction n as [|n IH]; intros nodes radius disp Hn Hr Hd.
  - destruct nodes as [|P0 [|P1 ns]]; try discriminate.
    destruct radius; try discriminate.
    by destruct disp.
  - destruct nodes as [|P0 [|P1 ns]]; try discriminate.
    destruct radius as [|r rs]; try discriminate.
    destruct disp as [|d0 [|d1 ds]]; try discriminate.
    rewrite elements_cons. cbn [length]. f_equal.
    apply IH; simpl in *; lia.
Qed.

(** The first result of the forward routine is the array of stresses that
    [compute] writes. *)
Lemma forward_model_stresses (E G : R) :
  forall (es ss : list (Elem R)),
    length ss = length es ->
    (fun p : (R * R) * (R * R) => (p.1.1, p.2.1))
      <$> zip_with (elem_stress_t x_gl E G) es ss
    = (fun e => stress_of E G (eP0 e) (eP1 e) (erad e) (ed0 e) (ed1 e)) <$> es.
Proof.
  induction es as [|e es IH]; intros [|s ss] Hl; try discriminate; [done|].
  cbn [zip_with fmap list_fmap].
  rewrite IH by (simpl in Hl; lia).
  change (elem_stress_t x_gl E G e s).1.1
    with (map2 fst (elem_stress_t x_gl E G e s)).1.
  change (elem_stress_t x_gl E G e s).2.1
    with (map2 fst (elem_stress_t x_gl E G e s)).2.
  rewrite (elem_stress_t_value x_gl E G e s).
  by rewrite <- surjective_pairing.
Qed.

(** Element by element, the forward and the reverse routine are adjoint. *)
Lemma elements_adjoint (xg : Vec3 R) (E G : R) :
  forall (es ss : list (Elem R)) (sb : list (R * R)),
    foldr Rplus 0
      (zip_with inner2 sb
         ((fun p => (p.1.2, p.2.2)) <$> zip_with (elem_stress_t xg E G) es ss))
    = foldr Rplus 0 (zip_with ginner ss (zip_with (elem_b xg E G) es sb)).
Proof.
  induction es as [|e es IH]; intros ss sb.
  - simpl. by destruct sb, ss.
  - destruct ss as [|s ss]; [by destruct sb|].
    destruct sb as [|b sb]; [done|].
    cbn [zip_with fmap list_fmap foldr]. rewrite IH. f_equal.
    apply (elem_adjoint xg E G e s b).
Qed.

Lemma dot_list_cons {X : Type} (ip : X -> X -> R) (x y : X) (l k : list X) :
  dot_list ip (x :: l) (y :: k) = ip x y + dot_list ip l k.
Proof. reflexivity. Qed.

(** Gathering the seeds of the two nodes of every element against its
    adjoint is the same as scattering the adjoints to the nodes. *)
Lemma scatter_gather :
  forall (eb : list (Elem R)) (n0 : Vec3 R) (ns : list (Vec3 R))
         (rs : list R) (q0 : Vec6 R) (qs : list (Vec6 R))
         (carry3 : Vec3 R) (carry6 : Vec6 R),
    length ns = length eb -> length rs = length eb -> length qs = length eb ->
    dot_list Np.inner (n0 :: ns) (scatter_nodes carry3 eb)
    + dot_list Rmult rs (erad <$> eb)
    + dot_list inner6 (q0 :: qs) (scatter_disp carry6 eb)
    = Np.inner n0 carry3 + inner6 q0 carry6
      + foldr Rplus 0 (zip_with ginner (elements (n0 :: ns) rs (q0 :: qs)) eb).
Proof.
  induction eb as [|b eb IH]; intros n0 ns rs q0 qs carry3 carry6 Hn Hr Hq.
  - destruct ns; [|discriminate]. destruct rs; [|discriminate].
    destruct qs; [|discriminate].
    unfold dot_list; simpl. ring.
  - destruct ns as [|n1 ns]; [discriminate|].
    destruct rs as [|r rs]; [discriminate|].
    destruct qs as [|q1 qs]; [discriminate|].
    simpl in Hn, Hr, Hq.
    specialize (IH n1 ns rs q1 qs (eP1 b) (ed1 b)
                  ltac:(lia) ltac:(lia) ltac:(lia)).
    rewrite elements_cons.
    cbn [scatter_nodes scatter_disp fmap list_fmap].
    fold (dot_list ginner (elements (n1 :: ns) rs (q1 :: qs)) eb) in IH.
    fold (dot_list ginner
            (mkElem n0 n1 r q0 q1 :: elements (n1 :: ns) rs (q1 :: qs))
            (b :: eb)).
    rewrite !dot_list_cons.
    rewrite inner_add3_r, inner6_add6_r.
    unfold ginner at 1. cbn [eP0 eP1 erad ed0 ed1].
    lra.
Qed.

(** C7. The reverse routine is the adjoint of the forward routine: the seed
    on the stresses against the tangent of the stresses equals the seeds on
    [nodes], [radius] and [disp] against their adjoints. *)
Theorem reverse_is_adjoint (ny : nat) (E G : R) (xg : Vec3 R)
    (nodes s_nodes : list (Vec3 R)) (radius s_radius : list R)
    (disp s_disp : list (Vec6 R)) (vm s_out : list (R * R)) :
  length nodes = ny -> length radius = (ny - 1)%nat -> length disp = ny ->
  length s_nodes = ny -> length s_radius = (ny - 1)%nat ->
  length s_disp = ny -> length s_out = (ny - 1)%nat ->
  dot_list inner2 s_out
    (calc_vonmises_d_model nodes s_nodes radius s_radius disp s_disp E G xg).2
  = dot_list Np.inner s_nodes
      (calc_vonmises_b_model nodes radius disp E G xg vm s_out).1.1
    + dot_list Rmult s_radius
        (calc_vonmises_b_model nodes radius disp E G xg vm s_out).1.2
    + dot_list inner6 s_disp
        (calc_vonmises_b_model nodes radius disp E G xg vm s_out).2.
Proof.
  intros Hn Hr Hd Hsn Hsr Hsd Hso.
  unfold calc_vonmises_d_model, calc_vonmises_b_model. cbn [fst snd].
  unfold dot_list at 1. rewrite elements_adjoint.
  destruct ny as [|n].
  - destruct nodes; [|discriminate]. destruct s_nodes; [|discriminate].
    destruct s_radius; [|discriminate]. destruct s_disp; [|discriminate].
    unfold dot_list; simpl. ring.
  - replace (S n - 1)%nat with n in * by lia.
    destruct nodes as [|P0 ns]; [discriminate|].
    destruct disp as [|d0 ds]; [discriminate|].
    destruct s_nodes as [|n0 sn]; [discriminate|].
    destruct s_disp as [|q0 sq]; [discriminate|].
    set (eb := zip_with (elem_b xg E G) (elements (P0 :: ns) radius (d0 :: ds))
                 s_out).
    assert (Hlen : length eb = n).
    { unfold eb. rewrite length_zip_with, (length_elements n) by done. lia. }
    simpl in Hsn, Hsd.
    rewrite (scatter_gather eb n0 sn s_radius q0 sq zero3 zero6)
      by lia.
    rewrite inner_zero3_r, inner6_zero6_r. ring.
Qed.
End AdjointFacts.
(** ** The theorems at sample data *)
Section Witnesses.
Local Open Scope R_scope.

Ltac solve_well_posed :=
  split;
  [ intros Heq; injection Heq; intros; lra
  | unfold parallel_x_gl, Np.cross, Np.sub, zero3; simpl;
    intros Heq; injection Heq; intros; lra ].

Lemma compute_closed_form_witness :
  real_shapes 3 beam_nodes beam_radius beam_disp stale_vonmises /\
  real_element beam_nodes beam_radius beam_disp 1
    (mkVec3 1 0 1) (mkVec3 2 1 1) 0.2
    (mkVec6 0.01 0 0.02 0 0.001 0) (mkVec6 0 0.03 0 0.002 0 0) /\
  well_posed (mkVec3 1 0 1) (mkVec3 2 1 1) /\
  exists st',
    compute no_backend false 3 (Some scen_E) (Some scen_G)
      (fin_store beam_nodes beam_radius beam_disp stale_T stale_vonmises)
    = Some st' /\
    vonmises st' !! 1%nat
    = Some (Some (Spec.vonmises0 scen_E scen_G (mkVec3 1 0 1) (mkVec3 2 1 1) 0.2
                    (mkVec6 0.01 0 0.02 0 0.001 0) (mkVec6 0 0.03 0 0.002 0 0)),
            Some (Spec.vonmises1 scen_E scen_G (mkVec3 1 0 1) (mkVec3 2 1 1) 0.2
                    (mkVec6 0.01 0 0.02 0 0.001 0) (mkVec6 0 0.03 0 0.002 0 0))).
Proof.
  assert (H1 : real_shapes 3 beam_nodes beam_radius beam_disp stale_vonmises)
    by (repeat split; reflexivity).
  assert (H2 : real_element beam_nodes beam_radius beam_disp 1
                 (mkVec3 1 0 1) (mkVec3 2 1 1) 0.2
                 (mkVec6 0.01 0 0.02 0 0.001 0) (mkVec6 0 0.03 0 0.002 0 0))
    by (repeat split; reflexivity).
  assert (H3 : well_posed (mkVec3 1 0 1) (mkVec3 2 1 1)) by solve_well_posed.
  split; [exact H1|]. split; [exact H2|]. split; [exact H3|].
  exact (compute_closed_form no_backend 3 scen_E scen_G beam_nodes beam_radius
           beam_disp stale_T stale_vonmises 1 _ _ _ _ _ H1 H2 H3).
Defined.

Lemma frame_orthonormal_witness :
  real_element beam_nodes beam_radius beam_disp 0
    (mkVec3 0 0 0) (mkVec3 1 0 1) 0.1
    (mkVec6 0 0 0 0 0 0) (mkVec6 0.01 0 0.02 0 0.001 0) /\
  (0 < length stale_vonmises)%nat /\
  well_posed (mkVec3 0 0 0) (mkVec3 1 0 1) /\
  exists st',
    loop_body (Some scen_E) (Some scen_G) 0
      (fin_store beam_nodes beam_radius beam_disp stale_T stale_vonmises)
    = Some st' /\
    T st' = fin_mat (mkMat3 (Spec.x_loc (mkVec3 0 0 0) (mkVec3 1 0 1))
                            (Spec.y_loc (mkVec3 0 0 0) (mkVec3 1 0 1))
                            (Spec.z_loc (mkVec3 0 0 0) (mkVec3 1 0 1))) /\
    Utils.norm (Spec.x_loc (mkVec3 0 0 0) (mkVec3 1 0 1)) = 1 /\
    Utils.norm (Spec.y_loc (mkVec3 0 0 0) (mkVec3 1 0 1)) = 1 /\
    Utils.norm (Spec.z_loc (mkVec3 0 0 0) (mkVec3 1 0 1)) = 1 /\
    Np.inner (Spec.x_loc (mkVec3 0 0 0) (mkVec3 1 0 1))
             (Spec.y_loc (mkVec3 0 0 0) (mkVec3 1 0 1)) = 0 /\
    Np.inner (Spec.x_loc (mkVec3 0 0 0) (mkVec3 1 0 1))
             (Spec.z_loc (mkVec3 0 0 0) (mkVec3 1 0 1)) = 0 /\
    Np.inner (Spec.y_loc (mkVec3 0 0 0) (mkVec3 1 0 1))
             (Spec.z_loc (mkVec3 0 0 0) (mkVec3 1 0 1)) = 0.
Proof.
  assert (H1 : real_element beam_nodes beam_radius beam_disp 0
                 (mkVec3 0 0 0) (mkVec3 1 0 1) 0.1
                 (mkVec6 0 0 0 0 0 0) (mkVec6 0.01 0 0.02 0 0.001 0))
    by (repeat split; reflexivity).
  assert (H2 : (0 < length stale_vonmises)%nat) by (simpl; lia).
  assert (H3 : well_posed (mkVec3 0 0 0) (mkVec3 1 0 1)) by solve_well_posed.
  split; [exact H1|]. split; [exact H2|]. split; [exact H3|].
  exact (frame_orthonormal scen_E scen_G beam_nodes beam_radius beam_disp
           stale_T stale_vonmises 0 _ _ _ _ _ H1 H2 H3).
Defined.

Lemma zero_disp_zero_stress_witness :
  real_shapes 3 beam_nodes beam_radius (replicate 3 zero6) stale_vonmises /\
  (forall (i : nat) P0 P1,
      beam_nodes !! i = Some P0 -> beam_nodes !! (i + 1)%nat = Some P1 ->
      well_posed P0 P1) /\
  exists st',
    compute no_backend false 3 (Some scen_E) (Some scen_G)
      (fin_store beam_nodes beam_radius (replicate 3 zero6)
         stale_T stale_vonmises) = Some st' /\
    vonmises st' = replicate (3 - 1) (Some 0, Some 0).
Proof.
  assert (H1 : real_shapes 3 beam_nodes beam_radius (replicate 3 zero6)
                 stale_vonmises) by (repeat split; reflexivity).
  assert (H2 : forall (i : nat) P0 P1,
             beam_nodes !! i = Some P0 -> beam_nodes !! (i + 1)%nat = Some P1 ->
             well_posed P0 P1).
  { intros [|[|[|i]]] P0 P1 HP0 HP1; simpl in HP0, HP1;
      try discriminate;
      injection HP0 as <-; injection HP1 as <-; solve_well_posed. }
  split; [exact H1|]. split; [exact H2|].
  exact (zero_disp_zero_stress no_backend 3 scen_E scen_G beam_nodes
           beam_radius stale_T stale_vonmises H1 H2).
Defined.

Lemma degenerate_non_finite_witness :
  real_shapes 3 flat_nodes beam_radius beam_disp stale_vonmises /\
  real_element flat_nodes beam_radius beam_disp 0
    (mkVec3 0 0 0) (mkVec3 2 0 0) 0.1
    (mkVec6 0 0 0 0 0 0) (mkVec6 0.01 0 0.02 0 0.001 0) /\
  degenerate (mkVec3 0 0 0) (mkVec3 2 0 0) /\
  exists st',
    compute no_backend false 3 (Some scen_E) (Some scen_G)
      (fin_store flat_nodes beam_radius beam_disp stale_T stale_vonmises)
    = Some st' /\
    vonmises st' !! 0%nat = Some (None, None).
Proof.
  assert (H1 : real_shapes 3 flat_nodes beam_radius beam_disp stale_vonmises)
    by (repeat split; reflexivity).
  assert (H2 : real_element flat_nodes beam_radius beam_disp 0
                 (mkVec3 0 0 0) (mkVec3 2 0 0) 0.1
                 (mkVec6 0 0 0 0 0 0) (mkVec6 0.01 0 0.02 0 0.001 0))
    by (repeat split; reflexivity).
  assert (H3 : degenerate (mkVec3 0 0 0) (mkVec3 2 0 0)).
  { right. unfold parallel_x_gl, Np.cross, Np.sub, zero3; simpl.
    f_equal; ring. }
  split; [exact H1|]. split; [exact H2|]. split; [exact H3|].
  exact (degenerate_non_finite no_backend 3 scen_E scen_G flat_nodes
           beam_radius beam_disp stale_T stale_vonmises 0 _ _ _ _ _ H1 H2 H3).
Defined.

Lemma element_independent_witness :
  well_shaped 3
    (fin_store beam_nodes beam_radius beam_disp stale_T stale_vonmises) /\
  element_at
    (fin_store beam_nodes beam_radius beam_disp stale_T stale_vonmises) 1
    (fin3 (mkVec3 1 0 1)) (fin3 (mkVec3 2 1 1)) (Some 0.2)
    (fin6 (mkVec6 0.01 0 0.02 0 0.001 0)) (fin6 (mkVec6 0 0.03 0 0.002 0 0)) /\
  exists st' sta sto,
    compute no_backend false 3 (Some scen_E) (Some scen_G)
      (fin_store beam_nodes beam_radius beam_disp stale_T stale_vonmises)
    = Some st' /\
    compute no_backend false 2 (Some scen_E) (Some scen_G)
      (mkStore [fin3 (mkVec3 1 0 1); fin3 (mkVec3 2 1 1)] [Some 0.2]
         [fin6 (mkVec6 0.01 0 0.02 0 0.001 0);
          fin6 (mkVec6 0 0.03 0 0.002 0 0)]
         (fin_mat (mkMat3 zero3 zero3 zero3)) [(None, None)])
    = Some sta /\
    vonmises st' !! 1%nat = vonmises sta !! 0%nat /\
    compute no_backend false 3 (Some scen_E) (Some scen_G)
      (set_T (fin_store beam_nodes beam_radius beam_disp stale_T stale_vonmises)
         (mkMat3 nan3 nan3 nan3))
    = Some sto /\
    vonmises sto = vonmises st'.
Proof.
  assert (H1 : well_shaped 3
                 (fin_store beam_nodes beam_radius beam_disp stale_T
                    stale_vonmises)) by (repeat split; reflexivity).
  assert (H2 : element_at
                 (fin_store beam_nodes beam_radius beam_disp stale_T
                    stale_vonmises) 1
                 (fin3 (mkVec3 1 0 1)) (fin3 (mkVec3 2 1 1)) (Some 0.2)
                 (fin6 (mkVec6 0.01 0 0.02 0 0.001 0))
                 (fin6 (mkVec6 0 0.03 0 0.002 0 0)))
    by (repeat split; reflexivity).
  split; [exact H1|]. split; [exact H2|].
  exact (element_independent no_backend 3 (Some scen_E) (Some scen_G) _ 1
           _ _ _ _ _ (fin_mat (mkMat3 zero3 zero3 zero3))
           (mkMat3 nan3 nan3 nan3) (None, None) H1 H2).
Defined.

Lemma compute_deterministic_pure_witness :
  well_shaped 3
    (fin_store beam_nodes beam_radius beam_disp stale_T stale_vonmises) /\
  well_shaped 3
    (fin_store beam_nodes beam_radius beam_disp (mkMat3 nan3 nan3 nan3)
       [(None, None); (None, None)]) /\
  exists ru ru',
    compute no_backend false 3 (Some scen_E) (Some scen_G)
      (fin_store beam_nodes beam_radius beam_disp stale_T stale_vonmises)
    = Some ru /\
    compute no_backend false 3 (Some scen_E) (Some scen_G)
      (fin_store beam_nodes beam_radius beam_disp (mkMat3 nan3 nan3 nan3)
         [(None, None); (None, None)])
    = Some ru' /\
    vonmises ru = vonmises ru' /\
    (nodes ru = fin3 <$> beam_nodes /\ radius ru = Some <$> beam_radius /\
     disp ru = fin6 <$> beam_disp) /\
    (nodes ru' = fin3 <$> beam_nodes /\ radius ru' = Some <$> beam_radius /\
     disp ru' = fin6 <$> beam_disp).
Proof.
  assert (H1 : well_shaped 3
                 (fin_store beam_nodes beam_radius beam_disp stale_T
                    stale_vonmises)) by (repeat split; reflexivity).
  assert (H2 : well_shaped 3
                 (fin_store beam_nodes beam_radius beam_disp
                    (mkMat3 nan3 nan3 nan3) [(None, None); (None, None)]))
    by (repeat split; reflexivity).
  split; [exact H1|]. split; [exact H2|].
  exact (compute_deterministic_pure no_backend 3 (Some scen_E) (Some scen_G)
           _ _ H1 H2 eq_refl eq_refl eq_refl).
Defined.

Lemma jacvec_accumulates_witness :
  length (d_vonmises beam_derivs)
  = length (fwd_contribution calc_vonmises_d_model scen_E scen_G
              (beam_inputs 0) beam_derivs) /\
  length (d_nodes beam_derivs)
  = length (rev_contribution calc_vonmises_b_model scen_E scen_G
              (beam_inputs 0) (beam_outputs 0) beam_derivs).1.1 /\
  length (d_radius beam_derivs)
  = length (rev_contribution calc_vonmises_b_model scen_E scen_G
              (beam_inputs 0) (beam_outputs 0) beam_derivs).1.2 /\
  length (d_disp beam_derivs)
  = length (rev_contribution calc_vonmises_b_model scen_E scen_G
              (beam_inputs 0) (beam_outputs 0) beam_derivs).2 /\
  (d' ← compute_jacvec_product calc_vonmises_d_model calc_vonmises_b_model
          scen_E scen_G (beam_inputs 0) (beam_outputs 0) "fwd" beam_derivs;
   compute_jacvec_product calc_vonmises_d_model calc_vonmises_b_model
     scen_E scen_G (beam_inputs 0) (beam_outputs 0) "fwd" d')
  = Some (mkDerivs (d_nodes beam_derivs) (d_radius beam_derivs)
            (d_disp beam_derivs)
            (zip_with add2 (d_vonmises beam_derivs)
               (scale2 2 <$> fwd_contribution calc_vonmises_d_model
                               scen_E scen_G (beam_inputs 0) beam_derivs))) /\
  (d' ← compute_jacvec_product calc_vonmises_d_model calc_vonmises_b_model
          scen_E scen_G (beam_inputs 0) (beam_outputs 0) "rev" beam_derivs;
   compute_jacvec_product calc_vonmises_d_model calc_vonmises_b_model
     scen_E scen_G (beam_inputs 0) (beam_outputs 0) "rev" d')
  = Some (mkDerivs
            (zip_with add3 (d_nodes beam_derivs)
               (scale3 2 <$> (rev_contribution calc_vonmises_b_model
                                scen_E scen_G (beam_inputs 0) (beam_outputs 0)
                                beam_derivs).1.1))
            (zip_with Rplus (d_radius beam_derivs)
               (Rmult 2 <$> (rev_contribution calc_vonmises_b_model
                               scen_E scen_G (beam_inputs 0) (beam_outputs 0)
                               beam_derivs).1.2))
            (zip_with add6 (d_disp beam_derivs)
               (scale6 2 <$> (rev_contribution calc_vonmises_b_model
                                scen_E scen_G (beam_inputs 0) (beam_outputs 0)
                                beam_derivs).2))
            (d_vonmises beam_derivs)).
Proof.
  assert (H1 : length (d_vonmises beam_derivs)
               = length (fwd_contribution calc_vonmises_d_model scen_E scen_G
                           (beam_inputs 0) beam_derivs)) by reflexivity.
  assert (H2 : length (d_nodes beam_derivs)
               = length (rev_contribution calc_vonmises_b_model scen_E scen_G
                           (beam_inputs 0) (beam_outputs 0) beam_derivs).1.1)
    by reflexivity.
  assert (H3 : length (d_radius beam_derivs)
               = length (rev_contribution calc_vonmises_b_model scen_E scen_G
                           (beam_inputs 0) (beam_outputs 0) beam_derivs).1.2)
    by reflexivity.
  assert (H4 : length (d_disp beam_derivs)
               = length (rev_contribution calc_vonmises_b_model scen_E scen_G
                           (beam_inputs 0) (beam_outputs 0) beam_derivs).2)
    by reflexivity.
  split; [exact H1|]. split; [exact H2|]. split; [exact H3|].
  split; [exact H4|].
  exact (jacvec_accumulates calc_vonmises_d_model calc_vonmises_b_model
           scen_E scen_G (beam_inputs 0) (beam_outputs 0) beam_derivs
           H1 H2 H3 H4).
Defined.

Lemma jacvec_real_parts_witness :
  real3 <$> in_nodes (beam_inputs 0) = real3 <$> in_nodes (beam_inputs 1e-30) /\
  real <$> in_radius (beam_inputs 0) = real <$> in_radius (beam_inputs 1e-30) /\
  real6 <$> in_disp (beam_inputs 0) = real6 <$> in_disp (beam_inputs 1e-30) /\
  real2 <$> out_vonmises (beam_outputs 0)
  = real2 <$> out_vonmises (beam_outputs 1e-30) /\
  fwd_contribution calc_vonmises_d_model scen_E scen_G (beam_inputs 0)
    beam_derivs
  = fwd_contribution calc_vonmises_d_model scen_E scen_G (beam_inputs 1e-30)
      beam_derivs /\
  rev_contribution calc_vonmises_b_model scen_E scen_G (beam_inputs 0)
    (beam_outputs 0) beam_derivs
  = rev_contribution calc_vonmises_b_model scen_E scen_G (beam_inputs 1e-30)
      (beam_outputs 1e-30) beam_derivs /\
  compute_jacvec_product calc_vonmises_d_model calc_vonmises_b_model
    scen_E scen_G (beam_inputs 0) (beam_outputs 0) "rev" beam_derivs
  = compute_jacvec_product calc_vonmises_d_model calc_vonmises_b_model
      scen_E scen_G (beam_inputs 1e-30) (beam_outputs 1e-30) "rev" beam_derivs.
Proof.
  assert (H1 : real3 <$> in_nodes (beam_inputs 0)
               = real3 <$> in_nodes (beam_inputs 1e-30)) by reflexivity.
  assert (H2 : real <$> in_radius (beam_inputs 0)
               = real <$> in_radius (beam_inputs 1e-30)) by reflexivity.
  assert (H3 : real6 <$> in_disp (beam_inputs 0)
               = real6 <$> in_disp (beam_inputs 1e-30)) by reflexivity.
  assert (H4 : real2 <$> out_vonmises (beam_outputs 0)
               = real2 <$> out_vonmises (beam_outputs 1e-30)) by reflexivity.
  split; [exact H1|]. split; [exact H2|]. split; [exact H3|].
  split; [exact H4|].
  exact (jacvec_real_parts calc_vonmises_d_model calc_vonmises_b_model
           scen_E scen_G (beam_inputs 0) (beam_inputs 1e-30)
           (beam_outputs 0) (beam_outputs 1e-30) "rev" beam_derivs
           H1 H2 H3 H4).
Defined.

Lemma reverse_is_adjoint_witness :
  length beam_nodes = 3%nat /\ length beam_radius = (3 - 1)%nat /\
  length beam_disp = 3%nat /\
  length (d_nodes beam_derivs) = 3%nat /\
  length (d_radius beam_derivs) = (3 - 1)%nat /\
  length (d_disp beam_derivs) = 3%nat /\
  length (d_vonmises beam_derivs) = (3 - 1)%nat /\
  dot_list inner2 (d_vonmises beam_derivs)
    (calc_vonmises_d_model beam_nodes (d_nodes beam_derivs)
       beam_radius (d_radius beam_derivs) beam_disp (d_disp beam_derivs)
       scen_E scen_G x_gl).2
  = dot_list Np.inner (d_nodes beam_derivs)
      (calc_vonmises_b_model beam_nodes beam_radius beam_disp scen_E scen_G
         x_gl [] (d_vonmises beam_derivs)).1.1
    + dot_list Rmult (d_radius beam_derivs)
        (calc_vonmises_b_model beam_nodes beam_radius beam_disp scen_E scen_G
           x_gl [] (d_vonmises beam_derivs)).1.2
    + dot_list inner6 (d_disp beam_derivs)
        (calc_vonmises_b_model beam_nodes beam_radius beam_disp scen_E scen_G
           x_gl [] (d_vonmises beam_derivs)).2.
Proof.
  repeat (split; [reflexivity|]).
  exact (reverse_is_adjoint 3 scen_E scen_G x_gl beam_nodes
           (d_nodes beam_derivs) beam_radius (d_radius beam_derivs)
           beam_disp (d_disp beam_derivs) [] (d_vonmises beam_derivs)
           eq_refl eq_refl eq_refl eq_refl eq_refl eq_refl eq_refl).
Defined.
End Witnesses.
(** ** More on the loop: bounds, the scratch frame, repeated calls *)
Section LoopBounds.
Context {A : Type} `{Scalar A}.
Implicit Types (st : Store A).

Lemma loop_body_Some_inv (E G : A) (i : nat) st st' :
  loop_body E G i st = Some st' ->
  (exists P0 P1 rad d0 d1, element_at st i P0 P1 rad d0 d1) /\
  i < length (vonmises st).
Proof.
  unfold loop_body, element_at. intros Hrun.
  destruct (nodes st !! i) as [P0|] eqn:HP0; [|discriminate].
  destruct (nodes st !! (i + 1)) as [P1|] eqn:HP1; [|discriminate].
  cbn [mbind option_bind Np.set_row set_T T disp radius vonmises] in Hrun.
  destruct (disp st !! i) as [d0|] eqn:Hd0; [|discriminate].
  cbn [mbind option_bind] in Hrun.
  destruct (disp st !! (i + 1)) as [d1|] eqn:Hd1; [|discriminate].
  cbn [mbind option_bind] in Hrun.
  destruct (radius st !! i) as [rad|] eqn:Hr; [|discriminate].
  cbn [mbind option_bind] in Hrun.
  unfold Np.set_item2 in Hrun.
  destruct (vonmises st !! i) as [p|] eqn:Hp; [|discriminate].
  split; [by exists P0, P1, rad, d0, d1|].
  by apply lookup_lt_Some in Hp.
Qed.

(** A loop that returns has run its last iteration within bounds. *)
Lemma for_range_Some_inv (E G : A) (count : nat) :
  forall (start : nat) st st',
    for_range (loop_body E G) start (S count) st = Some st' ->
    big_enough (start + count + 2) st.
Proof.
  induction count as [|count IH]; intros start st st' Hrun.
  - simpl in Hrun.
    destruct (loop_body E G start st) as [st1|] eqn:Hbody; [|discriminate].
    apply loop_body_Some_inv in Hbody as [(P0 & P1 & rad & d0 & d1 & Hel) Hv].
    destruct Hel as (HP0 & HP1 & Hr & Hd0 & Hd1).
    apply lookup_lt_Some in HP1, Hr, Hd1.
    unfold big_enough. lia.
  - change (for_range (loop_body E G) start (S (S count)) st)
      with (s' ← loop_body E G start st;
            for_range (loop_body E G) (S start) (S count) s') in Hrun.
    destruct (loop_body E G start st) as [st1|] eqn:Hbody; [|discriminate].
    cbn [mbind option_bind] in Hrun.
    apply IH in Hrun.
    pose proof Hbody as Hinv.
    apply loop_body_Some_inv in Hinv as [(P0 & P1 & rad & d0 & d1 & Hel) Hv].
    rewrite (loop_body_spec E G start st P0 P1 rad d0 d1 Hel Hv) in Hbody.
    injection Hbody as <-.
    unfold big_enough in *. cbn [nodes radius disp vonmises] in Hrun.
    rewrite length_insert in Hrun.
    replace (start + S count + 2) with (S start + count + 2) by lia.
    exact Hrun.
Qed.

(** The loop on arrays that are long enough: it returns, writes the rows it
    runs over and no other, and leaves in [T] the frame of the last element
    it ran over. *)
Lemma for_range_full (E G : A) (count : nat) :
  forall (start : nat) st,
    count = 0 \/ big_enough (start + count + 1) st ->
    exists st',
      for_range (loop_body E G) start count st = Some st' /\
      nodes st' = nodes st /\ radius st' = radius st /\ disp st' = disp st /\
      length (vonmises st') = length (vonmises st) /\
      (forall i, i < start \/ start + count <= i ->
                 vonmises st' !! i = vonmises st !! i) /\
      (forall i P0 P1 rad d0 d1,
          start <= i < start + count -> element_at st i P0 P1 rad d0 d1 ->
          vonmises st' !! i = Some (stress_of E G P0 P1 rad d0 d1)) /\
      match count with
      | 0 => T st' = T st
      | S c => forall P0 P1,
          nodes st !! (start + c) = Some P0 ->
          nodes st !! (start + c + 1) = Some P1 ->
          T st' = frame_of P0 P1
      end.
Proof.
  induction count as [|count IH]; intros start st Hbig.
  - exists st. simpl. repeat split; try done. intros; lia.
  - destruct Hbig as [Hbig|Hbig]; [discriminate|].
    destruct Hbig as (Hn & Hr & Hd & Hv).
    destruct (lookup_lt_is_Some_2 (nodes st) start) as [P0 HP0]; [lia|].
    destruct (lookup_lt_is_Some_2 (nodes st) (start + 1)) as [P1 HP1]; [lia|].
    destruct (lookup_lt_is_Some_2 (radius st) start) as [rad Hrad]; [lia|].
    destruct (lookup_lt_is_Some_2 (disp st) start) as [d0 Hd0]; [lia|].
    destruct (lookup_lt_is_Some_2 (disp st) (start + 1)) as [d1 Hd1]; [lia|].
    assert (Hel : element_at st start P0 P1 rad d0 d1) by done.
    assert (Hlt : start < length (vonmises st)) by lia.
    cbn [for_range].
    rewrite (loop_body_spec E G start st P0 P1 rad d0 d1 Hel Hlt).
    cbn [mbind option_bind].
    set (st1 := mkStore _ _ _ _ _).
    destruct (IH (S start) st1) as
      (st' & Hrun & Hn' & Hr' & Hd' & Hlen & Hout & Hin & HT).
    { right. unfold big_enough, st1. cbn [nodes radius disp vonmises].
      rewrite length_insert. lia. }
    exists st'. split; [exact Hrun|].
    split; [by rewrite Hn'|]. split; [by rewrite Hr'|].
    split; [by rewrite Hd'|].
    split; [rewrite Hlen; unfold st1; cbn [vonmises]; by rewrite length_insert|].
    split; [|split].
    + intros i Hi. rewrite Hout by lia. unfold st1; cbn [vonmises].
      apply list_lookup_insert_ne. lia.
    + intros i Q0 Q1 rd e0 e1 Hi Hel'.
      destruct (decide (i = start)) as [->|Hne].
      * rewrite Hout by lia. unfold st1; cbn [vonmises].
        rewrite list_lookup_insert_eq by exact Hlt.
        destruct Hel as (a1 & a2 & a3 & a4 & a5).
        destruct Hel' as (b1 & b2 & b3 & b4 & b5).
        congruence.
      * apply Hin; [lia|exact Hel'].
    + intros Q0 Q1 HQ0 HQ1. destruct count as [|c].
      * rewrite HT. unfold st1; cbn [T].
        replace (start + 0) with start in * by lia. congruence.
      * apply HT; unfold st1; cbn [nodes].
        -- replace (S start + c) with (start + S c) by lia. exact HQ0.
        -- replace (S start + c + 1) with (start + S c + 1) by lia. exact HQ1.
Qed.
End LoopBounds.
(** ** [compute]: when it returns and what it writes *)
Section ComputeBounds.
Context {A : Type} `{Scalar A}.
Implicit Types (st : Store A).

Lemma store_eq st st' :
  nodes st = nodes st' -> radius st = radius st' -> disp st = disp st' ->
  T st = T st' -> vonmises st = vonmises st' -> st = st'.
Proof. destruct st, st'; simpl. by intros -> -> -> -> ->. Qed.

Lemma big_enough_element (ny : nat) st (i : nat) :
  big_enough ny st -> i < ny - 1 ->
  exists P0 P1 rad d0 d1, element_at st i P0 P1 rad d0 d1.
Proof.
  intros (Hn & Hr & Hd & _) Hi.
  destruct (lookup_lt_is_Some_2 (nodes st) i) as [P0 HP0]; [lia|].
  destruct (lookup_lt_is_Some_2 (nodes st) (i + 1)) as [P1 HP1]; [lia|].
  destruct (lookup_lt_is_Some_2 (radius st) i) as [rad Hrad]; [lia|].
  destruct (lookup_lt_is_Some_2 (disp st) i) as [d0 Hd0]; [lia|].
  destruct (lookup_lt_is_Some_2 (disp st) (i + 1)) as [d1 Hd1]; [lia|].
  by exists P0, P1, rad, d0, d1.
Qed.

Lemma compute_full cv (ny : nat) (E G : A) st :
  ny <= 1 \/ big_enough ny st ->
  exists st',
    compute cv false ny E G st = Some st' /\
    nodes st' = nodes st /\ radius st' = radius st /\ disp st' = disp st /\
    length (vonmises st') = length (vonmises st) /\
    (forall i, ny - 1 <= i -> vonmises st' !! i = vonmises st !! i) /\
    (forall i P0 P1 rad d0 d1,
        i < ny - 1 -> element_at st i P0 P1 rad d0 d1 ->
        vonmises st' !! i = Some (stress_of E G P0 P1 rad d0 d1)) /\
    match ny - 1 with
    | 0 => T st' = T st
    | S c => forall P0 P1,
        nodes st !! c = Some P0 -> nodes st !! (c + 1) = Some P1 ->
        T st' = frame_of P0 P1
    end.
Proof.
  intros Hbig. unfold compute.
  destruct (for_range_full E G (ny - 1) 0 st) as
    (st' & Hrun & Hn & Hr & Hd & Hlen & Hout & Hin & HT).
  { destruct Hbig as [Hle|Hbig]; [left; lia|].
    destruct (decide (ny - 1 = 0)) as [Hz|Hnz]; [by left|right].
    replace (0 + (ny - 1) + 1) with ny by lia. exact Hbig. }
  exists st'. split; [exact Hrun|]. repeat (split; [done|]).
  split; [intros i Hi; apply Hout; lia|].
  split; [intros i P0 P1 rad d0 d1 Hi Hel; apply (Hin i); [lia|exact Hel]|].
  exact HT.
Qed.

(** X1. The pure-Python path returns exactly when there is no element to
    run over or the four arrays are long enough for [ny] nodes; otherwise an
    index is out of range and the call raises. *)
Theorem compute_returns_iff cv (ny : nat) (E G : A) st :
  is_Some (compute cv false ny E G st) <-> ny <= 1 \/ big_enough ny st.
Proof.
  split.
  - intros [st' Hrun]. destruct (decide (ny <= 1)) as [Hle|Hgt]; [by left|].
    right. unfold compute in Hrun.
    replace (ny - 1) with (S (ny - 2)) in Hrun by lia.
    apply for_range_Some_inv in Hrun.
    replace (0 + (ny - 2) + 2) with ny in Hrun by lia. exact Hrun.
  - intros Hbig. destruct (compute_full cv ny E G st Hbig) as (st' & Hrun & _).
    by exists st'.
Qed.

(** X2. On arrays that are long enough, the pure-Python path keeps the
    length of [vonmises] and writes no row from [ny - 1] on: what a longer
    buffer held there stays. *)
Theorem compute_writes_no_other_row cv (ny : nat) (E G : A) st :
  big_enough ny st ->
  exists st',
    compute cv false ny E G st = Some st' /\
    length (vonmises st') = length (vonmises st) /\
    forall i, ny - 1 <= i -> vonmises st' !! i = vonmises st !! i.
Proof.
  intros Hbig.
  destruct (compute_full cv ny E G st (or_intror Hbig))
    as (st' & Hrun & _ & _ & _ & Hlen & Hout & _).
  by exists st'.
Qed.

(** X3. A call on two nodes or more changes the component: it leaves in
    the scratch frame [self.T] the frame of the last element. *)
Theorem compute_leaves_last_frame cv (ny : nat) (E G : A) st
    (P0 P1 : Vec3 A) :
  2 <= ny -> big_enough ny st ->
  nodes st !! (ny - 2) = Some P0 -> nodes st !! (ny - 1) = Some P1 ->
  exists st', compute cv false ny E G st = Some st' /\ T st' = frame_of P0 P1.
Proof.
  intros Hny Hbig HP0 HP1.
  destruct (compute_full cv ny E G st (or_intror Hbig))
    as (st' & Hrun & _ & _ & _ & _ & _ & _ & HT).
  exists st'. split; [exact Hrun|].
  replace (ny - 1) with (S (ny - 2)) in HT, HP1 by lia.
  apply HT; [exact HP0|].
  replace (ny - 2 + 1) with (S (ny - 2)) by lia. exact HP1.
Qed.

(** X4. The pure-Python path is idempotent on the whole store: a second
    call on the result of a first changes nothing, the scratch frame
    included. *)
Theorem compute_idempotent cv (ny : nat) (E G : A) st :
  big_enough ny st ->
  exists st',
    compute cv false ny E G st = Some st' /\
    compute cv false ny E G st' = Some st'.
Proof.
  intros Hbig.
  destruct (compute_full cv ny E G st (or_intror Hbig))
    as (st' & Hrun & Hn & Hr & Hd & Hlen & Hout & Hin & HT).
  exists st'. split; [exact Hrun|].
  assert (Hbig' : big_enough ny st').
  { unfold big_enough in *. rewrite Hn, Hr, Hd, Hlen. exact Hbig. }
  destruct (compute_full cv ny E G st' (or_intror Hbig'))
    as (s2 & Hrun2 & Hn2 & Hr2 & Hd2 & Hlen2 & Hout2 & Hin2 & HT2).
  rewrite Hrun2. f_equal. apply store_eq; try done.
  - destruct (ny - 1) as [|c] eqn:Hc; [exact HT2|].
    destruct Hbig as (Hnl & _).
    destruct (lookup_lt_is_Some_2 (nodes st) c) as [P0 HP0]; [lia|].
    destruct (lookup_lt_is_Some_2 (nodes st) (c + 1)) as [P1 HP1]; [lia|].
    rewrite (HT P0 P1 HP0 HP1). apply HT2; by rewrite Hn.
  - apply list_eq. intros i.
    destruct (decide (i < ny - 1)) as [Hi|Hi]; [|apply Hout2; lia].
    destruct (big_enough_element ny st i Hbig Hi)
      as (P0 & P1 & rad & d0 & d1 & Hel).
    rewrite (Hin i _ _ _ _ _ Hi Hel).
    apply Hin2; [exact Hi|]. unfold element_at in *.
    by rewrite Hn, Hr, Hd.
Qed.
End ComputeBounds.
(** ** The stresses of a beam of real data, element by element *)
Section RealElements.
Local Open Scope R_scope.

Lemma vec3_eq_dec (a b : Vec3 R) : {a = b} + {a <> b}.
Proof.
  destruct a as [a1 a2 a3], b as [b1 b2 b3].
  destruct (Req_dec_T a1 b1) as [->|H1]; [|right; congruence].
  destruct (Req_dec_T a2 b2) as [->|H2]; [|right; congruence].
  destruct (Req_dec_T a3 b3) as [->|H3]; [|right; congruence].
  by left.
Qed.

(** An element is well posed or degenerate. *)
Lemma well_posed_or_degenerate (P0 P1 : Vec3 R) :
  well_posed P0 P1 \/ degenerate P0 P1.
Proof.
  unfold well_posed, degenerate, parallel_x_gl.
  destruct (vec3_eq_dec P0 P1) as [Heq|Hne]; [right; by left|].
  destruct (vec3_eq_dec (Np.cross (Np.sub P1 P0) x_gl) zero3) as [Hp|Hnp].
  - right. by right.
  - left. by split.
Qed.

Lemma well_posed_not_degenerate (P0 P1 : Vec3 R) :
  well_posed P0 P1 -> ~ degenerate P0 P1.
Proof. intros [Hne Hnp] [Heq|Hp]; tauto. Qed.

(** The stress pair of an element: finite on a well-posed element,
    non-finite on a degenerate one. *)
Lemma elem_stress_cases (E G : R) (e : Elem R) :
  (well_posed (eP0 e) (eP1 e) /\
   elem_stress E G e
   = fin2 (stress_of E G (eP0 e) (eP1 e) (erad e) (ed0 e) (ed1 e))) \/
  (degenerate (eP0 e) (eP1 e) /\ elem_stress E G e = (None, None)).
Proof.
  unfold elem_stress.
  destruct (well_posed_or_degenerate (eP0 e) (eP1 e)) as [Hwp|Hdeg].
  - left. split; [exact Hwp|]. by apply stress_of_fin.
  - right. split; [exact Hdeg|]. by apply stress_of_degenerate.
Qed.

Lemma elements_lookup {X : Type} :
  forall (nds : list (Vec3 X)) (rds : list X) (dps : list (Vec6 X))
         (i : nat) P0 P1 r d0 d1,
    nds !! i = Some P0 -> nds !! (i + 1)%nat = Some P1 ->
    rds !! i = Some r ->
    dps !! i = Some d0 -> dps !! (i + 1)%nat = Some d1 ->
    elements nds rds dps !! i = Some (mkElem P0 P1 r d0 d1).
Proof.
  induction nds as [|a ns IH]; intros rds dps i P0 P1 r d0 d1
    HP0 HP1 Hr Hd0 Hd1; [done|].
  destruct rds as [|r0 rs]; [done|].
  destruct dps as [|q0 ds]; [done|].
  destruct i as [|i].
  - simpl in HP0, HP1, Hr, Hd0, Hd1.
    destruct ns as [|b ns]; [done|]. destruct ds as [|q1 ds]; [done|].
    simpl in HP1, Hd1. rewrite elements_cons. simpl. congruence.
  - simpl in HP0, HP1, Hr, Hd0, Hd1.
    destruct ns as [|b ns]; [done|]. destruct ds as [|q1 ds]; [done|].
    rewrite elements_cons.
    change (elements (b :: ns) rs (q1 :: ds) !! i = Some (mkElem P0 P1 r d0 d1)).
    by apply IH.
Qed.

Lemma elements_length_shapes {X : Type} (ny : nat) (nds : list (Vec3 X))
    (rds : list X) (dps : list (Vec6 X)) :
  length nds = ny -> length rds = (ny - 1)%nat -> length dps = ny ->
  length (elements nds rds dps) = (ny - 1)%nat.
Proof.
  intros Hn Hr Hd. destruct ny as [|n].
  - by destruct nds.
  - replace (S n - 1)%nat with n in * by lia. by apply length_elements.
Qed.

Lemma elements_fmap {X Y : Type} (f : Vec3 X -> Vec3 Y) (g : X -> Y)
    (h : Vec6 X -> Vec6 Y) :
  forall (nds : list (Vec3 X)) (rds : list X) (dps : list (Vec6 X)),
    elements (f <$> nds) (g <$> rds) (h <$> dps)
    = map_elem f g h <$> elements nds rds dps.
Proof.
  induction nds as [|a ns IH]; intros rds dps; [done|].
  destruct rds as [|r0 rs]; [done|].
  destruct dps as [|q0 ds]; [done|].
  destruct ns as [|b ns]; [done|]. destruct ds as [|q1 ds]; [done|].
  rewrite elements_cons.
  change (elements (f <$> a :: b :: ns) (g <$> r0 :: rs) (h <$> q0 :: q1 :: ds))
    with (elements (f a :: f b :: (f <$> ns)) (g r0 :: (g <$> rs))
            (h q0 :: h q1 :: (h <$> ds))).
  rewrite elements_cons.
  change (f b :: (f <$> ns)) with (f <$> b :: ns).
  change (h q1 :: (h <$> ds)) with (h <$> q1 :: ds).
  rewrite IH. reflexivity.
Qed.

(** The whole output on real input arrays: row [i] holds the stress pair of
    element [i]. *)
Lemma compute_fin_rows cv (ny : nat) (E G : R) (nodesR : list (Vec3 R))
    (radiusR : list R) (dispR : list (Vec6 R)) (Tini : Mat3 xreal)
    (buf : list (xreal * xreal)) :
  real_shapes ny nodesR radiusR dispR buf ->
  exists st',
    compute cv false ny (Some E) (Some G)
      (fin_store nodesR radiusR dispR Tini buf) = Some st' /\
    vonmises st' = elem_stress E G <$> elements nodesR radiusR dispR.
Proof.
  intros Hsh.
  pose proof (well_shaped_fin ny _ _ _ Tini _ Hsh) as Hws.
  destruct (compute_python cv ny (Some E) (Some G) _ Hws)
    as (st' & Hrun & _ & _ & _ & Hlen & Hrow).
  exists st'. split; [exact Hrun|].
  destruct Hsh as (Hn & Hr & Hd & Hv).
  apply list_eq. intros i. rewrite list_lookup_fmap.
  destruct (decide (i < ny - 1)%nat) as [Hi|Hi].
  - destruct (lookup_lt_is_Some_2 nodesR i) as [P0 HP0]; [lia|].
    destruct (lookup_lt_is_Some_2 nodesR (i + 1)) as [P1 HP1]; [lia|].
    destruct (lookup_lt_is_Some_2 radiusR i) as [rad Hrad]; [lia|].
    destruct (lookup_lt_is_Some_2 dispR i) as [d0 Hd0]; [lia|].
    destruct (lookup_lt_is_Some_2 dispR (i + 1)) as [d1 Hd1]; [lia|].
    rewrite (elements_lookup _ _ _ i _ _ _ _ _ HP0 HP1 Hrad Hd0 Hd1).
    rewrite (Hrow i _ _ _ _ _
               (element_at_fin _ _ _ Tini buf i P0 P1 rad d0 d1
                  (conj HP0 (conj HP1 (conj Hrad (conj Hd0 Hd1)))))).
    reflexivity.
  - rewrite (lookup_ge_None_2 (vonmises st')) by lia.
    rewrite (lookup_ge_None_2 (elements nodesR radiusR dispR)); [done|].
    rewrite (elements_length_shapes ny) by done. lia.
Qed.
End RealElements.
(** ** Invariances of the stresses *)
Section Invariances.
Local Open Scope R_scope.

(** The stress pair depends on the two nodes through their difference
    only. *)
Lemma stress_of_sub {A : Type} `{Scalar A} (E G : A) (P0 P1 Q0 Q1 : Vec3 A)
    (rad : A) (d0 d1 : Vec6 A) :
  Np.sub P1 P0 = Np.sub Q1 Q0 ->
  stress_of E G P0 P1 rad d0 d1 = stress_of E G Q0 Q1 rad d0 d1.
Proof.
  intros Heq. unfold stress_of, stress_axis, frame_axis. by rewrite Heq.
Qed.

Lemma sub_add3 (t P0 P1 : Vec3 R) :
  Np.sub (fin3 (add3 t P1)) (fin3 (add3 t P0)) = Np.sub (fin3 P1) (fin3 P0).
Proof.
  rewrite !sub_fin. f_equal. unfold Np.sub, add3. cbn [vx vy vz ssub R_scalar].
  f_equal; ring.
Qed.

Lemma elem_stress_translate (E G : R) (t : Vec3 R) (e : Elem R) :
  elem_stress E G (map_elem (add3 t) (@Datatypes.id R) (@Datatypes.id (Vec6 R)) e) = elem_stress E G e.
Proof.
  unfold elem_stress, map_elem. cbn [eP0 eP1 erad ed0 ed1]. unfold Datatypes.id.
  apply stress_of_sub, sub_add3.
Qed.

Lemma sub_shift (c x y : R) : c + x - (c + y) = x - y.
Proof. ring. Qed.

Lemma dot_add3 (Tm : Mat3 R) (a b : Vec3 R) :
  Np.dot Tm (add3 a b) = add3 (Np.dot Tm a) (Np.dot Tm b).
Proof.
  unfold Np.dot, Np.inner, add3. cbn [vx vy vz sadd smul R_scalar].
  f_equal; ring.
Qed.

Lemma dot_scale3 (Tm : Mat3 R) (k : R) (a : Vec3 R) :
  Np.dot Tm (scale3 k a) = scale3 k (Np.dot Tm a).
Proof.
  unfold Np.dot, Np.inner, scale3. cbn [vx vy vz sadd smul R_scalar].
  f_equal; ring.
Qed.

Lemma stress_local_shift (E G L rad : R) (a b u0 r0 u1 r1 : Vec3 R) :
  stress_local E G L rad (add3 a u0) (add3 b r0) (add3 a u1) (add3 b r1)
  = stress_local E G L rad u0 r0 u1 r1.
Proof.
  unfold stress_local, add3, ssq.
  cbn [vx vy vz sadd ssub smul sdiv ssqrt R_scalar].
  by rewrite !sub_shift.
Qed.

Lemma stress_of_rigid (E G : R) (P0 P1 : Vec3 R) (rad : R) (c d0 d1 : Vec6 R) :
  stress_of E G P0 P1 rad (add6 c d0) (add6 c d1)
  = stress_of E G P0 P1 rad d0 d1.
Proof.
  unfold stress_of, stress_axis.
  change (Np.first3 (add6 c d0)) with (add3 (Np.first3 c) (Np.first3 d0)).
  change (Np.first3 (add6 c d1)) with (add3 (Np.first3 c) (Np.first3 d1)).
  change (Np.last3 (add6 c d0)) with (add3 (Np.last3 c) (Np.last3 d0)).
  change (Np.last3 (add6 c d1)) with (add3 (Np.last3 c) (Np.last3 d1)).
  rewrite !dot_add3. apply stress_local_shift.
Qed.

Lemma elem_stress_rigid (E G : R) (c : Vec6 R) (e : Elem R) :
  elem_stress E G (map_elem (@Datatypes.id (Vec3 R)) (@Datatypes.id R) (add6 c) e) = elem_stress E G e.
Proof.
  destruct (elem_stress_cases E G e) as [[Hwp ->]|[Hdeg ->]].
  - unfold elem_stress, map_elem. cbn [eP0 eP1 erad ed0 ed1]. unfold Datatypes.id.
    rewrite (stress_of_fin _ _ _ _ _ _ _ Hwp). by rewrite stress_of_rigid.
  - unfold elem_stress, map_elem. cbn [eP0 eP1 erad ed0 ed1]. unfold Datatypes.id.
    by apply stress_of_degenerate.
Qed.

Lemma sqrt_scale (k a b : R) :
  0 <= k -> sqrt (k * a * (k * a) + k * b * (k * b)) = k * sqrt (a * a + b * b).
Proof.
  intros Hk.
  replace (k * a * (k * a) + k * b * (k * b)) with (k * k * (a * a + b * b))
    by ring.
  rewrite sqrt_mult_alt by nra. by rewrite sqrt_square.
Qed.

Lemma stress_local_scale (E G L rad k : R) (u0 r0 u1 r1 : Vec3 R) :
  0 <= k ->
  stress_local E G L rad (scale3 k u0) (scale3 k r0) (scale3 k u1) (scale3 k r1)
  = (k * (stress_local E G L rad u0 r0 u1 r1).1,
     k * (stress_local E G L rad u0 r0 u1 r1).2).
Proof.
  intros Hk. unfold stress_local, scale3, ssq.
  cbn [vx vy vz sadd ssub smul sdiv ssqrt R_scalar fst snd].
  rewrite <- !Rmult_minus_distr_l.
  rewrite (sqrt_scale k (vy r1 - vy r0) (vz r1 - vz r0) Hk).
  set (tmp := sqrt ((vy r1 - vy r0) * (vy r1 - vy r0)
                    + (vz r1 - vz r0) * (vz r1 - vz r0))).
  replace (E * (k * (vx u1 - vx u0)) / L + E * rad / L * (k * tmp))
    with (k * (E * (vx u1 - vx u0) / L + E * rad / L * tmp))
    by (unfold Rdiv; ring).
  replace (E * (k * (vx u0 - vx u1)) / L + E * rad / L * (k * tmp))
    with (k * (E * (vx u0 - vx u1) / L + E * rad / L * tmp))
    by (unfold Rdiv; ring).
  replace (G * rad * (k * (vx r1 - vx r0)) / L)
    with (k * (G * rad * (vx r1 - vx r0) / L)) by (unfold Rdiv; ring).
  by rewrite !(sqrt_scale k _ _ Hk).
Qed.

Lemma stress_of_scale (E G : R) (P0 P1 : Vec3 R) (rad k : R) (d0 d1 : Vec6 R) :
  0 <= k ->
  stress_of E G P0 P1 rad (scale6 k d0) (scale6 k d1)
  = (k * (stress_of E G P0 P1 rad d0 d1).1,
     k * (stress_of E G P0 P1 rad d0 d1).2).
Proof.
  intros Hk. unfold stress_of, stress_axis.
  change (Np.first3 (scale6 k d0)) with (scale3 k (Np.first3 d0)).
  change (Np.first3 (scale6 k d1)) with (scale3 k (Np.first3 d1)).
  change (Np.last3 (scale6 k d0)) with (scale3 k (Np.last3 d0)).
  change (Np.last3 (scale6 k d1)) with (scale3 k (Np.last3 d1)).
  rewrite !dot_scale3. by apply stress_local_scale.
Qed.

Lemma elem_stress_scale (E G k : R) (e : Elem R) :
  0 <= k ->
  elem_stress E G (map_elem (@Datatypes.id (Vec3 R)) (@Datatypes.id R) (scale6 k) e) = xscale2 k (elem_stress E G e).
Proof.
  intros Hk.
  destruct (elem_stress_cases E G e) as [[Hwp ->]|[Hdeg ->]].
  - unfold elem_stress, map_elem. cbn [eP0 eP1 erad ed0 ed1]. unfold Datatypes.id.
    rewrite (stress_of_fin _ _ _ _ _ _ _ Hwp), (stress_of_scale _ _ _ _ _ _ _ _ Hk).
    reflexivity.
  - unfold elem_stress, map_elem. cbn [eP0 eP1 erad ed0 ed1]. unfold Datatypes.id.
    by rewrite stress_of_degenerate.
Qed.

Lemma stress_local_swap (E G L rad : R) (u0 r0 u1 r1 : Vec3 R) :
  stress_local E G L rad u1 r1 u0 r0
  = ((stress_local E G L rad u0 r0 u1 r1).2,
     (stress_local E G L rad u0 r0 u1 r1).1).
Proof.
  unfold stress_local, ssq.
  cbn [sadd ssub smul sdiv ssqrt R_scalar fst snd].
  replace ((vy r0 - vy r1) * (vy r0 - vy r1) + (vz r0 - vz r1) * (vz r0 - vz r1))
    with ((vy r1 - vy r0) * (vy r1 - vy r0) + (vz r1 - vz r0) * (vz r1 - vz r0))
    by ring.
  replace (G * rad * (vx r0 - vx r1) / L * (G * rad * (vx r0 - vx r1) / L))
    with (G * rad * (vx r1 - vx r0) / L * (G * rad * (vx r1 - vx r0) / L))
    by (unfold Rdiv; ring).
  reflexivity.
Qed.

Lemma elem_stress_swap (E G : R) (P0 P1 : Vec3 R) (rad : R) (d0 d1 : Vec6 R) :
  elem_stress E G (mkElem P0 P1 rad d1 d0)
  = ((elem_stress E G (mkElem P0 P1 rad d0 d1)).2,
     (elem_stress E G (mkElem P0 P1 rad d0 d1)).1).
Proof.
  destruct (elem_stress_cases E G (mkElem P0 P1 rad d0 d1))
    as [[Hwp ->]|[Hdeg ->]]; cbn [eP0 eP1 erad ed0 ed1] in *.
  - unfold elem_stress. cbn [eP0 eP1 erad ed0 ed1].
    rewrite (stress_of_fin _ _ _ _ _ _ _ Hwp).
    unfold stress_of, stress_axis. by rewrite stress_local_swap.
  - unfold elem_stress. cbn [eP0 eP1 erad ed0 ed1].
    by rewrite stress_of_degenerate.
Qed.

Lemma sqrt_sq_abs (a b : R) : b = 0 -> sqrt (a * a + b * b) = Rabs a.
Proof.
  intros ->. replace (a * a + 0 * 0) with (Rsqr a) by (unfold Rsqr; ring).
  apply sqrt_Rsqr_abs.
Qed.

Lemma stress_of_zero_radius (E G : R) (P0 P1 : Vec3 R) (d0 d1 : Vec6 R) :
  stress_of E G P0 P1 0 d0 d1
  = (Rabs (E * (Spec.u1x P0 P1 d1 - Spec.u0x P0 P1 d0) / Spec.L P0 P1),
     Rabs (E * (Spec.u1x P0 P1 d1 - Spec.u0x P0 P1 d0) / Spec.L P0 P1)).
Proof.
  unfold Spec.u1x, Spec.u0x. rewrite !spec_dot3, spec_L, spec_x_loc.
  unfold stress_of, stress_axis, stress_local, ssq. fold (frame_of P0 P1).
  generalize (frame_of P0 P1) as Tm. intros Tm.
  generalize (Utils.norm (Np.sub P1 P0)) as L. intros L.
  cbn [Np.dot vx vy vz sadd ssub smul sdiv ssqrt R_scalar].
  change (Spec.dot3 (row0 Tm) (Np.first3 d0))
    with (Np.inner (row0 Tm) (Np.first3 d0)).
  change (Spec.dot3 (row0 Tm) (Np.first3 d1))
    with (Np.inner (row0 Tm) (Np.first3 d1)).
  set (u1x := Np.inner (row0 Tm) (Np.first3 d1)).
  set (u0x := Np.inner (row0 Tm) (Np.first3 d0)).
  generalize (sqrt
    ((Np.inner (row1 Tm) (Np.last3 d1) - Np.inner (row1 Tm) (Np.last3 d0)) *
     (Np.inner (row1 Tm) (Np.last3 d1) - Np.inner (row1 Tm) (Np.last3 d0)) +
     (Np.inner (row2 Tm) (Np.last3 d1) - Np.inner (row2 Tm) (Np.last3 d0)) *
     (Np.inner (row2 Tm) (Np.last3 d1) - Np.inner (row2 Tm) (Np.last3 d0))))
    as tmp. intros tmp.
  replace (E * (u1x - u0x) / L + E * 0 / L * tmp) with (E * (u1x - u0x) / L)
    by (unfold Rdiv; ring).
  replace (E * (u0x - u1x) / L + E * 0 / L * tmp) with (- (E * (u1x - u0x) / L))
    by (unfold Rdiv; ring).
  f_equal.
  - apply sqrt_sq_abs. unfold Rdiv; ring.
  - rewrite <- (Rabs_Ropp (E * (u1x - u0x) / L)).
    apply sqrt_sq_abs. unfold Rdiv; ring.
Qed.

Lemma stress_of_nonneg (E G : R) (P0 P1 : Vec3 R) (rad : R) (d0 d1 : Vec6 R) :
  0 <= (stress_of E G P0 P1 rad d0 d1).1 /\
  0 <= (stress_of E G P0 P1 rad d0 d1).2.
Proof.
  unfold stress_of, stress_axis, stress_local. cbn [fst snd ssqrt R_scalar].
  split; apply sqrt_pos.
Qed.
End Invariances.
(** ** What a user of [compute] can rely on, on real input arrays *)
Section ComputeReal.
Local Open Scope R_scope.
Implicit Types (nodesR : list (Vec3 R)) (radiusR : list R)
  (dispR : list (Vec6 R)) (Tini : Mat3 xreal) (buf : list (xreal * xreal)).

Lemma elements_fmap_nodes (f : Vec3 R -> Vec3 R) nodesR radiusR dispR :
  elements (f <$> nodesR) radiusR dispR
  = map_elem f (@Datatypes.id R) (@Datatypes.id (Vec6 R)) <$> elements nodesR radiusR dispR.
Proof.
  pose proof (elements_fmap f (@Datatypes.id R) (@Datatypes.id (Vec6 R)) nodesR radiusR dispR) as Hmap.
  by rewrite !list_fmap_id in Hmap.
Qed.

Lemma elements_fmap_disp (h : Vec6 R -> Vec6 R) nodesR radiusR dispR :
  elements nodesR radiusR (h <$> dispR)
  = map_elem (@Datatypes.id (Vec3 R)) (@Datatypes.id R) h <$> elements nodesR radiusR dispR.
Proof.
  pose proof (elements_fmap (@Datatypes.id (Vec3 R)) (@Datatypes.id R) h nodesR radiusR dispR) as Hmap.
  by rewrite !list_fmap_id in Hmap.
Qed.

(** X5. Every row of the output is of one of two kinds: both stresses
    non-finite, exactly when the element is degenerate, or both stresses
    finite and not negative, exactly when it is well posed. *)
Theorem stress_row_finite_or_not cv (ny : nat) (E G : R) nodesR radiusR dispR
    Tini buf (i : nat) (P0 P1 : Vec3 R) (rad : R) (d0 d1 : Vec6 R) :
  real_shapes ny nodesR radiusR dispR buf ->
  real_element nodesR radiusR dispR i P0 P1 rad d0 d1 ->
  exists st' p,
    compute cv false ny (Some E) (Some G)
      (fin_store nodesR radiusR dispR Tini buf) = Some st' /\
    vonmises st' !! i = Some p /\
    (p = (None, None) <-> degenerate P0 P1) /\
    ((exists a b, p = (Some a, Some b) /\ 0 <= a /\ 0 <= b)
     <-> well_posed P0 P1).
Proof.
  intros Hsh Hel.
  destruct (compute_python cv ny (Some E) (Some G) _
              (well_shaped_fin ny _ _ _ Tini _ Hsh))
    as (st' & Hrun & _ & _ & _ & _ & Hrow).
  exists st', (stress_of (Some E) (Some G) (fin3 P0) (fin3 P1) (Some rad)
                 (fin6 d0) (fin6 d1)).
  split; [exact Hrun|].
  split; [exact (Hrow i _ _ _ _ _ (element_at_fin _ _ _ Tini buf i _ _ _ _ _ Hel))|].
  destruct (well_posed_or_degenerate P0 P1) as [Hwp|Hdeg].
  - rewrite (stress_of_fin E G P0 P1 rad d0 d1 Hwp).
    pose proof (stress_of_nonneg E G P0 P1 rad d0 d1) as [Ha Hb].
    split; split; try done.
    + intros Hd. by apply well_posed_not_degenerate in Hd.
    + intros _. eexists _, _. split; [reflexivity|]. by split.
  - rewrite (stress_of_degenerate _ _ P0 P1 _ _ _ Hdeg).
    split; split; try done.
    + intros (a & b & Hab & _). discriminate.
    + intros Hwp. by apply well_posed_not_degenerate in Hwp.
Qed.

(** X6. Moving the whole beam by a vector [t] changes no stress: the nodes
    enter through the differences of consecutive nodes only. *)
Theorem translation_invariant cv (ny : nat) (E G : R) nodesR radiusR dispR
    Tini buf (t : Vec3 R) :
  real_shapes ny nodesR radiusR dispR buf ->
  exists st' stt,
    compute cv false ny (Some E) (Some G)
      (fin_store nodesR radiusR dispR Tini buf) = Some st' /\
    compute cv false ny (Some E) (Some G)
      (fin_store (add3 t <$> nodesR) radiusR dispR Tini buf) = Some stt /\
    vonmises stt = vonmises st'.
Proof.
  intros Hsh.
  destruct (compute_fin_rows cv ny E G nodesR radiusR dispR Tini buf Hsh)
    as (st' & Hrun & Hvm).
  assert (Hsht : real_shapes ny (add3 t <$> nodesR) radiusR dispR buf).
  { destruct Hsh as (? & ? & ? & ?). unfold real_shapes.
    by rewrite length_fmap. }
  destruct (compute_fin_rows cv ny E G _ radiusR dispR Tini buf Hsht)
    as (stt & Hrunt & Hvmt).
  exists st', stt. split; [exact Hrun|]. split; [exact Hrunt|].
  rewrite Hvmt, Hvm, elements_fmap_nodes, <- list_fmap_compose.
  apply list_fmap_ext. intros j e _. apply elem_stress_translate.
Qed.

(** X7. Adding one and the same displacement (translation and rotation) to
    every node changes no stress: the displacements enter through the
    differences between the two ends of an element only. *)
Theorem rigid_displacement_invariant cv (ny : nat) (E G : R) nodesR radiusR
    dispR Tini buf (c : Vec6 R) :
  real_shapes ny nodesR radiusR dispR buf ->
  exists st' stc,
    compute cv false ny (Some E) (Some G)
      (fin_store nodesR radiusR dispR Tini buf) = Some st' /\
    compute cv false ny (Some E) (Some G)
      (fin_store nodesR radiusR (add6 c <$> dispR) Tini buf) = Some stc /\
    vonmises stc = vonmises st'.
Proof.
  intros Hsh.
  destruct (compute_fin_rows cv ny E G nodesR radiusR dispR Tini buf Hsh)
    as (st' & Hrun & Hvm).
  assert (Hshc : real_shapes ny nodesR radiusR (add6 c <$> dispR) buf).
  { destruct Hsh as (? & ? & ? & ?). unfold real_shapes.
    by rewrite length_fmap. }
  destruct (compute_fin_rows cv ny E G nodesR radiusR _ Tini buf Hshc)
    as (stc & Hrunc & Hvmc).
  exists st', stc. split; [exact Hrun|]. split; [exact Hrunc|].
  rewrite Hvmc, Hvm, elements_fmap_disp, <- list_fmap_compose.
  apply list_fmap_ext. intros j e _. apply elem_stress_rigid.
Qed.

(** X8. Multiplying every displacement by a factor [k >= 0] multiplies
    every stress by [k] (a non-finite stress stays non-finite). *)
Theorem displacement_scaling cv (ny : nat) (E G : R) nodesR radiusR dispR
    Tini buf (k : R) :
  0 <= k ->
  real_shapes ny nodesR radiusR dispR buf ->
  exists st' stk,
    compute cv false ny (Some E) (Some G)
      (fin_store nodesR radiusR dispR Tini buf) = Some st' /\
    compute cv false ny (Some E) (Some G)
      (fin_store nodesR radiusR (scale6 k <$> dispR) Tini buf) = Some stk /\
    vonmises stk = xscale2 k <$> vonmises st'.
Proof.
  intros Hk Hsh.
  destruct (compute_fin_rows cv ny E G nodesR radiusR dispR Tini buf Hsh)
    as (st' & Hrun & Hvm).
  assert (Hshk : real_shapes ny nodesR radiusR (scale6 k <$> dispR) buf).
  { destruct Hsh as (? & ? & ? & ?). unfold real_shapes.
    by rewrite length_fmap. }
  destruct (compute_fin_rows cv ny E G nodesR radiusR _ Tini buf Hshk)
    as (stk & Hrunk & Hvmk).
  exists st', stk. split; [exact Hrun|]. split; [exact Hrunk|].
  rewrite Hvmk, Hvm, elements_fmap_disp, <- !list_fmap_compose.
  apply list_fmap_ext. intros j e _. by apply elem_stress_scale.
Qed.

(** X9. On a beam of one element, exchanging the displacements of the two
    nodes exchanges the two stresses of the element. *)
Theorem swap_ends cv (E G : R) (P0 P1 : Vec3 R) (rad : R) (d0 d1 : Vec6 R)
    Tini (p : xreal * xreal) :
  exists st' sts a b,
    compute cv false 2 (Some E) (Some G)
      (fin_store [P0; P1] [rad] [d0; d1] Tini [p]) = Some st' /\
    compute cv false 2 (Some E) (Some G)
      (fin_store [P0; P1] [rad] [d1; d0] Tini [p]) = Some sts /\
    vonmises st' = [(a, b)] /\ vonmises sts = [(b, a)].
Proof.
  assert (Hsh : forall e0 e1, real_shapes 2 [P0; P1] [rad] [e0; e1] [p])
    by done.
  destruct (compute_fin_rows cv 2 E G _ _ _ Tini [p] (Hsh d0 d1))
    as (st' & Hrun & Hvm).
  destruct (compute_fin_rows cv 2 E G _ _ _ Tini [p] (Hsh d1 d0))
    as (sts & Hruns & Hvms).
  exists st', sts, (elem_stress E G (mkElem P0 P1 rad d0 d1)).1,
    (elem_stress E G (mkElem P0 P1 rad d0 d1)).2.
  split; [exact Hrun|]. split; [exact Hruns|].
  rewrite Hvm, Hvms. cbn [elements fmap list_fmap].
  rewrite elem_stress_swap. split; [|reflexivity].
  by rewrite <- surjective_pairing.
Qed.

(** X10. For a well-posed element of radius zero the bending and the
    torsion terms vanish: both stresses are the absolute value of the axial
    term [E * (u1x - u0x) / L]. *)
Theorem zero_radius_axial cv (ny : nat) (E G : R) nodesR radiusR dispR
    Tini buf (i : nat) (P0 P1 : Vec3 R) (d0 d1 : Vec6 R) :
  real_shapes ny nodesR radiusR dispR buf ->
  real_element nodesR radiusR dispR i P0 P1 0 d0 d1 ->
  well_posed P0 P1 ->
  exists st',
    compute cv false ny (Some E) (Some G)
      (fin_store nodesR radiusR dispR Tini buf) = Some st' /\
    vonmises st' !! i
    = Some (Some (Rabs (E * (Spec.u1x P0 P1 d1 - Spec.u0x P0 P1 d0)
                        / Spec.L P0 P1)),
            Some (Rabs (E * (Spec.u1x P0 P1 d1 - Spec.u0x P0 P1 d0)
                        / Spec.L P0 P1))).
Proof.
  intros Hsh Hel Hwp.
  destruct (compute_python cv ny (Some E) (Some G) _
              (well_shaped_fin ny _ _ _ Tini _ Hsh))
    as (st' & Hrun & _ & _ & _ & _ & Hrow).
  exists st'. split; [exact Hrun|].
  rewrite (Hrow i _ _ _ _ _ (element_at_fin _ _ _ Tini buf i _ _ _ _ _ Hel)).
  by rewrite (stress_of_fin E G P0 P1 0 d0 d1 Hwp), stress_of_zero_radius.
Qed.

(** X11. On the values that [initialize_variables] declares for one node
    or more, all zero, every element has zero length: [compute] returns and
    every stress is non-finite. *)
Theorem default_values_non_finite cv (ny : nat) (E G : xreal) :
  (1 <= ny)%nat ->
  exists st0 st',
    initialize_variables ny = Some st0 /\
    compute cv false ny E G st0 = Some st' /\
    vonmises st' = replicate (ny - 1) (None, None).
Proof.
  intros Hny. unfold initialize_variables.
  rewrite decide_False by lia.
  eexists.
  assert (Hws : well_shaped ny
            (mkStore (replicate ny (mkVec3 szero szero szero))
               (replicate (ny - 1) szero)
               (replicate ny (mkVec6 szero szero szero szero szero szero))
               (zeros33 (A:=xreal))
               (replicate (ny - 1) (szero, szero)))).
  { unfold well_shaped. cbn [nodes radius disp vonmises].
    by rewrite !length_replicate. }
  destruct (compute_python cv ny E G _ Hws)
    as (st' & Hrun & _ & _ & _ & Hlen & Hrow).
  exists st'. split; [reflexivity|]. split; [exact Hrun|].
  apply list_eq. intros i.
  destruct (decide (i < ny - 1)%nat) as [Hi|Hi].
  - rewrite lookup_replicate_2 by exact Hi.
    rewrite (Hrow i (fin3 zero3) (fin3 zero3) (Some 0) (fin6 zero6) (fin6 zero6)).
    + f_equal. apply stress_of_degenerate. by left.
    + unfold element_at. cbn [nodes radius disp].
      rewrite !lookup_replicate_2 by lia. done.
  - rewrite (lookup_ge_None_2 (vonmises st')) by lia.
    symmetry. apply lookup_replicate_None. lia.
Qed.
End ComputeReal.
(** ** More on the derivative operation *)
Section JacVecModes.
Local Open Scope R_scope.
Variable cd :
  list (Vec3 R) -> list (Vec3 R) -> list R -> list R ->
  list (Vec6 R) -> list (Vec6 R) -> R -> R -> Vec3 R ->
  list (R * R) * list (R * R).
Variable cb :
  list (Vec3 R) -> list R -> list (Vec6 R) -> R -> R -> Vec3 R ->
  list (R * R) -> list (R * R) ->
  list (Vec3 R) * list R * list (Vec6 R).

(** X12. A mode other than [fwd] and [rev] is ignored: the call returns
    and changes neither seeds nor accumulators. *)
Theorem jacvec_unknown_mode (E G : R) (inputs : Inputs) (outputs : Outputs)
    (mode : string) (d : Derivs) :
  mode <> "fwd"%string -> mode <> "rev"%string ->
  compute_jacvec_product cd cb E G inputs outputs mode d = Some d.
Proof.
  intros Hf Hr. unfold compute_jacvec_product.
  apply String.eqb_neq in Hf, Hr. by rewrite Hf, Hr.
Qed.

(** X13. A call that returns has changed only the accumulators of its
    mode: [d_inputs] is as before unless the mode is [rev], and
    [d_outputs] is as before unless the mode is [fwd]. *)
Theorem jacvec_changes_only_its_mode (E G : R) (inputs : Inputs)
    (outputs : Outputs) (mode : string) (d d' : Derivs) :
  compute_jacvec_product cd cb E G inputs outputs mode d = Some d' ->
  (mode <> "rev"%string ->
   d_nodes d' = d_nodes d /\ d_radius d' = d_radius d /\
   d_disp d' = d_disp d) /\
  (mode <> "fwd"%string -> d_vonmises d' = d_vonmises d).
Proof.
  unfold compute_jacvec_product. intros Hrun.
  destruct (String.eqb mode "fwd") eqn:Hf.
  - apply String.eqb_eq in Hf. subst mode.
    cbn [String.eqb Ascii.eqb Bool.eqb] in Hrun.
    destruct (iadd add2 _ _) as [vm|]; [|discriminate].
    cbn [mbind option_bind] in Hrun. injection Hrun as <-.
    split; [done|]. intros Hne. by destruct Hne.
  - cbn [mbind option_bind] in Hrun.
    destruct (String.eqb mode "rev") eqn:Hr.
    + apply String.eqb_eq in Hr. subst mode.
      destruct (iadd add3 _ _) as [n|]; [|discriminate].
      cbn [mbind option_bind] in Hrun.
      destruct (iadd Rplus _ _) as [r|]; [|discriminate].
      cbn [mbind option_bind] in Hrun.
      destruct (iadd add6 _ _) as [q|]; [|discriminate].
      cbn [mbind option_bind] in Hrun. injection Hrun as <-.
      split; [|done]. intros Hne. by destruct Hne.
    + injection Hrun as <-. done.
Qed.

Lemma zip_with_accumulate {X : Type} (f : X -> X -> X) (g h : X -> X) :
  (forall x y, f (f x y) (g y) = f x (h y)) ->
  forall a c : list X,
    zip_with f (zip_with f a c) (g <$> c) = zip_with f a (h <$> c).
Proof.
  intros Hfg a. induction a as [|x a IH]; intros [|y c]; simpl; try done.
  by rewrite Hfg, IH.
Qed.

Lemma zip_with_neutral {X : Type} (f : X -> X -> X) (g : X -> X) :
  (forall x y, f x (g y) = x) ->
  forall a c : list X, length a = length c -> zip_with f a (g <$> c) = a.
Proof.
  intros Hfg a. induction a as [|x a IH]; intros [|y c] Hl; simpl;
    try done.
  rewrite Hfg, IH; [done|]. simpl in Hl. lia.
Qed.

Lemma add2_acc (n : nat) (p q : R * R) :
  add2 (add2 p q) (scale2 (INR n) q) = add2 p (scale2 (INR (S n)) q).
Proof. rewrite S_INR. unfold add2, scale2; simpl. f_equal; ring. Qed.

Lemma add3_acc (n : nat) (a b : Vec3 R) :
  add3 (add3 a b) (scale3 (INR n) b) = add3 a (scale3 (INR (S n)) b).
Proof. rewrite S_INR. unfold add3, scale3; simpl. f_equal; ring. Qed.

Lemma add6_acc (n : nat) (a b : Vec6 R) :
  add6 (add6 a b) (scale6 (INR n) b) = add6 a (scale6 (INR (S n)) b).
Proof. rewrite S_INR. unfold add6, scale6; simpl. f_equal; ring. Qed.

Lemma Rplus_acc (n : nat) (a b : R) : a + b + INR n * b = a + INR (S n) * b.
Proof. rewrite S_INR. ring. Qed.

Lemma add2_zero (p q : R * R) : add2 p (scale2 (INR 0) q) = p.
Proof. destruct p. unfold add2, scale2; simpl. f_equal; ring. Qed.

Lemma add3_zero (a b : Vec3 R) : add3 a (scale3 (INR 0) b) = a.
Proof. destruct a. unfold add3, scale3; simpl. f_equal; ring. Qed.

Lemma add6_zero (a b : Vec6 R) : add6 a (scale6 (INR 0) b) = a.
Proof. destruct a. unfold add6, scale6; simpl. f_equal; ring. Qed.

Lemma Rplus_zero (a b : R) : a + INR 0 * b = a.
Proof. simpl. ring. Qed.

(** One call in mode [fwd]. *)
Lemma fwd_call (E G : R) (inputs : Inputs) (outputs : Outputs)
    (nd : list (Vec3 R)) (rd : list R) (dd : list (Vec6 R)) (a : list (R * R)) :
  length a = length (fwd_contribution cd E G inputs (mkDerivs nd rd dd a)) ->
  compute_jacvec_product cd cb E G inputs outputs "fwd" (mkDerivs nd rd dd a)
  = Some (mkDerivs nd rd dd
            (zip_with add2 a
               (fwd_contribution cd E G inputs (mkDerivs nd rd dd a)))).
Proof.
  intros Hl. unfold compute_jacvec_product.
  cbn [String.eqb Ascii.eqb Bool.eqb].
  fold (fwd_contribution cd E G inputs (mkDerivs nd rd dd a)).
  cbn [d_vonmises d_nodes d_radius d_disp].
  by rewrite (iadd_same_length add2 _ _ Hl).
Qed.

(** One call in mode [rev]. *)
Lemma rev_call (E G : R) (inputs : Inputs) (outputs : Outputs)
    (seed : list (R * R)) (na : list (Vec3 R)) (ra : list R)
    (da : list (Vec6 R)) :
  length na
  = length (rev_contribution cb E G inputs outputs
              (mkDerivs na ra da seed)).1.1 ->
  length ra
  = length (rev_contribution cb E G inputs outputs
              (mkDerivs na ra da seed)).1.2 ->
  length da
  = length (rev_contribution cb E G inputs outputs
              (mkDerivs na ra da seed)).2 ->
  compute_jacvec_product cd cb E G inputs outputs "rev"
    (mkDerivs na ra da seed)
  = Some (mkDerivs
            (zip_with add3 na
               (rev_contribution cb E G inputs outputs
                  (mkDerivs na ra da seed)).1.1)
            (zip_with Rplus ra
               (rev_contribution cb E G inputs outputs
                  (mkDerivs na ra da seed)).1.2)
            (zip_with add6 da
               (rev_contribution cb E G inputs outputs
                  (mkDerivs na ra da seed)).2)
            seed).
Proof.
  intros Hn Hr Hd. unfold compute_jacvec_product.
  cbn [String.eqb Ascii.eqb Bool.eqb mbind option_bind].
  fold (rev_contribution cb E G inputs outputs (mkDerivs na ra da seed)).
  cbn [d_vonmises d_nodes d_radius d_disp].
  rewrite (iadd_same_length add3 _ _ Hn).
  rewrite (iadd_same_length Rplus _ _ Hr).
  by rewrite (iadd_same_length add6 _ _ Hd).
Qed.

(** [n] calls in mode [fwd], from any content [a] of the accumulator. *)
Lemma fwd_calls (E G : R) (inputs : Inputs) (outputs : Outputs)
    (nd : list (Vec3 R)) (rd : list R) (dd : list (Vec6 R)) (n : nat) :
  forall a : list (R * R),
    length a
    = length (fwd_contribution cd E G inputs (mkDerivs nd rd dd a)) ->
    iterate_calls (compute_jacvec_product cd cb E G inputs outputs "fwd") n
      (mkDerivs nd rd dd a)
    = Some (mkDerivs nd rd dd
              (zip_with add2 a
                 (scale2 (INR n)
                    <$> fwd_contribution cd E G inputs (mkDerivs nd rd dd a)))).
Proof.
  pose proof (fwd_call E G inputs outputs nd rd dd) as Hcall.
  unfold fwd_contribution in *. cbn [d_nodes d_radius d_disp] in *.
  set (c := (cd _ _ _ _ _ _ _ _ _).2) in *.
  induction n as [|n IH]; intros a Hl.
  - cbn [iterate_calls]. by rewrite (zip_with_neutral add2 _ add2_zero).
  - cbn [iterate_calls]. rewrite (Hcall a Hl).
    cbn [mbind option_bind].
    rewrite IH by (rewrite length_zip_with; lia).
    by rewrite (zip_with_accumulate add2 _ _ (add2_acc n)).
Qed.

(** [n] calls in mode [rev], from any content of the accumulators. *)
Lemma rev_calls (E G : R) (inputs : Inputs) (outputs : Outputs)
    (seed : list (R * R)) (n : nat) :
  forall (na : list (Vec3 R)) (ra : list R) (da : list (Vec6 R)),
    length na
    = length (rev_contribution cb E G inputs outputs
                (mkDerivs na ra da seed)).1.1 ->
    length ra
    = length (rev_contribution cb E G inputs outputs
                (mkDerivs na ra da seed)).1.2 ->
    length da
    = length (rev_contribution cb E G inputs outputs
                (mkDerivs na ra da seed)).2 ->
    iterate_calls (compute_jacvec_product cd cb E G inputs outputs "rev") n
      (mkDerivs na ra da seed)
    = Some (mkDerivs
              (zip_with add3 na
                 (scale3 (INR n)
                    <$> (rev_contribution cb E G inputs outputs
                           (mkDerivs na ra da seed)).1.1))
              (zip_with Rplus ra
                 (Rmult (INR n)
                    <$> (rev_contribution cb E G inputs outputs
                           (mkDerivs na ra da seed)).1.2))
              (zip_with add6 da
                 (scale6 (INR n)
                    <$> (rev_contribution cb E G inputs outputs
                           (mkDerivs na ra da seed)).2))
              seed).
Proof.
  pose proof (rev_call E G inputs outputs seed) as Hcall.
  unfold rev_contribution in *. cbn [d_vonmises] in *.
  set (b := cb _ _ _ _ _ _ _ _) in *.
  induction n as [|n IH]; intros na ra da Hn Hr Hd.
  - cbn [iterate_calls].
    rewrite (zip_with_neutral add3 _ add3_zero) by exact Hn.
    rewrite (zip_with_neutral Rplus _ Rplus_zero) by exact Hr.
    by rewrite (zip_with_neutral add6 _ add6_zero).
  - cbn [iterate_calls]. rewrite (Hcall na ra da Hn Hr Hd).
    cbn [mbind option_bind].
    rewrite IH by (rewrite length_zip_with; lia).
    rewrite (zip_with_accumulate add3 _ _ (add3_acc n)).
    rewrite (zip_with_accumulate Rplus _ _ (Rplus_acc n)).
    by rewrite (zip_with_accumulate add6 _ _ (add6_acc n)).
Qed.

(** X14. The shapes agreeing, [n] calls with the same seed leave the
    accumulators of the mode at their former content plus [n] times what
    one call adds, for every [n], in both modes. *)
Theorem jacvec_n_calls (E G : R) (inputs : Inputs) (outputs : Outputs)
    (d : Derivs) (n : nat) :
  length (d_vonmises d) = length (fwd_contribution cd E G inputs d) ->
  length (d_nodes d) = length (rev_contribution cb E G inputs outputs d).1.1 ->
  length (d_radius d) = length (rev_contribution cb E G inputs outputs d).1.2 ->
  length (d_disp d) = length (rev_contribution cb E G inputs outputs d).2 ->
  iterate_calls (compute_jacvec_product cd cb E G inputs outputs "fwd") n d
  = Some (mkDerivs (d_nodes d) (d_radius d) (d_disp d)
            (zip_with add2 (d_vonmises d)
               (scale2 (INR n) <$> fwd_contribution cd E G inputs d))) /\
  iterate_calls (compute_jacvec_product cd cb E G inputs outputs "rev") n d
  = Some (mkDerivs
            (zip_with add3 (d_nodes d)
               (scale3 (INR n)
                  <$> (rev_contribution cb E G inputs outputs d).1.1))
            (zip_with Rplus (d_radius d)
               (Rmult (INR n)
                  <$> (rev_contribution cb E G inputs outputs d).1.2))
            (zip_with add6 (d_disp d)
               (scale6 (INR n)
                  <$> (rev_contribution cb E G inputs outputs d).2))
            (d_vonmises d)).
Proof.
  destruct d as [nd rd dd vm]. cbn [d_nodes d_radius d_disp d_vonmises].
  intros Hl Hn Hr Hd. split.
  - by apply fwd_calls.
  - by apply rev_calls.
Qed.
End JacVecModes.
(** ** The further theorems at sample data *)
Section MoreWitnesses.
Local Open Scope R_scope.

Ltac solve_well_posed' :=
  split;
  [ intros Heq; injection Heq; intros; lra
  | unfold parallel_x_gl, Np.cross, Np.sub, zero3; simpl;
    intros Heq; injection Heq; intros; lra ].

Lemma compute_writes_no_other_row_witness :
  big_enough 3
    (fin_store beam_nodes beam_radius beam_disp stale_T long_vonmises) /\
  exists st',
    compute no_backend false 3 (Some scen_E) (Some scen_G)
      (fin_store beam_nodes beam_radius beam_disp stale_T long_vonmises)
    = Some st' /\
    length (vonmises st') = length long_vonmises /\
    forall i : nat, (3 - 1 <= i)%nat ->
      vonmises st' !! i = long_vonmises !! i.
Proof.
  assert (H1 : big_enough 3
                 (fin_store beam_nodes beam_radius beam_disp stale_T
                    long_vonmises)).
  { unfold big_enough; simpl. lia. }
  split; [exact H1|].
  exact (compute_writes_no_other_row no_backend 3 (Some scen_E) (Some scen_G)
           _ H1).
Defined.

Lemma compute_leaves_last_frame_witness :
  (2 <= 3)%nat /\
  big_enough 3
    (fin_store beam_nodes beam_radius beam_disp stale_T stale_vonmises) /\
  exists st',
    compute no_backend false 3 (Some scen_E) (Some scen_G)
      (fin_store beam_nodes beam_radius beam_disp stale_T stale_vonmises)
    = Some st' /\
    T st' = frame_of (fin3 (mkVec3 1 0 1)) (fin3 (mkVec3 2 1 1)).
Proof.
  assert (H1 : (2 <= 3)%nat) by lia.
  assert (H2 : big_enough 3
                 (fin_store beam_nodes beam_radius beam_disp stale_T
                    stale_vonmises)).
  { unfold big_enough; simpl. lia. }
  split; [exact H1|]. split; [exact H2|].
  exact (compute_leaves_last_frame no_backend 3 (Some scen_E) (Some scen_G)
           _ _ _ H1 H2 eq_refl eq_refl).
Defined.

Lemma compute_idempotent_witness :
  big_enough 3
    (fin_store beam_nodes beam_radius beam_disp stale_T stale_vonmises) /\
  exists st',
    compute no_backend false 3 (Some scen_E) (Some scen_G)
      (fin_store beam_nodes beam_radius beam_disp stale_T stale_vonmises)
    = Some st' /\
    compute no_backend false 3 (Some scen_E) (Some scen_G) st' = Some st'.
Proof.
  assert (H1 : big_enough 3
                 (fin_store beam_nodes beam_radius beam_disp stale_T
                    stale_vonmises)).
  { unfold big_enough; simpl. lia. }
  split; [exact H1|].
  exact (compute_idempotent no_backend 3 (Some scen_E) (Some scen_G) _ H1).
Defined.

Lemma stress_row_finite_or_not_witness :
  real_shapes 3 flat_nodes beam_radius beam_disp stale_vonmises /\
  real_element flat_nodes beam_radius beam_disp 1
    (mkVec3 2 0 0) (mkVec3 2 0 0) 0.2
    (mkVec6 0.01 0 0.02 0 0.001 0) (mkVec6 0 0.03 0 0.002 0 0) /\
  exists st' p,
    compute no_backend false 3 (Some scen_E) (Some scen_G)
      (fin_store flat_nodes beam_radius beam_disp stale_T stale_vonmises)
    = Some st' /\
    vonmises st' !! 1%nat = Some p /\
    (p = (None, None) <-> degenerate (mkVec3 2 0 0) (mkVec3 2 0 0)) /\
    ((exists a b, p = (Some a, Some b) /\ 0 <= a /\ 0 <= b)
     <-> well_posed (mkVec3 2 0 0) (mkVec3 2 0 0)).
Proof.
  assert (H1 : real_shapes 3 flat_nodes beam_radius beam_disp stale_vonmises)
    by (repeat split; reflexivity).
  assert (H2 : real_element flat_nodes beam_radius beam_disp 1
                 (mkVec3 2 0 0) (mkVec3 2 0 0) 0.2
                 (mkVec6 0.01 0 0.02 0 0.001 0) (mkVec6 0 0.03 0 0.002 0 0))
    by (repeat split; reflexivity).
  split; [exact H1|]. split; [exact H2|].
  exact (stress_row_finite_or_not no_backend 3 scen_E scen_G flat_nodes
           beam_radius beam_disp stale_T stale_vonmises 1 _ _ _ _ _ H1 H2).
Defined.

Lemma translation_invariant_witness :
  real_shapes 3 beam_nodes beam_radius beam_disp stale_vonmises /\
  exists st' stt,
    compute no_backend false 3 (Some scen_E) (Some scen_G)
      (fin_store beam_nodes beam_radius beam_disp stale_T stale_vonmises)
    = Some st' /\
    compute no_backend false 3 (Some scen_E) (Some scen_G)
      (fin_store (add3 (mkVec3 5 (-3) 2) <$> beam_nodes) beam_radius beam_disp
         stale_T stale_vonmises)
    = Some stt /\
    vonmises stt = vonmises st'.
Proof.
  assert (H1 : real_shapes 3 beam_nodes beam_radius beam_disp stale_vonmises)
    by (repeat split; reflexivity).
  split; [exact H1|].
  exact (translation_invariant no_backend 3 scen_E scen_G beam_nodes
           beam_radius beam_disp stale_T stale_vonmises (mkVec3 5 (-3) 2) H1).
Defined.

Lemma rigid_displacement_invariant_witness :
  real_shapes 3 beam_nodes beam_radius beam_disp stale_vonmises /\
  exists st' stc,
    compute no_backend false 3 (Some scen_E) (Some scen_G)
      (fin_store beam_nodes beam_radius beam_disp stale_T stale_vonmises)
    = Some st' /\
    compute no_backend false 3 (Some scen_E) (Some scen_G)
      (fin_store beam_nodes beam_radius
         (add6 (mkVec6 1 2 3 0.1 0.2 0.3) <$> beam_disp)
         stale_T stale_vonmises)
    = Some stc /\
    vonmises stc = vonmises st'.
Proof.
  assert (H1 : real_shapes 3 beam_nodes beam_radius beam_disp stale_vonmises)
    by (repeat split; reflexivity).
  split; [exact H1|].
  exact (rigid_displacement_invariant no_backend 3 scen_E scen_G beam_nodes
           beam_radius beam_disp stale_T stale_vonmises
           (mkVec6 1 2 3 0.1 0.2 0.3) H1).
Defined.

Lemma displacement_scaling_witness :
  0 <= 3 /\
  real_shapes 3 beam_nodes beam_radius beam_disp stale_vonmises /\
  exists st' stk,
    compute no_backend false 3 (Some scen_E) (Some scen_G)
      (fin_store beam_nodes beam_radius beam_disp stale_T stale_vonmises)
    = Some st' /\
    compute no_backend false 3 (Some scen_E) (Some scen_G)
      (fin_store beam_nodes beam_radius (scale6 3 <$> beam_disp)
         stale_T stale_vonmises)
    = Some stk /\
    vonmises stk = xscale2 3 <$> vonmises st'.
Proof.
  assert (H0 : 0 <= 3) by lra.
  assert (H1 : real_shapes 3 beam_nodes beam_radius beam_disp stale_vonmises)
    by (repeat split; reflexivity).
  split; [exact H0|]. split; [exact H1|].
  exact (displacement_scaling no_backend 3 scen_E scen_G beam_nodes
           beam_radius beam_disp stale_T stale_vonmises 3 H0 H1).
Defined.

Lemma zero_radius_axial_witness :
  real_shapes 3 beam_nodes thin_radius beam_disp stale_vonmises /\
  real_element beam_nodes thin_radius beam_disp 1
    (mkVec3 1 0 1) (mkVec3 2 1 1) 0
    (mkVec6 0.01 0 0.02 0 0.001 0) (mkVec6 0 0.03 0 0.002 0 0) /\
  well_posed (mkVec3 1 0 1) (mkVec3 2 1 1) /\
  exists st',
    compute no_backend false 3 (Some scen_E) (Some scen_G)
      (fin_store beam_nodes thin_radius beam_disp stale_T stale_vonmises)
    = Some st' /\
    vonmises st' !! 1%nat
    = Some
        (Some (Rabs (scen_E
                     * (Spec.u1x (mkVec3 1 0 1) (mkVec3 2 1 1)
                          (mkVec6 0 0.03 0 0.002 0 0)
                        - Spec.u0x (mkVec3 1 0 1) (mkVec3 2 1 1)
                            (mkVec6 0.01 0 0.02 0 0.001 0))
                     / Spec.L (mkVec3 1 0 1) (mkVec3 2 1 1))),
         Some (Rabs (scen_E
                     * (Spec.u1x (mkVec3 1 0 1) (mkVec3 2 1 1)
                          (mkVec6 0 0.03 0 0.002 0 0)
                        - Spec.u0x (mkVec3 1 0 1) (mkVec3 2 1 1)
                            (mkVec6 0.01 0 0.02 0 0.001 0))
                     / Spec.L (mkVec3 1 0 1) (mkVec3 2 1 1)))).
Proof.
  assert (H1 : real_shapes 3 beam_nodes thin_radius beam_disp stale_vonmises)
    by (repeat split; reflexivity).
  assert (H2 : real_element beam_nodes thin_radius beam_disp 1
                 (mkVec3 1 0 1) (mkVec3 2 1 1) 0
                 (mkVec6 0.01 0 0.02 0 0.001 0) (mkVec6 0 0.03 0 0.002 0 0))
    by (repeat split; reflexivity).
  assert (H3 : well_posed (mkVec3 1 0 1) (mkVec3 2 1 1))
    by solve_well_posed'.
  split; [exact H1|]. split; [exact H2|]. split; [exact H3|].
  exact (zero_radius_axial no_backend 3 scen_E scen_G beam_nodes thin_radius
           beam_disp stale_T stale_vonmises 1 _ _ _ _ H1 H2 H3).
Defined.

Lemma default_values_non_finite_witness :
  (1 <= 4)%nat /\
  exists st0 st',
    initialize_variables 4 = Some st0 /\
    compute no_backend false 4 (Some scen_E) (Some scen_G) st0 = Some st' /\
    vonmises st' = replicate (4 - 1) (None, None).
Proof.
  assert (H1 : (1 <= 4)%nat) by lia.
  split; [exact H1|].
  exact (default_values_non_finite no_backend 4 (Some scen_E) (Some scen_G)
           H1).
Defined.

Lemma jacvec_unknown_mode_witness :
  "jac"%string <> "fwd"%string /\ "jac"%string <> "rev"%string /\
  compute_jacvec_product const_backend_d const_backend_b scen_E scen_G
    (beam_inputs 0) (beam_outputs 0) "jac" beam_derivs
  = Some beam_derivs.
Proof.
  assert (H1 : "jac"%string <> "fwd"%string) by discriminate.
  assert (H2 : "jac"%string <> "rev"%string) by discriminate.
  split; [exact H1|]. split; [exact H2|].
  exact (jacvec_unknown_mode const_backend_d const_backend_b scen_E scen_G
           (beam_inputs 0) (beam_outputs 0) "jac" beam_derivs H1 H2).
Defined.

Lemma jacvec_changes_only_its_mode_witness :
  compute_jacvec_product const_backend_d const_backend_b scen_E scen_G
    (beam_inputs 0) (beam_outputs 0) "fwd" beam_derivs
  = Some (mkDerivs (d_nodes beam_derivs) (d_radius beam_derivs)
            (d_disp beam_derivs)
            (zip_with add2 (d_vonmises beam_derivs) [(1, 1); (2, 2)])) /\
  ("fwd"%string <> "rev"%string ->
   d_nodes (mkDerivs (d_nodes beam_derivs) (d_radius beam_derivs)
              (d_disp beam_derivs)
              (zip_with add2 (d_vonmises beam_derivs) [(1, 1); (2, 2)]))
   = d_nodes beam_derivs /\
   d_radius (mkDerivs (d_nodes beam_derivs) (d_radius beam_derivs)
               (d_disp beam_derivs)
               (zip_with add2 (d_vonmises beam_derivs) [(1, 1); (2, 2)]))
   = d_radius beam_derivs /\
   d_disp (mkDerivs (d_nodes beam_derivs) (d_radius beam_derivs)
             (d_disp beam_derivs)
             (zip_with add2 (d_vonmises beam_derivs) [(1, 1); (2, 2)]))
   = d_disp beam_derivs) /\
  ("fwd"%string <> "fwd"%string ->
   d_vonmises (mkDerivs (d_nodes beam_derivs) (d_radius beam_derivs)
                 (d_disp beam_derivs)
                 (zip_with add2 (d_vonmises beam_derivs) [(1, 1); (2, 2)]))
   = d_vonmises beam_derivs).
Proof.
  assert (H1 : compute_jacvec_product const_backend_d const_backend_b
                 scen_E scen_G (beam_inputs 0) (beam_outputs 0) "fwd"
                 beam_derivs
               = Some (mkDerivs (d_nodes beam_derivs) (d_radius beam_derivs)
                         (d_disp beam_derivs)
                         (zip_with add2 (d_vonmises beam_derivs)
                            [(1, 1); (2, 2)]))) by reflexivity.
  split; [exact H1|].
  exact (jacvec_changes_only_its_mode const_backend_d const_backend_b
           scen_E scen_G (beam_inputs 0) (beam_outputs 0) "fwd" beam_derivs
           _ H1).
Defined.

Lemma jacvec_n_calls_witness :
  iterate_calls
    (compute_jacvec_product const_backend_d const_backend_b scen_E scen_G
       (beam_inputs 0) (beam_outputs 0) "fwd") 5 beam_derivs
  = Some (mkDerivs (d_nodes beam_derivs) (d_radius beam_derivs)
            (d_disp beam_derivs)
            (zip_with add2 (d_vonmises beam_derivs)
               (scale2 (INR 5)
                  <$> fwd_contribution const_backend_d scen_E scen_G
                        (beam_inputs 0) beam_derivs))) /\
  iterate_calls
    (compute_jacvec_product const_backend_d const_backend_b scen_E scen_G
       (beam_inputs 0) (beam_outputs 0) "rev") 5 beam_derivs
  = Some (mkDerivs
            (zip_with add3 (d_nodes beam_derivs)
               (scale3 (INR 5)
                  <$> (rev_contribution const_backend_b scen_E scen_G
                         (beam_inputs 0) (beam_outputs 0) beam_derivs).1.1))
            (zip_with Rplus (d_radius beam_derivs)
               (Rmult (INR 5)
                  <$> (rev_contribution const_backend_b scen_E scen_G
                         (beam_inputs 0) (beam_outputs 0) beam_derivs).1.2))
            (zip_with add6 (d_disp beam_derivs)
               (scale6 (INR 5)
                  <$> (rev_contribution const_backend_b scen_E scen_G
                         (beam_inputs 0) (beam_outputs 0) beam_derivs).2))
            (d_vonmises beam_derivs)).
Proof.
  exact (jacvec_n_calls const_backend_d const_backend_b scen_E scen_G
           (beam_inputs 0) (beam_outputs 0) beam_derivs 5
           eq_refl eq_refl eq_refl eq_refl).
Defined.
End MoreWitnesses.
(** ** Scaling the moduli, reversing the beam *)
Section ScalingReversal.
Local Open Scope R_scope.
Implicit Types (nodesR : list (Vec3 R)) (radiusR : list R)
  (dispR : list (Vec6 R)) (Tini : Mat3 xreal) (buf : list (xreal * xreal)).

Lemma stress_local_moduli (E G L rad k : R) (u0 r0 u1 r1 : Vec3 R) :
  0 <= k ->
  stress_local (k * E) (k * G) L rad u0 r0 u1 r1
  = (k * (stress_local E G L rad u0 r0 u1 r1).1,
     k * (stress_local E G L rad u0 r0 u1 r1).2).
Proof.
  intros Hk. unfold stress_local, ssq.
  cbn [sadd ssub smul sdiv ssqrt R_scalar fst snd].
  set (tmp := sqrt ((vy r1 - vy r0) * (vy r1 - vy r0)
                    + (vz r1 - vz r0) * (vz r1 - vz r0))).
  replace (k * E * (vx u1 - vx u0) / L + k * E * rad / L * tmp)
    with (k * (E * (vx u1 - vx u0) / L + E * rad / L * tmp))
    by (unfold Rdiv; ring).
  replace (k * E * (vx u0 - vx u1) / L + k * E * rad / L * tmp)
    with (k * (E * (vx u0 - vx u1) / L + E * rad / L * tmp))
    by (unfold Rdiv; ring).
  replace (k * G * rad * (vx r1 - vx r0) / L)
    with (k * (G * rad * (vx r1 - vx r0) / L)) by (unfold Rdiv; ring).
  by rewrite !(sqrt_scale k _ _ Hk).
Qed.

Lemma elem_stress_moduli (E G k : R) (e : Elem R) :
  0 <= k ->
  elem_stress (k * E) (k * G) e = xscale2 k (elem_stress E G e).
Proof.
  intros Hk.
  destruct (elem_stress_cases E G e) as [[Hwp ->]|[Hdeg ->]].
  - unfold elem_stress. rewrite (stress_of_fin _ _ _ _ _ _ _ Hwp).
    unfold stress_of, stress_axis.
    by rewrite (stress_local_moduli _ _ _ _ _ _ _ _ _ Hk).
  - unfold elem_stress. by rewrite stress_of_degenerate.
Qed.

(** X15. Multiplying both moduli [E] and [G] by a factor [k >= 0]
    multiplies every stress by [k] (a non-finite stress stays
    non-finite). *)
Theorem moduli_scaling cv (ny : nat) (E G : R) nodesR radiusR dispR
    Tini buf (k : R) :
  0 <= k ->
  real_shapes ny nodesR radiusR dispR buf ->
  exists st' stk,
    compute cv false ny (Some E) (Some G)
      (fin_store nodesR radiusR dispR Tini buf) = Some st' /\
    compute cv false ny (Some (k * E)) (Some (k * G))
      (fin_store nodesR radiusR dispR Tini buf) = Some stk /\
    vonmises stk = xscale2 k <$> vonmises st'.
Proof.
  intros Hk Hsh.
  destruct (compute_fin_rows cv ny E G nodesR radiusR dispR Tini buf Hsh)
    as (st' & Hrun & Hvm).
  destruct (compute_fin_rows cv ny (k * E) (k * G) nodesR radiusR dispR
              Tini buf Hsh) as (stk & Hrunk & Hvmk).
  exists st', stk. split; [exact Hrun|]. split; [exact Hrunk|].
  rewrite Hvmk, Hvm, <- list_fmap_compose.
  apply list_fmap_ext. intros j e _. by apply elem_stress_moduli.
Qed.

Lemma sub_swap (P0 P1 : Vec3 R) :
  Np.sub P0 P1 = scale3 (-1) (Np.sub P1 P0).
Proof.
  unfold Np.sub, scale3. cbn [vx vy vz ssub R_scalar]. f_equal; ring.
Qed.

Lemma norm_neg (v : Vec3 R) : Utils.norm (scale3 (-1) v) = Utils.norm v.
Proof.
  rewrite !norm_R. f_equal. unfold sumsq, scale3. cbn [vx vy vz]. ring.
Qed.

Lemma unit_neg (v : Vec3 R) :
  Utils.unit (scale3 (-1) v) = scale3 (-1) (Utils.unit v).
Proof.
  unfold Utils.unit. rewrite norm_neg.
  unfold Np.div, scale3. cbn [vx vy vz sdiv R_scalar].
  f_equal; unfold Rdiv; ring.
Qed.

Lemma cross_neg_l (a b : Vec3 R) :
  Np.cross (scale3 (-1) a) b = scale3 (-1) (Np.cross a b).
Proof.
  unfold Np.cross, scale3. cbn [vx vy vz ssub smul R_scalar]. f_equal; ring.
Qed.

Lemma cross_neg_neg (a b : Vec3 R) :
  Np.cross (scale3 (-1) a) (scale3 (-1) b) = Np.cross a b.
Proof.
  unfold Np.cross, scale3. cbn [vx vy vz ssub smul R_scalar]. f_equal; ring.
Qed.

(** The frame of the element traversed the other way. *)
Lemma frame_of_reversed (P0 P1 : Vec3 R) :
  frame_of P1 P0
  = mkMat3 (scale3 (-1) (row0 (frame_of P0 P1)))
           (scale3 (-1) (row1 (frame_of P0 P1)))
           (row2 (frame_of P0 P1)).
Proof.
  unfold frame_of, frame_axis. cbn [row0 row1 row2].
  rewrite (sub_swap P0 P1), unit_neg, cross_neg_l, unit_neg, cross_neg_neg.
  reflexivity.
Qed.

Lemma dot_reversed (x y z v : Vec3 R) :
  Np.dot (mkMat3 (scale3 (-1) x) (scale3 (-1) y) z) v
  = flip3 (Np.dot (mkMat3 x y z) v).
Proof.
  unfold Np.dot, Np.inner, flip3, scale3.
  cbn [vx vy vz row0 row1 row2 sadd smul R_scalar]. f_equal; ring.
Qed.

Lemma stress_local_flip (E G L rad : R) (u0 r0 u1 r1 : Vec3 R) :
  stress_local E G L rad (flip3 u1) (flip3 r1) (flip3 u0) (flip3 r0)
  = stress_local E G L rad u0 r0 u1 r1.
Proof.
  unfold stress_local, flip3, ssq.
  cbn [vx vy vz sadd ssub smul sdiv ssqrt R_scalar].
  replace (-1 * vx u0 - -1 * vx u1) with (vx u1 - vx u0) by ring.
  replace (-1 * vx u1 - -1 * vx u0) with (vx u0 - vx u1) by ring.
  replace (-1 * vx r0 - -1 * vx r1) with (vx r1 - vx r0) by ring.
  replace ((-1 * vy r0 - -1 * vy r1) * (-1 * vy r0 - -1 * vy r1)
           + (vz r0 - vz r1) * (vz r0 - vz r1))
    with ((vy r1 - vy r0) * (vy r1 - vy r0)
          + (vz r1 - vz r0) * (vz r1 - vz r0)) by ring.
  reflexivity.
Qed.

Lemma stress_of_reversed (E G : R) (P0 P1 : Vec3 R) (rad : R) (d0 d1 : Vec6 R) :
  stress_of E G P1 P0 rad d1 d0 = stress_of E G P0 P1 rad d0 d1.
Proof.
  unfold stress_of, stress_axis.
  fold (frame_of P1 P0). fold (frame_of P0 P1).
  rewrite frame_of_reversed, (sub_swap P0 P1), norm_neg.
  destruct (frame_of P0 P1) as [x y z]. cbn [row0 row1 row2].
  rewrite !dot_reversed. apply stress_local_flip.
Qed.

Lemma well_posed_sym (P0 P1 : Vec3 R) : well_posed P0 P1 -> well_posed P1 P0.
Proof.
  intros [Hne Hnp]. split; [congruence|].
  intros Hp. apply parallel_yz in Hp as [Hy Hz].
  apply not_parallel_yz in Hnp.
  unfold Np.sub in *. cbn [vx vy vz ssub R_scalar] in *. lra.
Qed.

Lemma elem_stress_reversed (E G : R) (P0 P1 : Vec3 R) (rad : R)
    (d0 d1 : Vec6 R) :
  elem_stress E G (mkElem P1 P0 rad d1 d0)
  = elem_stress E G (mkElem P0 P1 rad d0 d1).
Proof.
  unfold elem_stress. cbn [eP0 eP1 erad ed0 ed1].
  destruct (well_posed_or_degenerate P0 P1) as [Hwp|Hdeg].
  - rewrite (stress_of_fin _ _ _ _ _ _ _ Hwp).
    rewrite (stress_of_fin _ _ _ _ _ _ _ (well_posed_sym _ _ Hwp)).
    by rewrite stress_of_reversed.
  - rewrite (stress_of_degenerate _ _ P0 P1 _ _ _ Hdeg).
    apply stress_of_degenerate.
    destruct (well_posed_or_degenerate P1 P0) as [Hwp'|Hdeg']; [|exact Hdeg'].
    apply well_posed_sym in Hwp'.
    by apply well_posed_not_degenerate in Hwp'.
Qed.

(** X16. Numbering the nodes of the beam from the other end gives the same
    stress pairs, in the reverse order of the elements: the stress pair of
    an element does not depend on the direction in which it is
    traversed. *)
Theorem reversal_invariant cv (ny : nat) (E G : R) nodesR radiusR dispR
    Tini buf :
  real_shapes ny nodesR radiusR dispR buf ->
  exists st' str,
    compute cv false ny (Some E) (Some G)
      (fin_store nodesR radiusR dispR Tini buf) = Some st' /\
    compute cv false ny (Some E) (Some G)
      (fin_store (reverse nodesR) (reverse radiusR) (reverse dispR) Tini buf)
    = Some str /\
    vonmises str = reverse (vonmises st').
Proof.
  intros Hsh.
  destruct (compute_fin_rows cv ny E G nodesR radiusR dispR Tini buf Hsh)
    as (st' & Hrun & Hvm).
  assert (Hshr : real_shapes ny (reverse nodesR) (reverse radiusR)
                   (reverse dispR) buf).
  { destruct Hsh as (? & ? & ? & ?). unfold real_shapes.
    by rewrite !length_reverse. }
  destruct (compute_fin_rows cv ny E G _ _ _ Tini buf Hshr)
    as (str & Hrunr & Hvmr).
  exists st', str. split; [exact Hrun|]. split; [exact Hrunr|].
  rewrite Hvmr, Hvm. destruct Hsh as (Hn & Hr & Hd & Hv).
  pose proof (elements_length_shapes ny nodesR radiusR dispR Hn Hr Hd) as Hle.
  apply list_eq. intros i.
  destruct (decide (i < ny - 1)%nat) as [Hi|Hi].
  - rewrite reverse_lookup by (rewrite length_fmap; lia).
    rewrite length_fmap, Hle, !list_lookup_fmap.
    destruct (lookup_lt_is_Some_2 nodesR (ny - 1 - S i)) as [P0 HP0]; [lia|].
    destruct (lookup_lt_is_Some_2 nodesR (ny - 1 - S i + 1)) as [P1 HP1]; [lia|].
    destruct (lookup_lt_is_Some_2 radiusR (ny - 1 - S i)) as [rad Hrad]; [lia|].
    destruct (lookup_lt_is_Some_2 dispR (ny - 1 - S i)) as [d0 Hd0]; [lia|].
    destruct (lookup_lt_is_Some_2 dispR (ny - 1 - S i + 1)) as [d1 Hd1]; [lia|].
    rewrite (elements_lookup nodesR radiusR dispR _ _ _ _ _ _
               HP0 HP1 Hrad Hd0 Hd1).
    rewrite (elements_lookup (reverse nodesR) (reverse radiusR)
               (reverse dispR) i P1 P0 rad d1 d0).
    + cbn [fmap option_fmap option_map]. f_equal. apply elem_stress_reversed.
    + rewrite reverse_lookup by lia. rewrite <- HP1. f_equal. lia.
    + rewrite reverse_lookup by lia. rewrite <- HP0. f_equal. lia.
    + rewrite reverse_lookup by lia. rewrite <- Hrad. f_equal. lia.
    + rewrite reverse_lookup by lia. rewrite <- Hd1. f_equal. lia.
    + rewrite reverse_lookup by lia. rewrite <- Hd0. f_equal. lia.
  - rewrite !lookup_ge_None_2; [done| |].
    + rewrite length_reverse, length_fmap. lia.
    + rewrite length_fmap, (elements_length_shapes ny)
        by (by rewrite length_reverse). lia.
Qed.
End ScalingReversal.
(** ** Scaling and reversal at sample data *)
Section ScalingWitnesses.
Local Open Scope R_scope.

Lemma moduli_scaling_witness :
  0 <= 2 /\
  real_shapes 3 beam_nodes beam_radius beam_disp stale_vonmises /\
  exists st' stk,
    compute no_backend false 3 (Some scen_E) (Some scen_G)
      (fin_store beam_nodes beam_radius beam_disp stale_T stale_vonmises)
    = Some st' /\
    compute no_backend false 3 (Some (2 * scen_E)) (Some (2 * scen_G))
      (fin_store beam_nodes beam_radius beam_disp stale_T stale_vonmises)
    = Some stk /\
    vonmises stk = xscale2 2 <$> vonmises st'.
Proof.
  assert (H0 : 0 <= 2) by lra.
  assert (H1 : real_shapes 3 beam_nodes beam_radius beam_disp stale_vonmises)
    by (repeat split; reflexivity).
  split; [exact H0|]. split; [exact H1|].
  exact (moduli_scaling no_backend 3 scen_E scen_G beam_nodes beam_radius
           beam_disp stale_T stale_vonmises 2 H0 H1).
Defined.

Lemma reversal_invariant_witness :
  real_shapes 3 beam_nodes beam_radius beam_disp stale_vonmises /\
  exists st' str,
    compute no_backend false 3 (Some scen_E) (Some scen_G)
      (fin_store beam_nodes beam_radius beam_disp stale_T stale_vonmises)
    = Some st' /\
    compute no_backend false 3 (Some scen_E) (Some scen_G)
      (fin_store (reverse beam_nodes) (reverse beam_radius)
         (reverse beam_disp) stale_T stale_vonmises)
    = Some str /\
    vonmises str = reverse (vonmises st').
Proof.
  assert (H1 : real_shapes 3 beam_nodes beam_radius beam_disp stale_vonmises)
    by (repeat split; reflexivity).
  split; [exact H1|].
  exact (reversal_invariant no_backend 3 scen_E scen_G beam_nodes beam_radius
           beam_disp stale_T stale_vonmises H1).
Defined.
End ScalingWitnesses.
